(** * ngx-gen-ai-chat: the CohereService streaming and tool-call core

    A shallow embedding of [CohereService] (src/fesm2022/ngx-gen-ai-chat.mjs):
    the frame decoder and tool-call accumulator of [readStream], the tool
    executor and continuation request of [handleToolCalls], the helpers
    [wrapToolResult], [transformTools] and [ensureJsonString], and the
    cancellation slot of [stopStream] / [generateResponse]; then of what
    is built on it: the methods of [AiChatStore] that hold the conversation
    ([processMessage], [stopRequest], [clearChat], [initialize]),
    [sendMessage] of the input component and [formatMessage] of the
    message list.

    JavaScript values are modelled by the inductive type [value]; strings are
    sequences of UTF-16 code units ([list N]); the platform functions the
    service calls ([String.prototype.trim], [split], [JSON.stringify],
    [JSON.parse], string conversion, [+] and [||]) are modelled after
    ECMA-262 on that type.  Numbers are exact decimals: rounding to binary64
    is outside the model. *)

From Stdlib Require Import Strings.Ascii Strings.String.
From Stdlib Require Import List ZArith NArith Bool Lia Decimal.
From stdpp Require Import base option list gmap.

Local Open Scope N_scope.

(* ===================================================================== *)
(** * JavaScript strings *)
(* ===================================================================== *)

(** A JavaScript string is a sequence of 16-bit code units. *)
Abbreviation jstring := (list N) (only parsing).

(** [str "abc"] is the JavaScript string literal ['abc'] (ASCII only). *)
Definition str (s : string) : jstring :=
  List.map N_of_ascii (list_ascii_of_string s).

(** [str_q "{'a':1}"] is a text written with the apostrophe for the
    double quote. *)
Definition str_q (s : string) : jstring :=
  List.map (fun c => if c =? 39 then 34 else c) (str s).

Fixpoint jstring_eqb (a b : jstring) : bool :=
  match a, b with
  | [], [] => true
  | x :: a', y :: b' => (x =? y) && jstring_eqb a' b'
  | _, _ => false
  end.

(** WhiteSpace and LineTerminator code units, the ones [trim] strips. *)
Definition is_js_space (c : N) : bool :=
  (c =? 9) || (c =? 10) || (c =? 11) || (c =? 12) || (c =? 13) || (c =? 32)
  || (c =? 160) || (c =? 5760) || ((8192 <=? c) && (c <=? 8202))
  || (c =? 8232) || (c =? 8233) || (c =? 8239) || (c =? 8287)
  || (c =? 12288) || (c =? 65279).

Fixpoint trim_start (s : jstring) : jstring :=
  match s with
  | [] => []
  | c :: r => if is_js_space c then trim_start r else s
  end.

(** [s.trim()] *)
Definition trim (s : jstring) : jstring :=
  rev (trim_start (rev (trim_start s))).

(** [s.startsWith(p)] *)
Fixpoint startsWith (s p : jstring) : bool :=
  match p, s with
  | [], _ => true
  | _ :: _, [] => false
  | a :: p', b :: s' => (a =? b) && startsWith s' p'
  end.

(** [s.substring(n)] *)
Definition substring (n : nat) (s : jstring) : jstring := skipn n s.

(** [s.split('\n')]: never empty, the pieces between the newlines. *)
Fixpoint split_nl (s : jstring) : list jstring :=
  match s with
  | [] => [ [] ]
  | c :: r =>
      if c =? 10 then [] :: split_nl r
      else match split_nl r with
           | h :: t => (c :: h) :: t
           | [] => [ [c] ]
           end
  end.

(** The same split as a pair: the complete lines, and the fragment after
    the last newline. *)
Fixpoint split_at_nl (s : jstring) : list jstring * jstring :=
  match s with
  | [] => ([], [])
  | c :: r =>
      let '(ls, frag) := split_at_nl r in
      if c =? 10 then ([] :: ls, frag)
      else match ls with
           | [] => ([], c :: frag)
           | l :: ls' => ((c :: l) :: ls', frag)
           end
  end.

(** [parts.join(sep)] *)
Fixpoint join (sep : jstring) (parts : list jstring) : jstring :=
  match parts with
  | [] => []
  | [p] => p
  | p :: rest => p ++ sep ++ join sep rest
  end.

(* ===================================================================== *)
(** * Numbers and values *)
(* ===================================================================== *)

(** The number [mant * 10 ^ expo]; normal when [mant] has no trailing zero
    (and [expo = 0] for zero). *)
Record number := Num { mant : Z; expo : Z }.

Fixpoint strip_zeros (fuel : nat) (m e : Z) : Z * Z :=
  match fuel with
  | O => (m, e)
  | S f => if (m mod 10 =? 0)%Z then strip_zeros f (m / 10)%Z (e + 1)%Z
           else (m, e)
  end.

Definition normalize (m e : Z) : number :=
  if (m =? 0)%Z then Num 0 0
  else let '(m', e') := strip_zeros (S (Z.to_nat (Z.log2 (Z.abs m)))) m e in
       Num m' e'.

Definition number_eqb (a b : number) : bool :=
  (mant a =? mant b)%Z && (expo a =? expo b)%Z.

Fixpoint uint_digits (u : Decimal.uint) : jstring :=
  match u with
  | Nil => []
  | D0 u => 48 :: uint_digits u
  | D1 u => 49 :: uint_digits u
  | D2 u => 50 :: uint_digits u
  | D3 u => 51 :: uint_digits u
  | D4 u => 52 :: uint_digits u
  | D5 u => 53 :: uint_digits u
  | D6 u => 54 :: uint_digits u
  | D7 u => 55 :: uint_digits u
  | D8 u => 56 :: uint_digits u
  | D9 u => 57 :: uint_digits u
  end.

(** The decimal digits of a non-negative integer. *)
Definition digits (z : Z) : jstring := uint_digits (N.to_uint (Z.to_N z)).

(** Number::toString (radix 10) of a normal number. *)
Definition Number_toString (x : number) : jstring :=
  let m := mant x in
  if (m =? 0)%Z then str "0"
  else
    let sign := if (m <? 0)%Z then str "-" else [] in
    let s := digits (Z.abs m) in
    let k := Z.of_nat (length s) in
    let n := (k + expo x)%Z in
    sign ++
    (if (k <=? n)%Z && (n <=? 21)%Z then s ++ repeat 48 (Z.to_nat (n - k))
     else if (0 <? n)%Z && (n <=? 21)%Z then
       firstn (Z.to_nat n) s ++ str "." ++ skipn (Z.to_nat n) s
     else if (-6 <? n)%Z && (n <=? 0)%Z then
       str "0." ++ repeat 48 (Z.to_nat (- n)) ++ s
     else
       let ex := (n - 1)%Z in
       let esign := if (ex <? 0)%Z then str "-" else str "+" in
       if (k =? 1)%Z then s ++ str "e" ++ esign ++ digits (Z.abs ex)
       else firstn 1 s ++ str "." ++ skipn 1 s
            ++ str "e" ++ esign ++ digits (Z.abs ex)).

(** The values the service handles: [undefined] and the JSON values.  An
    object is its list of own properties in enumeration order. *)
#[warnings="-register-all"]
Inductive value :=
| VUndef
| VNull
| VBool (b : bool)
| VNum (n : number)
| VStr (s : jstring)
| VArr (items : list value)
| VObj (fields : list (jstring * value)).

(** ToBoolean *)
Definition truthy (v : value) : bool :=
  match v with
  | VUndef | VNull => false
  | VBool b => b
  | VNum n => negb (mant n =? 0)%Z
  | VStr s => match s with [] => false | _ => true end
  | VArr _ | VObj _ => true
  end.

(** [a || b] *)
Definition js_or (a b : value) : value := if truthy a then a else b.

Definition nullish (v : value) : bool :=
  match v with VUndef | VNull => true | _ => false end.

Fixpoint assoc (k : jstring) (fields : list (jstring * value)) : value :=
  match fields with
  | [] => VUndef
  | (k', v) :: rest => if jstring_eqb k k' then v else assoc k rest
  end.

(** [v?.k]; also [v.k] when [v] is neither [null] nor [undefined].  The
    property names the service reads are own properties of objects only. *)
Definition prop (v : value) (k : jstring) : value :=
  match v with
  | VObj fields => assoc k fields
  | _ => VUndef
  end.

(** [v.k], which throws a TypeError ([None]) on [null] and [undefined]. *)
Definition member (v : value) (k : jstring) : option value :=
  if nullish v then None else Some (prop v k).

(** [a === b] for values of which at most one side is a fresh object: two
    distinct objects are never identical. *)
Definition strict_eqb (a b : value) : bool :=
  match a, b with
  | VUndef, VUndef | VNull, VNull => true
  | VBool x, VBool y => eqb x y
  | VNum x, VNum y => number_eqb x y
  | VStr x, VStr y => jstring_eqb x y
  | _, _ => false
  end.

(** ToString *)
Fixpoint ToString (v : value) : jstring :=
  match v with
  | VUndef => str "undefined"
  | VNull => str "null"
  | VBool true => str "true"
  | VBool false => str "false"
  | VNum n => Number_toString n
  | VStr s => s
  | VArr items =>
      join (str ",")
        (List.map (fun x => if nullish x then [] else ToString x) items)
  | VObj _ => str "[object Object]"
  end.

(** ToNumber of a primitive that is not a string. *)
Definition ToNumber (v : value) : option number :=
  match v with
  | VNull | VBool false => Some (Num 0 0)
  | VBool true => Some (Num 1 0)
  | VNum n => Some n
  | _ => None
  end.

Definition number_add (a b : number) : number :=
  let e := Z.min (expo a) (expo b) in
  normalize (mant a * 10 ^ (expo a - e) + mant b * 10 ^ (expo b - e))%Z e.

(** [a + b]: concatenation when either operand converts to a string,
    numeric addition otherwise ([undefined] makes it NaN, which no JSON
    value is: [None]). *)
Definition js_add (a b : value) : option value :=
  match a, b with
  | (VStr _ | VArr _ | VObj _), _ | _, (VStr _ | VArr _ | VObj _) =>
      Some (VStr (ToString a ++ ToString b))
  | _, _ =>
      match ToNumber a, ToNumber b with
      | Some x, Some y => Some (VNum (number_add x y))
      | _, _ => None
      end
  end.

(* ===================================================================== *)
(** * JSON.stringify *)
(* ===================================================================== *)

Definition hex_digit (n : N) : N := if n <? 10 then 48 + n else 87 + n.

(** The escape [\uXXXX], lower-case hexadecimal. *)
Definition unicode_escape (c : N) : jstring :=
  [92; 117; hex_digit (c / 4096 mod 16); hex_digit (c / 256 mod 16);
   hex_digit (c / 16 mod 16); hex_digit (c mod 16)].

Definition is_high_surrogate (c : N) : bool := (55296 <=? c) && (c <=? 56319).
Definition is_low_surrogate (c : N) : bool := (56320 <=? c) && (c <=? 57343).

(** The body of QuoteJSONString: two-character escapes for backspace, tab,
    line feed, form feed, carriage return, the quote and the backslash;
    [\uXXXX] for the other control characters and for lone surrogates. *)
Fixpoint quote_chars (s : jstring) : jstring :=
  match s with
  | [] => []
  | c :: r =>
      if c =? 8 then 92 :: 98 :: quote_chars r
      else if c =? 9 then 92 :: 116 :: quote_chars r
      else if c =? 10 then 92 :: 110 :: quote_chars r
      else if c =? 12 then 92 :: 102 :: quote_chars r
      else if c =? 13 then 92 :: 114 :: quote_chars r
      else if c =? 34 then 92 :: 34 :: quote_chars r
      else if c =? 92 then 92 :: 92 :: quote_chars r
      else if c <? 32 then unicode_escape c ++ quote_chars r
      else if is_high_surrogate c then
        match r with
        | d :: r' =>
            if is_low_surrogate d then c :: d :: quote_chars r'
            else unicode_escape c ++ quote_chars r
        | [] => unicode_escape c
        end
      else if is_low_surrogate c then unicode_escape c ++ quote_chars r
      else c :: quote_chars r
  end.

Definition quote (s : jstring) : jstring := 34 :: quote_chars s ++ [34].

(** SerializeJSONProperty without indentation; [None] is [undefined]. *)
Fixpoint stringify (v : value) : option jstring :=
  match v with
  | VUndef => None
  | VNull => Some (str "null")
  | VBool true => Some (str "true")
  | VBool false => Some (str "false")
  | VNum n => Some (Number_toString n)
  | VStr s => Some (quote s)
  | VArr items =>
      Some (str "[" ++
            join (str ",")
              (List.map (fun x => match stringify x with
                                  | Some s => s
                                  | None => str "null"
                                  end) items)
            ++ str "]")
  | VObj fields =>
      Some (str "{" ++
            join (str ",")
              (List.flat_map
                 (fun kv => match stringify (snd kv) with
                            | Some s => [quote (fst kv) ++ str ":" ++ s]
                            | None => []
                            end) fields)
            ++ str "}")
  end.

(** [JSON.stringify(v)] *)
Definition JSON_stringify (v : value) : value :=
  match stringify v with
  | Some s => VStr s
  | None => VUndef
  end.

(* ===================================================================== *)
(** * JSON.parse *)
(* ===================================================================== *)

Definition is_json_ws (c : N) : bool :=
  (c =? 9) || (c =? 10) || (c =? 13) || (c =? 32).

Fixpoint skip_ws (s : jstring) : jstring :=
  match s with
  | [] => []
  | c :: r => if is_json_ws c then skip_ws r else s
  end.

Definition hex_value (c : N) : option N :=
  if (48 <=? c) && (c <=? 57) then Some (c - 48)
  else if (97 <=? c) && (c <=? 102) then Some (c - 87)
  else if (65 <=? c) && (c <=? 70) then Some (c - 55)
  else None.

Definition hex4 (a b c d : N) : option N :=
  match hex_value a, hex_value b, hex_value c, hex_value d with
  | Some x, Some y, Some z, Some w => Some (x * 4096 + y * 256 + z * 16 + w)
  | _, _, _, _ => None
  end.

Definition simple_escape (c : N) : option N :=
  if c =? 34 then Some 34          (* quote *)
  else if c =? 92 then Some 92     (* backslash *)
  else if c =? 47 then Some 47     (* slash *)
  else if c =? 98 then Some 8      (* b: backspace *)
  else if c =? 102 then Some 12    (* f: form feed *)
  else if c =? 110 then Some 10    (* n: line feed *)
  else if c =? 114 then Some 13    (* r: carriage return *)
  else if c =? 116 then Some 9     (* t: tab *)
  else None.

(** A decoded character in front of the decoded rest. *)
Definition prepend (c : N) (r : option (jstring * jstring))
    : option (jstring * jstring) :=
  match r with
  | Some (t, rest) => Some (c :: t, rest)
  | None => None
  end.

(** The characters of a JSON string after its opening quote, up to and
    including the closing one: the decoded string and the rest. *)
Fixpoint parse_string_body (s : jstring) : option (jstring * jstring) :=
  match s with
  | [] => None
  | c :: r =>
      if c =? 34 then Some ([], r)
      else if c =? 92 then
        match r with
        | [] => None
        | e :: r1 =>
            if e =? 117 then
              match r1 with
              | h1 :: h2 :: h3 :: h4 :: r2 =>
                  match hex4 h1 h2 h3 h4 with
                  | Some u => prepend u (parse_string_body r2)
                  | None => None
                  end
              | _ => None
              end
            else
              match simple_escape e with
              | Some x => prepend x (parse_string_body r1)
              | None => None
              end
        end
      else if c <? 32 then None
      else prepend c (parse_string_body r)
  end.

Definition is_digit (c : N) : bool := (48 <=? c) && (c <=? 57).

Fixpoint take_digits (s : jstring) : jstring * jstring :=
  match s with
  | c :: r =>
      if is_digit c then let '(d, rest) := take_digits r in (c :: d, rest)
      else ([], s)
  | [] => ([], [])
  end.

Definition digits_value (d : jstring) : Z :=
  fold_left (fun acc c => (acc * 10 + Z.of_N (c - 48))%Z) d 0%Z.

(** The sign in front of a number or of an exponent. *)
Definition take_sign (plus : bool) (s : jstring) : bool * jstring :=
  match s with
  | c :: r =>
      if c =? 45 then (true, r)
      else if plus && (c =? 43) then (false, r)
      else (false, s)
  | [] => (false, s)
  end.

(** The fraction of a number: its digits, when there is a point. *)
Definition parse_fraction (s : jstring) : option (jstring * jstring) :=
  match s with
  | c :: r =>
      if c =? 46 then
        let '(fr, rest) := take_digits r in
        match fr with
        | [] => None
        | _ => Some (fr, rest)
        end
      else Some ([], s)
  | [] => Some ([], s)
  end.

(** The exponent of a number, [0] when there is none. *)
Definition parse_exponent (s : jstring) : option (Z * jstring) :=
  match s with
  | c :: r =>
      if (c =? 101) || (c =? 69) then
        let '(eneg, r1) := take_sign true r in
        let '(ex, rest) := take_digits r1 in
        match ex with
        | [] => None
        | _ => Some ((if eneg then - digits_value ex
                      else digits_value ex)%Z, rest)
        end
      else Some (0%Z, s)
  | [] => Some (0%Z, s)
  end.

(** A JSON number: [-]? int frac? exp?, with no leading zero in [int]. *)
Definition parse_number (s : jstring) : option (number * jstring) :=
  let '(neg, s1) := take_sign false s in
  let '(int, s2) := take_digits s1 in
  match int with
  | [] => None
  | d0 :: more =>
      if (d0 =? 48) && negb (match more with [] => true | _ => false end)
      then None
      else
        match parse_fraction s2 with
        | None => None
        | Some (fr, s3) =>
            match parse_exponent s3 with
            | None => None
            | Some (e, s4) =>
                let m := digits_value (int ++ fr) in
                Some (normalize (if neg then - m else m)%Z
                                (e - Z.of_nat (length fr))%Z, s4)
            end
        end
  end.

(** An array index: the canonical decimal form of an integer below
    [2^32 - 1].  Such keys are enumerated first, in ascending order. *)
Definition array_index (k : jstring) : option N :=
  match k with
  | [] => None
  | c :: r =>
      if forallb is_digit k
         && ((negb (c =? 48)) || match r with [] => true | _ => false end)
      then let n := Z.to_N (digits_value k) in
           if n <? 4294967295 then Some n else None
      else None
  end.

Fixpoint has_key (k : jstring) (fields : list (jstring * value)) : bool :=
  match fields with
  | [] => false
  | (k', _) :: rest => jstring_eqb k k' || has_key k rest
  end.

Fixpoint replace_key (k : jstring) (v : value)
    (fields : list (jstring * value)) : list (jstring * value) :=
  match fields with
  | [] => []
  | (k', v') :: rest =>
      if jstring_eqb k k' then (k', v) :: rest
      else (k', v') :: replace_key k v rest
  end.

Fixpoint insert_index (i : N) (k : jstring) (v : value)
    (fields : list (jstring * value)) : list (jstring * value) :=
  match fields with
  | [] => [(k, v)]
  | (k', v') :: rest =>
      match array_index k' with
      | Some j => if j <? i then (k', v') :: insert_index i k v rest
                  else (k, v) :: fields
      | None => (k, v) :: fields
      end
  end.

(** CreateDataProperty on an ordinary object: a repeated key keeps its
    place and takes the new value. *)
Definition obj_set (k : jstring) (v : value)
    (fields : list (jstring * value)) : list (jstring * value) :=
  if has_key k fields then replace_key k v fields
  else match array_index k with
       | Some i => insert_index i k v fields
       | None => fields ++ [(k, v)]
       end.

(** The JSON grammar by recursive descent.  A value, given the parsers
    [elements] and [members] of what follows an opening bracket or brace. *)
Definition value_step
    (elements : jstring -> list value -> option (value * jstring))
    (members : jstring -> list (jstring * value) -> option (value * jstring))
    (s : jstring) : option (value * jstring) :=
  match skip_ws s with
  | [] => None
  | c :: r =>
      if c =? 34 then
        match parse_string_body r with
        | Some (t, rest) => Some (VStr t, rest)
        | None => None
        end
      else if c =? 91 then
        match skip_ws r with
        | c' :: r' =>
            if c' =? 93 then Some (VArr [], r') else elements r []
        | [] => None
        end
      else if c =? 123 then
        match skip_ws r with
        | c' :: r' =>
            if c' =? 125 then Some (VObj [], r') else members r []
        | [] => None
        end
      else if startsWith (c :: r) (str "null") then
        Some (VNull, skipn 4 (c :: r))
      else if startsWith (c :: r) (str "true") then
        Some (VBool true, skipn 4 (c :: r))
      else if startsWith (c :: r) (str "false") then
        Some (VBool false, skipn 5 (c :: r))
      else if (c =? 45) || is_digit c then
        match parse_number (c :: r) with
        | Some (n, rest) => Some (VNum n, rest)
        | None => None
        end
      else None
  end.

(** The elements of an array, [acc] being those already read: a value,
    then a comma and more elements, or the closing bracket. *)
Definition elements_step
    (parse : jstring -> option (value * jstring))
    (elements : jstring -> list value -> option (value * jstring))
    (s : jstring) (acc : list value) : option (value * jstring) :=
  match parse s with
  | Some (v, r) =>
      match skip_ws r with
      | c :: r' =>
          if c =? 44 then elements r' (acc ++ [v])
          else if c =? 93 then Some (VArr (acc ++ [v]), r')
          else None
      | [] => None
      end
  | None => None
  end.

(** The members of an object: a key, a colon, a value, then a comma and
    more members, or the closing brace. *)
Definition members_step
    (parse : jstring -> option (value * jstring))
    (members : jstring -> list (jstring * value) -> option (value * jstring))
    (s : jstring) (acc : list (jstring * value)) : option (value * jstring) :=
  match skip_ws s with
  | c :: r =>
      if c =? 34 then
        match parse_string_body r with
        | Some (k, r1) =>
            match skip_ws r1 with
            | c1 :: r2 =>
                if c1 =? 58 then
                  match parse r2 with
                  | Some (v, r3) =>
                      match skip_ws r3 with
                      | c3 :: r4 =>
                          if c3 =? 44 then members r4 (obj_set k v acc)
                          else if c3 =? 125 then
                            Some (VObj (obj_set k v acc), r4)
                          else None
                      | [] => None
                      end
                  | None => None
                  end
                else None
            | [] => None
            end
        | None => None
        end
      else None
  | [] => None
  end.

(** The recursion, counted by [fuel].  Every recursive call follows the
    consumption of at least one character: [2 * length s + 2] units are
    never used up on [s] ([parse_value_fuel]). *)
Fixpoint parse_value (fuel : nat) (s : jstring) : option (value * jstring) :=
  match fuel with
  | O => None
  | S f => value_step (parse_elements f) (parse_members f) s
  end

with parse_elements (fuel : nat) (s : jstring) (acc : list value)
    : option (value * jstring) :=
  match fuel with
  | O => None
  | S f => elements_step (parse_value f) (parse_elements f) s acc
  end

with parse_members (fuel : nat) (s : jstring) (acc : list (jstring * value))
    : option (value * jstring) :=
  match fuel with
  | O => None
  | S f => members_step (parse_value f) (parse_members f) s acc
  end.

(** [JSON.parse(text)]; [None] when it throws a SyntaxError. *)
Definition JSON_parse (text : jstring) : option value :=
  match parse_value (2 * length text + 2) text with
  | Some (v, rest) =>
      match skip_ws rest with
      | [] => Some v
      | _ => None
      end
  | None => None
  end.

(* ===================================================================== *)
(** * ensureJsonString *)
(* ===================================================================== *)

(** [ensureJsonString(val)] *)
Definition ensureJsonString (val : value) : value :=
  if negb (truthy val) then VStr (str "{}")
  else
    match val with
    | VStr s =>
        let trimmed := trim s in
        if negb (truthy (VStr trimmed)) then VStr (str "{}")
        else
          match JSON_parse trimmed with
          | Some _ => VStr trimmed
          | None => JSON_stringify (VStr trimmed)
          end
    | _ => JSON_stringify val
    end.


(* ===================================================================== *)
(** * The tool-call accumulator and the event dispatch of readStream *)
(* ===================================================================== *)

(** An accumulated tool call: [{ id, name, arguments }]. *)
Record fragment := Fragment {
  tc_id : value;
  tc_name : value;
  tc_arguments : value
}.

(** [toolCallsMap]: a [Map] from [parsed.index] to the fragment, in
    insertion order.  Keys are compared by SameValueZero; every key is read
    from a freshly parsed frame, so an object key equals no other key. *)
Abbreviation toolmap := (list (value * fragment)) (only parsing).

Fixpoint map_get (k : value) (m : toolmap) : option fragment :=
  match m with
  | [] => None
  | (k', f) :: rest => if strict_eqb k k' then Some f else map_get k rest
  end.

(** [m.set(k, f)]: an existing key keeps its place. *)
Fixpoint map_set (k : value) (f : fragment) (m : toolmap) : toolmap :=
  match m with
  | [] => [(k, f)]
  | (k', f') :: rest =>
      if strict_eqb k k' then (k', f) :: rest
      else (k', f') :: map_set k f rest
  end.

(** [Array.from(m.values())] *)
Definition map_values (m : toolmap) : list fragment := List.map snd m.

(** What one parsed frame makes the loop of [readStream] do. *)
Inductive action :=
| ANothing                        (* no case, or a caught throw *)
| ANext (text : value)            (* subject.next(text) *)
| ASet (calls : toolmap)          (* the accumulator changes *)
| AMessageEnd (toolCalls : list fragment) (message : value)
| AStreamEnd.

(** The [switch (eventType)] of [readStream] on a parsed frame. *)
Definition dispatch (parsed currentEventType : value) (calls : toolmap)
    : action :=
  let eventType := js_or (prop parsed (str "type")) currentEventType in
  if strict_eqb eventType (VStr (str "content-delta"))
     || strict_eqb eventType (VStr (str "text-generation")) then
    let text :=
      js_or (prop (prop (prop (prop parsed (str "delta")) (str "message"))
                     (str "content")) (str "text"))
            (prop parsed (str "text")) in
    if truthy text then ANext text else ANothing
  else if strict_eqb eventType (VStr (str "tool-call-start")) then
    let deltaStart :=
      prop (prop (prop parsed (str "delta")) (str "message"))
           (str "tool_calls") in
    if truthy deltaStart then
      match member (prop deltaStart (str "function")) (str "name"),
            member (prop deltaStart (str "function")) (str "arguments") with
      | Some nm, Some args =>
          ASet (map_set (prop parsed (str "index"))
                  {| tc_id := prop deltaStart (str "id");
                     tc_name := nm;
                     tc_arguments := js_or args (VStr []) |} calls)
      | _, _ => ANothing
      end
    else ANothing
  else if strict_eqb eventType (VStr (str "tool-call-delta")) then
    let deltaArgs :=
      prop (prop (prop (prop (prop parsed (str "delta")) (str "message"))
                     (str "tool_calls")) (str "function")) (str "arguments") in
    match map_get (prop parsed (str "index")) calls with
    | Some call =>
        if truthy deltaArgs then
          match js_add (tc_arguments call) deltaArgs with
          | Some sum =>
              ASet (map_set (prop parsed (str "index"))
                      {| tc_id := tc_id call; tc_name := tc_name call;
                         tc_arguments := sum |} calls)
          | None => ANothing
          end
        else ANothing
    | None => ANothing
    end
  else if strict_eqb eventType (VStr (str "message-end")) then
    AMessageEnd (map_values calls) (prop parsed (str "message"))
  else if strict_eqb eventType (VStr (str "stream-end")) then AStreamEnd
  else ANothing.

(** The accumulator after a parsed frame. *)
Definition accumulate (currentEventType : value) (calls : toolmap)
    (parsed : value) : toolmap :=
  match dispatch parsed currentEventType calls with
  | ASet calls' => calls'
  | _ => calls
  end.

(** The kind of a parsed frame: [parsed.type || currentEventType]. *)
Definition event_type (currentEventType parsed : value) : value :=
  js_or (prop parsed (str "type")) currentEventType.

(** [parsed.delta?.message?.tool_calls] *)
Definition delta_tool_calls (parsed : value) : value :=
  prop (prop (prop parsed (str "delta")) (str "message")) (str "tool_calls").

(** A frame is a tool-call-start event at index [i], with the id, the name
    and the initial arguments [s] of the call. *)
Definition is_start (currentEventType parsed i id nm : value) (s : jstring)
    : Prop :=
  event_type currentEventType parsed = VStr (str "tool-call-start")
  /\ prop parsed (str "index") = i
  /\ truthy (delta_tool_calls parsed) = true
  /\ prop (delta_tool_calls parsed) (str "id") = id
  /\ nullish (prop (delta_tool_calls parsed) (str "function")) = false
  /\ prop (prop (delta_tool_calls parsed) (str "function")) (str "name") = nm
  /\ js_or (prop (prop (delta_tool_calls parsed) (str "function"))
                 (str "arguments")) (VStr []) = VStr s.

(** A frame is a tool-call-delta event at index [i] with the argument
    fragment [d]. *)
Definition is_delta (currentEventType parsed i : value) (d : jstring)
    : Prop :=
  event_type currentEventType parsed = VStr (str "tool-call-delta")
  /\ prop parsed (str "index") = i
  /\ prop (prop (delta_tool_calls parsed) (str "function")) (str "arguments")
     = VStr d.

(** A frame that is no tool-call event, or one at another index. *)
Definition elsewhere (currentEventType parsed i : value) : Prop :=
  (event_type currentEventType parsed <> VStr (str "tool-call-start")
   /\ event_type currentEventType parsed <> VStr (str "tool-call-delta"))
  \/ strict_eqb (prop parsed (str "index")) i = false.

(** The frames [evs] (each with the SSE event type current when it is
    read) hold, at index [i], exactly the deltas [ds], in this order, and
    no start. *)
Inductive deltas_at (i : value)
    : list (value * value) -> list jstring -> Prop :=
| deltas_nil : deltas_at i [] []
| deltas_delta cet parsed d evs ds :
    is_delta cet parsed i d -> deltas_at i evs ds ->
    deltas_at i ((cet, parsed) :: evs) (d :: ds)
| deltas_elsewhere cet parsed evs ds :
    elsewhere cet parsed i -> deltas_at i evs ds ->
    deltas_at i ((cet, parsed) :: evs) ds.

(** The accumulator after a sequence of frames. *)
Definition accumulate_all (calls : toolmap) (evs : list (value * value))
    : toolmap :=
  fold_left (fun m ev => accumulate (fst ev) m (snd ev)) evs calls.

(** The number of entries of the accumulator under a key. *)
Definition count_key (k : value) (m : toolmap) : nat :=
  length (List.filter (fun kv => strict_eqb k (fst kv)) m).

(** The keys of the accumulator are distinct: a key has an entry exactly
    when [get] finds it, and then only one. *)
Definition distinct_keys (m : toolmap) : Prop :=
  forall k, count_key k m =
            match map_get k m with Some _ => 1%nat | None => 0%nat end.

(** Neither an array nor an object. *)
Definition primitive (v : value) : bool :=
  match v with
  | VArr _ | VObj _ => false
  | _ => true
  end.

(** What a line of the stream is, before the dispatch. *)
Inductive frame :=
| FBlank                        (* empty after trim *)
| FEventType (t : jstring)      (* an SSE [event:] header *)
| FNotJson                      (* does not start with a brace *)
| FMalformed                    (* JSON.parse throws *)
| FParsed (parsed : value).

Definition frame_of_line (line : jstring) : frame :=
  let trimmed := trim line in
  if negb (truthy (VStr trimmed)) then FBlank
  else if startsWith trimmed (str "event:") then
    FEventType (trim (substring 6 trimmed))
  else
    let cleanLine :=
      if startsWith trimmed (str "data: ") then substring 6 trimmed
      else trimmed in
    if negb (startsWith cleanLine (str "{")) then FNotJson
    else match JSON_parse cleanLine with
         | Some parsed => FParsed parsed
         | None => FMalformed
         end.

(* ===================================================================== *)
(** * The service: state, effects and environment *)
(* ===================================================================== *)

(** An [Error] object: its [name] and [message]. *)
Record error := MkError { err_name : jstring; err_message : jstring }.

(** What a [throw] (or a rejected promise) carries. *)
Inductive thrown :=
| ThrownError (e : error)
| ThrownValue (v : value).

(** [String(err)]: Error.prototype.toString for an [Error]. *)
Definition String_thrown (t : thrown) : jstring :=
  match t with
  | ThrownError e =>
      match err_name e, err_message e with
      | [], m => m
      | n, [] => n
      | n, m => n ++ str ": " ++ m
      end
  | ThrownValue v => ToString v
  end.

(** How a tool handler (awaited) ends. *)
Inductive outcome :=
| Returned (v : value)
| Raised (t : thrown).

(** The body of a request: [{ model, messages, stream, tools, documents }];
    [documents = None] when the object has no such property. *)
Record request_body := Body {
  model : value;
  messages : list value;
  stream : bool;
  tools : value;
  documents : option value
}.

(** What the service does to the outside, in the order it does it.  An
    output channel (the [Subject] of one [generateResponse]) and an
    [AbortController] are named by a number. *)
Inductive effect :=
| Abort (controller : nat)
| Fetch (url : value) (authorization : jstring) (body : request_body)
        (signal : option nat)
| Invoke (call : fragment) (params : value) (result : outcome)
| Next (subject : nat) (text : value)
| Complete (subject : nat)
| Error (subject : nat) (e : error).

(** The service runs against an environment given beforehand: what the
    successive calls of [fetch] give ([response]), and the tool handlers,
    which act on a world of their own.  Writing to the console is not
    modelled. *)

(** How reading the body of a response ends once its chunks are read. *)
Inductive stream_end :=
| EndOfData
| ReadRejects (e : error).

(** What [fetch] gives: a rejection, or a response with its [ok],
    [status], [text()] and [body] (the text chunks of the stream, as the
    decoder yields them). *)
Inductive response :=
| FetchRejects (e : error)
| Response (ok : bool) (status : value) (text : jstring)
           (body : option (list jstring * stream_end)).

Section Service.

(** The state the tool handlers act on. *)
Context {W : Type}.

(** The message of the SyntaxError [JSON.parse] throws on a text, which
    the engine chooses. *)
Variable syntax_error_message : jstring -> jstring.

Definition handler := value -> W -> outcome * W.

(** A registered tool: [{ name, description, parameters, handler }]. *)
Record tool := Tool {
  tool_name : value;
  tool_description : value;
  tool_parameters : value;
  tool_handler : option handler
}.

(** [CohereConfig]; [cfg_tools = None] when [tools] is undefined. *)
Record config := Config {
  apiKey : value;
  modelName : value;
  apiUrl : value;
  cfg_tools : option (list tool);
  cfg_documents : value
}.

(** The fields of the service ([abortController], [toolCache]) and its
    environment: the handlers' world, the number of controllers and of
    subjects created so far, and the effects so far. *)
Record service := Service {
  abortController : option nat;
  toolCache : gmap (list N) value;
  world : W;
  controllers : nat;
  subjects : nat;
  effects : list effect
}.

(** [new CohereService()] *)
Definition new_service (w : W) : service :=
  {| abortController := None; toolCache := ∅; world := w;
     controllers := 0; subjects := 0; effects := [] |}.

Definition emit (e : effect) (s : service) : service :=
  {| abortController := abortController s; toolCache := toolCache s;
     world := world s; controllers := controllers s;
     subjects := subjects s; effects := effects s ++ [e] |}.

(** The effects of [s'] are those of [s] and then some. *)
Definition grows (s s' : service) : Prop :=
  exists new, effects s' = effects s ++ new.

(** [stopStream()] *)
Definition stopStream (s : service) : service :=
  let s1 := match abortController s with
            | Some c => emit (Abort c) s
            | None => s
            end in
  {| abortController := None; toolCache := toolCache s1;
     world := world s1; controllers := controllers s1;
     subjects := subjects s1; effects := effects s1 |}.

(** [this.stopStream(); this.abortController = new AbortController()] *)
Definition install_controller (s : service) : service :=
  let s1 := stopStream s in
  {| abortController := Some (controllers s1);
     toolCache := toolCache s1; world := world s1;
     controllers := S (controllers s1);
     subjects := subjects s1; effects := effects s1 |}.

(** [wrapToolResult(id, content)] *)
Definition wrapToolResult (id content : value) : value :=
  VObj [(str "role", VStr (str "tool"));
        (str "tool_call_id", id);
        (str "content", JSON_stringify content)].

(** [{ type: 'object', properties: {}, required: [] }] *)
Definition default_parameters : value :=
  VObj [(str "type", VStr (str "object"));
        (str "properties", VObj []);
        (str "required", VArr [])].

(** [transformTools(tools)] *)
Definition transformTools (ts : option (list tool)) : value :=
  match ts with
  | None | Some [] => VUndef
  | Some l =>
      VArr (List.map
              (fun t =>
                 VObj [(str "type", VStr (str "function"));
                       (str "function",
                        VObj [(str "name", tool_name t);
                              (str "description", tool_description t);
                              (str "parameters",
                               js_or (tool_parameters t) default_parameters)])])
              l)
  end.

(** [`${call.name}:${safeArgs}`] *)
Definition cacheKey (call : fragment) : jstring :=
  ToString (tc_name call) ++ str ":"
  ++ ToString (ensureJsonString (tc_arguments call)).

(** [config.tools?.find(t => t.name === call.name)] *)
Definition find_tool (cfg : config) (call : fragment) : option tool :=
  match cfg_tools cfg with
  | Some l => List.find (fun t => strict_eqb (tool_name t) (tc_name call)) l
  | None => None
  end.

(** [tool?.handler] for the tool found. *)
Definition find_handler (cfg : config) (call : fragment) : option handler :=
  match find_tool cfg call with
  | Some t => tool_handler t
  | None => None
  end.

(** [{ error: String(err) }] *)
Definition error_result (t : thrown) : value :=
  VObj [(str "error", VStr (String_thrown t))].

(** [new Error(`Tool handler for "${call.name}" not found`)] *)
Definition handler_not_found (call : fragment) : thrown :=
  ThrownError
    (MkError (str "Error")
       (str "Tool handler for " ++ [34] ++ ToString (tc_name call) ++ [34]
        ++ str " not found")).

(** One callback of [toolCalls.map(async (call) => ...)] up to its
    [await]: either it has its message already (a cache hit, or a throw
    before the handler is called), or the handler has been called and its
    result is awaited. *)
Inductive started :=
| Settled (message : value)
| Awaiting (key : jstring) (result : outcome).

Definition set_world (w : W) (s : service) : service :=
  {| abortController := abortController s; toolCache := toolCache s;
     world := w; controllers := controllers s;
     subjects := subjects s; effects := effects s |}.

Definition set_toolCache (c : gmap (list N) value) (s : service) : service :=
  {| abortController := abortController s; toolCache := c;
     world := world s; controllers := controllers s;
     subjects := subjects s; effects := effects s |}.

Definition start_call (cfg : config) (call : fragment) (s : service)
    : started * service :=
  let safeArgs := ensureJsonString (tc_arguments call) in
  let key := cacheKey call in
  match toolCache s !! key with
  | Some cached => (Settled (wrapToolResult (tc_id call) cached), s)
  | None =>
      match find_handler cfg call with
      | None =>
          (Settled (wrapToolResult (tc_id call)
                      (error_result (handler_not_found call))), s)
      | Some h =>
          match JSON_parse (ToString safeArgs) with
          | None =>
              (Settled
                 (wrapToolResult (tc_id call)
                    (error_result
                       (ThrownError
                          (MkError (str "SyntaxError")
                             (syntax_error_message (ToString safeArgs)))))),
               s)
          | Some params =>
              let '(r, w') := h params (world s) in
              (Awaiting key r,
               emit (Invoke call params r) (set_world w' s))
          end
      end
  end.

(** Executing the call in the state [s] ends in an error result: its tool
    is not registered or has no handler, or its arguments do not parse, or
    its handler throws. *)
Definition call_fails (cfg : config) (call : fragment) (s : service) : Prop :=
  find_handler cfg call = None
  \/ JSON_parse (ToString (ensureJsonString (tc_arguments call))) = None
  \/ exists h params t w',
       find_handler cfg call = Some h
       /\ JSON_parse (ToString (ensureJsonString (tc_arguments call)))
          = Some params
       /\ h params (world s) = (Raised t, w').

(** [Array.isArray(result) ? result : [result]] *)
Definition as_array (result : value) : value :=
  match result with
  | VArr _ => result
  | _ => VArr [result]
  end.

(** The rest of the callback, once the handler's result is there. *)
Definition finish_call (call : fragment) (st : started) (s : service)
    : value * service :=
  match st with
  | Settled message => (message, s)
  | Awaiting key (Returned v) =>
      (wrapToolResult (tc_id call) (as_array v),
       set_toolCache (<[key := as_array v]> (toolCache s)) s)
  | Awaiting key (Raised t) =>
      (wrapToolResult (tc_id call) (error_result t), s)
  end.

(** A started call has the message of its own call, when it has one. *)
Definition started_for (call : fragment) (st : started) : Prop :=
  match st with
  | Settled m => exists content, m = wrapToolResult (tc_id call) content
  | Awaiting _ _ => True
  end.

(** The callbacks run in order up to their [await] ... *)
Fixpoint start_calls (cfg : config) (calls : list fragment) (s : service)
    : list (fragment * started) * service :=
  match calls with
  | [] => ([], s)
  | call :: rest =>
      let '(st, s1) := start_call cfg call s in
      let '(sts, s2) := start_calls cfg rest s1 in
      ((call, st) :: sts, s2)
  end.

(** ... and resume in order; [Promise.all] keeps the order of the calls. *)
Fixpoint finish_calls (sts : list (fragment * started)) (s : service)
    : list value * service :=
  match sts with
  | [] => ([], s)
  | (call, st) :: rest =>
      let '(m, s1) := finish_call call st s in
      let '(ms, s2) := finish_calls rest s1 in
      (m :: ms, s2)
  end.

(** [await Promise.all(toolCalls.map(async (call) => ...))]: the tool
    executor.  A handler runs as one step on the world. *)
Definition executeToolCalls (cfg : config) (toolCalls : list fragment)
    (s : service) : list value * service :=
  let '(sts, s1) := start_calls cfg toolCalls s in
  finish_calls sts s1.

(** The accumulated call as the object [{ id, name, arguments }]. *)
Definition fragment_value (call : fragment) : value :=
  VObj [(str "id", tc_id call);
        (str "name", tc_name call);
        (str "arguments", tc_arguments call)].

(** The callback of [(assistantMessage?.tool_calls || toolCalls).map(...)];
    [tc.id] throws a TypeError ([None]) on [null]. *)
Definition tool_call_ref (tc : value) : option value :=
  if nullish tc then None
  else
    Some (VObj
      [(str "id", js_or (prop tc (str "id")) (prop tc (str "tool_call_id")));
       (str "type", VStr (str "function"));
       (str "function",
        VObj [(str "name",
               js_or (prop tc (str "name"))
                     (prop (prop tc (str "function")) (str "name")));
              (str "arguments",
               ensureJsonString
                 (js_or (prop tc (str "arguments"))
                        (prop (prop tc (str "function"))
                              (str "arguments"))))])]).

(** The [tool_calls] of the assistant message of the next request; what is
    not an array has no [map] (a TypeError: [None]). *)
Definition tool_call_refs (assistantMessage : value)
    (toolCalls : list fragment) : option (list value) :=
  let declared := prop assistantMessage (str "tool_calls") in
  if truthy declared then
    match declared with
    | VArr items => mapM tool_call_ref items
    | _ => None
    end
  else mapM tool_call_ref (List.map fragment_value toolCalls).

Definition assistant_message (refs : list value) : value :=
  VObj [(str "role", VStr (str "assistant"));
        (str "tool_calls", VArr refs)].

(** [nextBody] *)
Definition nextBody (cfg : config) (previousMessages : list value)
    (refs toolResults : list value) : request_body :=
  {| model := modelName cfg;
     messages := previousMessages ++ [assistant_message refs] ++ toolResults;
     stream := true;
     tools := transformTools (cfg_tools cfg);
     documents := None |}.

(** [handleToolCalls(toolCalls, assistantMessage, config, previousMessages,
    subject)], with [request] for [this.processRequest(config, _, subject)].
    The boolean tells that it threw (building [nextBody]). *)
Definition handleToolCalls (request : request_body -> service -> service)
    (toolCalls : list fragment) (assistantMessage : value) (cfg : config)
    (previousMessages : list value) (s : service) : service * bool :=
  let '(toolResults, s1) := executeToolCalls cfg toolCalls s in
  match tool_call_refs assistantMessage toolCalls with
  | Some refs =>
      (request (nextBody cfg previousMessages refs toolResults) s1, false)
  | None => (s1, true)
  end.

(** The local variables of [readStream] the lines act on; its [buffer] is
    an argument of [read_loop]. *)
Record decoder := Decoder {
  currentEventType : value;
  toolCallsMap : toolmap
}.

(** How the body of [for (const line of lines)] ends: it goes on to the
    next line, or [readStream] returns. *)
Inductive line_result :=
| Continue (d : decoder) (s : service)
| Return (s : service).

Definition result_grows (s : service) (r : line_result) : Prop :=
  match r with
  | Continue _ s' => grows s s'
  | Return s' => grows s s'
  end.

(** One line of the stream.  [handle] is [this.handleToolCalls] with the
    configuration, the previous messages and the subject of this
    [readStream].  A throw inside the [try] is caught (and logged) and the
    loop goes on. *)
Definition process_line
    (handle : list fragment -> value -> service -> service * bool)
    (subject : nat) (line : jstring) (d : decoder) (s : service)
    : line_result :=
  match frame_of_line line with
  | FBlank | FNotJson | FMalformed => Continue d s
  | FEventType t =>
      Continue {| currentEventType := VStr t;
                  toolCallsMap := toolCallsMap d |} s
  | FParsed parsed =>
      match dispatch parsed (currentEventType d) (toolCallsMap d) with
      | ANothing => Continue d s
      | ANext text => Continue d (emit (Next subject text) s)
      | ASet calls =>
          Continue {| currentEventType := currentEventType d;
                      toolCallsMap := calls |} s
      | AMessageEnd toolCalls message =>
          match toolCalls with
          | _ :: _ =>
              let '(s1, threw) := handle toolCalls message s in
              if threw then Continue d s1 else Return s1
          | [] => Return (emit (Complete subject) s)
          end
      | AStreamEnd => Return (emit (Complete subject) s)
      end
  end.

Fixpoint process_lines
    (handle : list fragment -> value -> service -> service * bool)
    (subject : nat) (lines : list jstring) (d : decoder) (s : service)
    : line_result :=
  match lines with
  | [] => Continue d s
  | line :: rest =>
      match process_line handle subject line d s with
      | Continue d1 s1 => process_lines handle subject rest d1 s1
      | Return s1 => Return s1
      end
  end.

(** The [while (true)] of [readStream] over the chunks still to be read:
    the final state, and the error when a read rejects. *)
Fixpoint read_loop
    (handle : list fragment -> value -> service -> service * bool)
    (subject : nat) (chunks : list jstring) (ending : stream_end)
    (buffer : jstring) (d : decoder) (s : service)
    : service * option error :=
  match chunks with
  | [] =>
      match ending with
      | EndOfData => (emit (Complete subject) s, None)
      | ReadRejects e => (s, Some e)
      end
  | chunk :: rest =>
      let lines := split_nl (buffer ++ chunk) in
      (* buffer = lines.pop() || '' *)
      match process_lines handle subject (removelast lines) d s with
      | Continue d1 s1 =>
          read_loop handle subject rest ending (List.last lines []) d1 s1
      | Return s1 => (s1, None)
      end
  end.

(** [readStream(stream, config, previousMessages, subject)] *)
Definition readStream
    (handle : list fragment -> value -> service -> service * bool)
    (subject : nat) (chunks : list jstring) (ending : stream_end)
    (s : service) : service * option error :=
  read_loop handle subject chunks ending []
    {| currentEventType := VNull; toolCallsMap := [] |} s.

(** The [catch] of [processRequest]. *)
Definition request_failed (subject : nat) (e : error) (s : service)
    : service :=
  if jstring_eqb (err_name e) (str "AbortError")
  then emit (Complete subject) s
  else emit (Error subject e) s.

(** [processRequest(config, body, subject)].  [net] holds what the
    successive calls of [fetch] give, one response per request; with none
    left the request stays pending. *)
Fixpoint processRequest (net : list response) (cfg : config)
    (subject : nat) (body : request_body) (s : service) : service :=
  let s0 :=
    emit (Fetch (apiUrl cfg) (str "Bearer " ++ ToString (apiKey cfg)) body
                (abortController s)) s in
  match net with
  | [] => s0
  | FetchRejects e :: _ => request_failed subject e s0
  | Response ok status text stream_body :: net' =>
      if negb ok then
        request_failed subject
          (MkError (str "Error")
             (str "Cohere API Error " ++ ToString status ++ str ": " ++ text))
          s0
      else
        match stream_body with
        | None =>
            request_failed subject
              (MkError (str "Error") (str "Response body is unavailable")) s0
        | Some (chunks, ending) =>
            match readStream
                    (fun toolCalls message =>
                       handleToolCalls (processRequest net' cfg subject)
                         toolCalls message cfg (messages body))
                    subject chunks ending s0 with
            | (s1, None) => s1
            | (s1, Some e) => request_failed subject e s1
            end
        end
  end.

(** The [body] of [generateResponse]. *)
Definition first_body (cfg : config) (msgs : list value) : request_body :=
  {| model := modelName cfg; messages := msgs; stream := true;
     tools := transformTools (cfg_tools cfg);
     documents := Some (cfg_documents cfg) |}.

(** [generateResponse(config, messages)]: the subject it returns and the
    state once the request has run. *)
Definition generateResponse (net : list response) (cfg : config)
    (msgs : list value) (s : service) : nat * service :=
  let s1 := install_controller s in
  let subject := subjects s1 in
  let s2 := {| abortController := abortController s1;
               toolCache := toolCache s1; world := world s1;
               controllers := controllers s1;
               subjects := S subject; effects := effects s1 |} in
  (subject, processRequest net cfg subject (first_body cfg msgs) s2).

(** ** The request chains of a service

    A call of [generateResponse] starts a chain of requests
    ([processRequest], [readStream], [handleToolCalls], [processRequest],
    ...), which runs in steps, from one [await] to the next.  Between two
    steps of a chain the application may call [stopStream] or
    [generateResponse], and the other chains may take steps. *)

(** Where a chain is. *)
Inductive chain :=
| InFlight (signal : option nat)  (* awaits fetch or a read, under signal *)
| InTools (signal : option nat)   (* awaits the handlers in handleToolCalls *)
| Closed (completed : bool).      (* subject.complete() or subject.error() *)

Record gate := Gate {
  svc : service;
  chains : list chain
}.

(** One step: a call of the application, or a chain resuming. *)
Inductive move :=
| CallStopStream
| CallGenerateResponse
| AbortSurfaces (i : nat)    (* the fetch or read rejects with AbortError *)
| StreamEnds (i : nat)       (* message-end without calls, stream-end, done *)
| TransportFails (i : nat)   (* another rejection, or a response not ok *)
| ToolsRequested (i : nat)   (* message-end with accumulated calls *)
| ToolsSettled (i : nat)     (* the handlers are done: the next request *)
| ToolsThrew (i : nat).      (* handleToolCalls threw: the loop goes on *)

(** [abort()] was called on the controller. *)
Definition aborted (s : service) (c : nat) : bool :=
  existsb (fun e => match e with
                    | Abort c' => Nat.eqb c' c
                    | _ => false
                    end) (effects s).

(** A chain with a request or a stream that no abort has reached. *)
Definition live (s : service) (ch : chain) : bool :=
  match ch with
  | InFlight None => true
  | InFlight (Some c) => negb (aborted s c)
  | _ => false
  end.

Definition live_streams (g : gate) : nat :=
  length (List.filter (live (svc g)) (chains g)).

Definition set_chain (i : nat) (ch : chain) (g : gate) : gate :=
  {| svc := svc g; chains := <[i := ch]> (chains g) |}.

(** [None] when the move is not possible in the state. *)
Definition step (g : gate) (m : move) : option gate :=
  match m with
  | CallStopStream => Some {| svc := stopStream (svc g); chains := chains g |}
  | CallGenerateResponse =>
      (* processRequest runs up to [await fetch(...)], whose signal is
         [this.abortController?.signal] *)
      let s1 := install_controller (svc g) in
      Some {| svc := s1;
              chains := chains g ++ [InFlight (abortController s1)] |}
  | AbortSurfaces i =>
      match chains g !! i with
      | Some (InFlight (Some c)) =>
          if aborted (svc g) c then Some (set_chain i (Closed true) g)
          else None
      | _ => None
      end
  | StreamEnds i =>
      match chains g !! i with
      | Some (InFlight _) => Some (set_chain i (Closed true) g)
      | _ => None
      end
  | TransportFails i =>
      match chains g !! i with
      | Some (InFlight _) => Some (set_chain i (Closed false) g)
      | _ => None
      end
  | ToolsRequested i =>
      match chains g !! i with
      | Some (InFlight signal) => Some (set_chain i (InTools signal) g)
      | _ => None
      end
  | ToolsSettled i =>
      (* handleToolCalls calls processRequest, whose fetch takes
         [this.abortController?.signal] as it is now *)
      match chains g !! i with
      | Some (InTools _) =>
          Some (set_chain i (InFlight (abortController (svc g))) g)
      | _ => None
      end
  | ToolsThrew i =>
      match chains g !! i with
      | Some (InTools signal) => Some (set_chain i (InFlight signal) g)
      | _ => None
      end
  end.

Fixpoint run (g : gate) (moves : list move) : option gate :=
  match moves with
  | [] => Some g
  | m :: rest =>
      match step g m with
      | Some g1 => run g1 rest
      | None => None
      end
  end.

Definition is_continuation (m : move) : bool :=
  match m with
  | ToolsSettled _ => true
  | _ => false
  end.

(** The signal a chain holds. *)
Definition signal_of (ch : chain) : option (option nat) :=
  match ch with
  | InFlight signal | InTools signal => Some signal
  | Closed _ => None
  end.

Definition signal_at (l : list chain) (i : nat) : option (option nat) :=
  match l !! i with
  | Some ch => signal_of ch
  | None => None
  end.

(** Every chain holds the signal of a controller of its own, and every
    controller but the current one is aborted. *)
Definition gate_inv (g : gate) : Prop :=
  (forall i sig, signal_at (chains g) i = Some sig ->
                 exists c, sig = Some c /\ (c < controllers (svc g))%nat)
  /\ (forall i j c, signal_at (chains g) i = Some (Some c) ->
                    signal_at (chains g) j = Some (Some c) -> i = j)
  /\ (forall c, (c < controllers (svc g))%nat ->
                aborted (svc g) c = true \/ abortController (svc g) = Some c)
  /\ (forall c, abortController (svc g) = Some c ->
                (c < controllers (svc g))%nat).

End Service.

(* ===================================================================== *)
(** * What a run leaves behind *)
(* ===================================================================== *)

(** The events of an output channel: what its subscriber is given. *)
Definition on_subject (subject : nat) (e : effect) : bool :=
  match e with
  | Next s _ | Complete s | Error s _ => Nat.eqb s subject
  | _ => false
  end.

Definition channel (subject : nat) (l : list effect) : list effect :=
  List.filter (on_subject subject) l.

(** [subject.complete()] or [subject.error(e)]. *)
Definition terminal (e : effect) : bool :=
  match e with
  | Complete _ | Error _ _ => true
  | _ => false
  end.

(** The channel has been given values only. *)
Definition channel_open (subject : nat) (l : list effect) : Prop :=
  exists texts, channel subject l = List.map (Next subject) texts.

(** The channel has been given values, then one [complete] or [error],
    and nothing since. *)
Definition channel_closed (subject : nat) (l : list effect) : Prop :=
  exists texts t,
    channel subject l = List.map (Next subject) texts ++ [t]
    /\ terminal t = true.

Definition is_fetch (e : effect) : bool :=
  match e with
  | Fetch _ _ _ _ => true
  | _ => false
  end.

(** The number of requests sent. *)
Definition fetches (l : list effect) : nat :=
  length (List.filter is_fetch l).

(** The effects of [s'] are those of [s] and then effects that all
    satisfy [P]. *)
Definition grows_by {W : Type} (P : effect -> Prop) (s s' : @service W)
    : Prop :=
  exists new, effects s' = effects s ++ new /\ Forall P new.

(** What a chain of requests for [subject] under the configuration [cfg]
    may do: send a request built from the configuration (the follow-up
    requests have no [documents]), call a tool handler, or write to its own
    channel. *)
Definition chain_effect {W : Type} (cfg : @config W) (subject : nat)
    (e : effect) : Prop :=
  match e with
  | Abort _ => False
  | Fetch url authorization body _ =>
      url = apiUrl cfg
      /\ authorization = str "Bearer " ++ ToString (apiKey cfg)
      /\ model body = modelName cfg
      /\ stream body = true
      /\ tools body = transformTools (cfg_tools cfg)
      /\ documents body = None
  | Invoke _ _ _ => True
  | Next s _ | Complete s | Error s _ => s = subject
  end.

(** No [error] with an [AbortError]. *)
Definition not_an_abort (e : effect) : Prop :=
  match e with
  | Error _ err => err_name err <> str "AbortError"
  | _ => True
  end.

(** The states of a service whose calls of [generateResponse] run one
    after the other, each to its end. *)
Inductive reachable {W : Type} (syntax_error_message : jstring -> jstring)
    : @service W -> Prop :=
| reach_new (w : W) : reachable syntax_error_message (new_service w)
| reach_stopStream (s : service) :
    reachable syntax_error_message s ->
    reachable syntax_error_message (stopStream s)
| reach_generateResponse (net : list response) (cfg : config)
    (msgs : list value) (s : service) :
    reachable syntax_error_message s ->
    reachable syntax_error_message
      (snd (generateResponse syntax_error_message net cfg msgs s)).

(** Every entry of the cache is the result list of a handler invocation
    that returned, under the key of its call. *)
Definition cache_sound {W : Type} (s : @service W) : Prop :=
  forall k v,
    toolCache s !! k = Some v ->
    exists call params r,
      cacheKey call = k
      /\ In (Invoke call params (Returned r)) (effects s)
      /\ v = as_array r.

(** The channels written so far are those handed out. *)
Definition channels_known {W : Type} (s : @service W) : Prop :=
  forall e subject,
    In e (effects s) -> on_subject subject e = true ->
    (subject < subjects s)%nat.

(** A step of a chain that goes on: the channel is still open and no
    request was sent. *)
Definition chain_goes_on {W : Type} (subject : nat) (s s' : @service W)
    : Prop :=
  channel_open subject (effects s')
  /\ fetches (effects s') = fetches (effects s).

(** How a chain of requests ends when [n] responses are left for it: its
    channel is closed; or the channel is open, the chain has used the [n]
    responses and waits for the response to one more request. *)
Definition chain_result {W : Type} (subject n : nat) (s s' : @service W)
    : Prop :=
  channel_closed subject (effects s')
  \/ (channel_open subject (effects s')
      /\ fetches (effects s') = (fetches (effects s) + n + 1)%nat).

(** What [handleToolCalls] is to the loop of [readStream]: when it throws
    the chain goes on, otherwise the chain has ended. *)
Definition handles {W : Type} (subject n : nat)
    (handle : list fragment -> value -> @service W -> @service W * bool)
    : Prop :=
  forall tcs m s,
    channel_open subject (effects s) ->
    if snd (handle tcs m s)
    then chain_goes_on subject s (fst (handle tcs m s))
    else chain_result subject n s (fst (handle tcs m s)).

(** ** Lines *)

(** An SSE [event:] header. *)
Definition is_header (line : jstring) : bool :=
  match frame_of_line line with
  | FEventType _ => true
  | _ => false
  end.

(** A line the loop of [readStream] passes over: blank, not starting with
    a brace, or JSON that does not parse. *)
Definition is_noise (line : jstring) : bool :=
  match frame_of_line line with
  | FBlank | FNotJson | FMalformed => true
  | _ => false
  end.

(** The complete lines of a stream. *)
Definition stream_lines (chunks : list jstring) : list jstring :=
  fst (split_at_nl (concat chunks)).

(** ** The order of the accumulated calls *)

(** The frame opens a call: a tool-call-start event that has the call and
    its function. *)
Definition opens_call (currentEventType parsed : value) : bool :=
  strict_eqb (event_type currentEventType parsed)
             (VStr (str "tool-call-start"))
  && truthy (delta_tool_calls parsed)
  && negb (nullish (prop (delta_tool_calls parsed) (str "function"))).

Definition has_index (k : value) (keys : list value) : bool :=
  existsb (strict_eqb k) keys.

(** The indexes in the order in which the frames first open them. *)
Definition call_order (keys : list value) (evs : list (value * value))
    : list value :=
  fold_left
    (fun ks ev =>
       if opens_call (fst ev) (snd ev)
          && negb (has_index (prop (snd ev) (str "index")) ks)
       then ks ++ [prop (snd ev) (str "index")]
       else ks)
    evs keys.

(** ** The arguments of a handler *)

(** What [JSON.parse(safeArgs)] gives for the argument text [s]. *)
Definition handler_params (s : jstring) : value :=
  match trim s with
  | [] => VObj []
  | t => match JSON_parse t with
         | Some v => v
         | None => VStr t
         end
  end.

(* ===================================================================== *)
(** * The chat store (AiChatStore) *)
(* ===================================================================== *)

(** A [ChatMessage]: [{ type, content, id, timestamp, isTyping? }].  The
    identifiers ([crypto.randomUUID()]) are drawn from a supply that never
    gives one twice, and the time stamps ([new Date()]) come from the
    caller. *)
Record message := Message {
  msg_type : jstring;
  msg_content : jstring;
  msg_id : nat;
  msg_timestamp : Z;
  msg_isTyping : option bool
}.

(** [s.includes(sub)] *)
Fixpoint includes (s sub : jstring) : bool :=
  startsWith s sub
  || match s with
     | [] => false
     | _ :: r => includes r sub
     end.

(** The line the store appends to the answer when the user stops it: a
    line feed and a note in Hebrew between [*(] and [)*]. *)
Definition stopped_marker : jstring :=
  [10; 42; 40; 1492; 1493; 1508; 1505; 1511; 32; 1506; 1500; 32; 1497; 1491;
   1497; 32; 1492; 1502; 1513; 1514; 1502; 1513; 41; 42].

(** The line the store appends to the answer when the request fails: a
    line feed, a cross mark and a note in Hebrew. *)
Definition failed_marker : jstring :=
  [10; 10060; 32; 1488; 1497; 1512; 1506; 1492; 32; 1513; 1490; 1497; 1488;
   1492; 32; 1489; 1506; 1497; 1489; 1493; 1491; 32; 1492; 1489; 1511; 1513;
   1492; 46; 32; 1504; 1505; 1492; 32; 1513; 1493; 1489; 46].

(** The [startMessage] of [initialState]. *)
Definition default_startMessage : jstring :=
  [1492; 1497; 1497; 33; 32; 1488; 1497; 1498; 32; 1488; 1508; 1513; 1512;
   32; 1500; 1506; 1494; 1493; 1512; 32; 1500; 1498; 32; 1492; 1497; 1493;
   1501; 63].

(** [{ role: m.type, content: m.content }] *)
Definition to_history (m : message) : value :=
  VObj [(str "role", VStr (msg_type m));
        (str "content", VStr (msg_content m))].

(** The [history] of [processMessage], from the messages of the store once
    the two new messages are in. *)
Definition history (systemPrompt : value) (ms : list message)
    (content : jstring) : list value :=
  VObj [(str "role", VStr (str "system")); (str "content", systemPrompt)]
  :: List.map to_history (firstn (length ms - 2) ms)
  ++ [VObj [(str "role", VStr (str "user"));
            (str "content", VStr content)]].

(** The values a channel was given. *)
Definition channel_texts (events : list effect) : list value :=
  flat_map (fun e => match e with
                     | Next _ text => [text]
                     | _ => []
                     end) events.

Section Store.

Context {W : Type}.
Variable syntax_error_message : jstring -> jstring.

(** [String.prototype.toLowerCase], which the platform gives. *)
Variable toLowerCase : jstring -> jstring.

(** The fields of the state that the methods below read or write, the
    subscription [msgSubscription] (the channel subscribed to), the
    injected service and the supply of identifiers. *)
Record store := Store {
  st_apiKey : value;
  st_modelName : value;
  st_systemPrompt : value;
  st_apiUrl : value;
  st_tools : option (list (@tool W));
  st_documents : value;
  st_startMessage : jstring;
  st_messages : list message;
  st_isProcessing : bool;
  msgSubscription : option nat;
  cohereService : @service W;
  uuids : nat
}.

(** [initialState], around a new service. *)
Definition initialState (w : W) : store :=
  {| st_apiKey := VStr [];
     st_modelName := VStr (str "command-r-08-2024");
     st_systemPrompt := VStr [];
     st_apiUrl := VStr (str "https://api.cohere.com/v2/chat");
     st_tools := Some [];
     st_documents := VArr [];
     st_startMessage := default_startMessage;
     st_messages := [];
     st_isProcessing := false;
     msgSubscription := None;
     cohereService := new_service w;
     uuids := 0 |}.

(** [patchState(store, { messages })] *)
Definition set_messages (ms : list message) (st : store) : store :=
  {| st_apiKey := st_apiKey st; st_modelName := st_modelName st;
     st_systemPrompt := st_systemPrompt st; st_apiUrl := st_apiUrl st;
     st_tools := st_tools st; st_documents := st_documents st;
     st_startMessage := st_startMessage st;
     st_messages := ms;
     st_isProcessing := st_isProcessing st;
     msgSubscription := msgSubscription st;
     cohereService := cohereService st; uuids := uuids st |}.

(** [patchState(store, { isProcessing })] *)
Definition set_isProcessing (b : bool) (st : store) : store :=
  {| st_apiKey := st_apiKey st; st_modelName := st_modelName st;
     st_systemPrompt := st_systemPrompt st; st_apiUrl := st_apiUrl st;
     st_tools := st_tools st; st_documents := st_documents st;
     st_startMessage := st_startMessage st;
     st_messages := st_messages st;
     st_isProcessing := b;
     msgSubscription := msgSubscription st;
     cohereService := cohereService st; uuids := uuids st |}.

Definition set_subscription (sub : option nat) (st : store) : store :=
  {| st_apiKey := st_apiKey st; st_modelName := st_modelName st;
     st_systemPrompt := st_systemPrompt st; st_apiUrl := st_apiUrl st;
     st_tools := st_tools st; st_documents := st_documents st;
     st_startMessage := st_startMessage st;
     st_messages := st_messages st;
     st_isProcessing := st_isProcessing st;
     msgSubscription := sub;
     cohereService := cohereService st; uuids := uuids st |}.

Definition set_service (s : @service W) (st : store) : store :=
  {| st_apiKey := st_apiKey st; st_modelName := st_modelName st;
     st_systemPrompt := st_systemPrompt st; st_apiUrl := st_apiUrl st;
     st_tools := st_tools st; st_documents := st_documents st;
     st_startMessage := st_startMessage st;
     st_messages := st_messages st;
     st_isProcessing := st_isProcessing st;
     msgSubscription := msgSubscription st;
     cohereService := s; uuids := uuids st |}.

Definition set_uuids (n : nat) (st : store) : store :=
  {| st_apiKey := st_apiKey st; st_modelName := st_modelName st;
     st_systemPrompt := st_systemPrompt st; st_apiUrl := st_apiUrl st;
     st_tools := st_tools st; st_documents := st_documents st;
     st_startMessage := st_startMessage st;
     st_messages := st_messages st;
     st_isProcessing := st_isProcessing st;
     msgSubscription := msgSubscription st;
     cohereService := cohereService st; uuids := n |}.

(** [isConfigured]: [!!store.apiKey()] *)
Definition isConfigured (st : store) : bool := truthy (st_apiKey st).

(** [m.id === id ? { ...m, isTyping } : m]; every call of
    [updateAssistantMsg] passes [{ isTyping: false }]. *)
Definition with_isTyping (id : nat) (isTyping : bool) (m : message)
    : message :=
  if Nat.eqb (msg_id m) id then
    {| msg_type := msg_type m; msg_content := msg_content m;
       msg_id := msg_id m; msg_timestamp := msg_timestamp m;
       msg_isTyping := Some isTyping |}
  else m.

(** [m.id === id ? { ...m, content: m.content + chunk } : m]; with a
    string to its left, [+] appends the chunk converted to a string. *)
Definition with_chunk (id : nat) (chunk : value) (m : message) : message :=
  if Nat.eqb (msg_id m) id then
    {| msg_type := msg_type m;
       msg_content := msg_content m ++ ToString chunk;
       msg_id := msg_id m; msg_timestamp := msg_timestamp m;
       msg_isTyping := msg_isTyping m |}
  else m.

(** [updateAssistantMsg(id, { isTyping })] *)
Definition updateAssistantMsg (id : nat) (isTyping : bool) (st : store)
    : store :=
  set_messages (List.map (with_isTyping id isTyping) (st_messages st)) st.

(** [appendToAssistantMsg(id, chunk)] *)
Definition appendToAssistantMsg (id : nat) (chunk : value) (st : store)
    : store :=
  set_messages (List.map (with_chunk id chunk) (st_messages st)) st.

(** [stopRequest()] *)
Definition stopRequest (st : store) : store :=
  let st1 := set_subscription None st in
  let st2 := set_service (stopStream (cohereService st1)) st1 in
  let st3 :=
    match last (st_messages st2) with
    | Some m =>
        if jstring_eqb (msg_type m) (str "assistant") then
          updateAssistantMsg (msg_id m) false
            (appendToAssistantMsg (msg_id m) (VStr stopped_marker) st2)
        else st2
    | None => st2
    end in
  set_isProcessing false st3.

(** [clearChat(initialMessage)]; [None] is no argument. *)
Definition clearChat (initialMessage : option jstring) (now : Z)
    (st : store) : store :=
  let st1 := stopRequest st in
  let finalInitialMessage :=
    match initialMessage with
    | Some (c :: r) => c :: r
    | _ => st_startMessage st1
    end in
  match finalInitialMessage with
  | [] => set_messages [] st1
  | _ =>
      set_uuids (S (uuids st1))
        (set_messages
           [ {| msg_type := str "assistant";
                msg_content := finalInitialMessage;
                msg_id := uuids st1; msg_timestamp := now;
                msg_isTyping := None |} ] st1)
  end.

(** [initialize()] *)
Definition initialize (now : Z) (st : store) : store :=
  match st_startMessage st, st_messages st with
  | _ :: _, [] =>
      set_uuids (S (uuids st))
        (set_messages
           [ {| msg_type := str "assistant";
                msg_content := st_startMessage st;
                msg_id := uuids st; msg_timestamp := now;
                msg_isTyping := None |} ] st)
  | _, _ => st
  end.

(** [err.name === 'AbortError' ||
     err.message?.toLowerCase().includes('abort')] *)
Definition abort_like (e : error) : bool :=
  jstring_eqb (err_name e) (str "AbortError")
  || includes (toLowerCase (err_message e)) (str "abort").

(** The [error] callback of the subscription. *)
Definition on_error (id : nat) (e : error) (st : store) : store :=
  if abort_like e then st
  else
    set_isProcessing false
      (updateAssistantMsg id false
         (appendToAssistantMsg id (VStr failed_marker) st)).

(** The [complete] callback of the subscription. *)
Definition on_complete (id : nat) (st : store) : store :=
  set_isProcessing false (updateAssistantMsg id false st).

(** The subscriber is given the events of its channel, up to the first
    [complete] or [error]. *)
Fixpoint deliver (id : nat) (events : list effect) (st : store) : store :=
  match events with
  | [] => st
  | Next _ chunk :: rest => deliver id rest (appendToAssistantMsg id chunk st)
  | Complete _ :: _ => on_complete id st
  | Error _ e :: _ => on_error id e st
  | _ :: rest => deliver id rest st
  end.

(** The [config] of [processMessage]. *)
Definition store_config (st : store) : @config W :=
  {| apiKey := st_apiKey st; modelName := st_modelName st;
     apiUrl := st_apiUrl st; cfg_tools := st_tools st;
     cfg_documents := st_documents st |}.

(** [processMessage(content)], with what its subscription is given once
    the request has run. *)
Definition processMessage (net : list response) (content : jstring)
    (now : Z) (st : store) : store :=
  if negb (truthy (VStr (trim content))) || st_isProcessing st then st
  else
    let st1 := set_isProcessing true st in
    let userMsg :=
      {| msg_type := str "user"; msg_content := content;
         msg_id := uuids st1; msg_timestamp := now;
         msg_isTyping := None |} in
    let assistantMsgId := S (uuids st1) in
    let assistantMsg :=
      {| msg_type := str "assistant"; msg_content := [];
         msg_id := assistantMsgId; msg_timestamp := now;
         msg_isTyping := Some true |} in
    let st2 :=
      set_uuids (S (S (uuids st1)))
        (set_messages (st_messages st1 ++ [userMsg; assistantMsg]) st1) in
    let '(subject, s') :=
      generateResponse syntax_error_message net (store_config st2)
        (history (st_systemPrompt st2) (st_messages st2) content)
        (cohereService st2) in
    let st3 := set_subscription (Some subject) (set_service s' st2) in
    deliver assistantMsgId
      (channel subject
         (skipn (length (effects (cohereService st2))) (effects s')))
      st3.

(** The subscription has ended and the store has taken note: the channel
    was given [complete], or an error that the [error] callback does not
    pass over. *)
Definition settled (events : list effect) : bool :=
  existsb (fun e => match e with
                    | Complete _ => true
                    | Error _ err => negb (abort_like err)
                    | _ => false
                    end) events.

(** The channel was given an error that the [error] callback does not
    pass over. *)
Definition failed (events : list effect) : bool :=
  existsb (fun e => match e with
                    | Error _ err => negb (abort_like err)
                    | _ => false
                    end) events.

(** The state of a store in use: its service has run its requests one
    after the other, and the identifiers of its messages have been drawn
    from the supply, each once. *)
Definition store_ok (st : store) : Prop :=
  reachable syntax_error_message (cohereService st)
  /\ Forall (fun m => (msg_id m < uuids st)%nat) (st_messages st)
  /\ NoDup (List.map msg_id (st_messages st)).

(** [sendMessage()] of the input component, on the text of the input
    field: the store and the text left in the field. *)
Definition sendMessage (net : list response) (inputValue : jstring)
    (now : Z) (st : store) : store * jstring :=
  let value := trim inputValue in
  if negb (truthy (VStr value)) || st_isProcessing st then (st, inputValue)
  else (processMessage net value now st, []).

End Store.

(* ===================================================================== *)
(** * The formatting of a message (MessageListComponent.formatMessage) *)
(* ===================================================================== *)

(** A LineTerminator: line feed, carriage return, line separator and
    paragraph separator; [.] matches every other code unit. *)
Definition is_line_terminator (c : N) : bool :=
  (c =? 10) || (c =? 13) || (c =? 8232) || (c =? 8233).

(** [(.*?)\*\*] at the start of [s]: the shortest text without line
    terminator that two stars follow, and what comes after the stars. *)
Fixpoint close_bold (s : jstring) : option (jstring * jstring) :=
  match s with
  | [] => None
  | c :: r =>
      if startsWith s (str "**") then Some ([], skipn 2 s)
      else if is_line_terminator c then None
      else match close_bold r with
           | Some (inner, rest) => Some (c :: inner, rest)
           | None => None
           end
  end.

(** [.replace(/\*\*(.*?)\*\*/g, '<strong>$1</strong>')], from left to
    right; [skip] counts the code units of [s] that belong to the match
    just replaced. *)
Fixpoint bold_from (skip : nat) (s : jstring) : jstring :=
  match s with
  | [] => []
  | c :: r =>
      match skip with
      | S k => bold_from k r
      | O =>
          if startsWith s (str "**") then
            match close_bold (skipn 2 s) with
            | Some (inner, _) =>
                str "<strong>" ++ inner ++ str "</strong>"
                ++ bold_from (length inner + 3) r
            | None => c :: bold_from 0 r
            end
          else c :: bold_from 0 r
      end
  end.

Definition bold (s : jstring) : jstring := bold_from 0 s.

(** [.replace(/\n/g, '<br>')] *)
Definition line_breaks (s : jstring) : jstring :=
  flat_map (fun c => if c =? 10 then str "<br>" else [c]) s.

Definition bullet_span : jstring :=
  str_q "<span class='text-neural-400'>" ++ [8226] ++ str "</span> ".

(** [.replace(/^• /gm, '<span class="text-neural-400">•</span> ')]: a
    bullet (U+2022) and a space at the start of the text or after a line
    terminator; [line_start] tells that [s] starts a line. *)
Fixpoint bullets (line_start : bool) (s : jstring) : jstring :=
  match s with
  | [] => []
  | c :: r =>
      match r with
      | d :: r' =>
          if line_start && (c =? 8226) && (d =? 32)
          then bullet_span ++ bullets false r'
          else c :: bullets (is_line_terminator c) r
      | [] => [c]
      end
  end.

(** The code point of a surrogate pair. *)
Definition code_point (high low : N) : N :=
  65536 + (high - 55296) * 1024 + (low - 56320).

(** [[\u{1F300}-\u{1F9FF}]] *)
Definition is_pictograph (cp : N) : bool :=
  (127744 <=? cp) && (cp <=? 129535).

(** [.replace(/([\u{1F300}-\u{1F9FF}])/gu,
              '<span class="text-2xl align-middle">$1</span>')]: with the
    flag [u] the text is read by code points. *)
Fixpoint pictographs (s : jstring) : jstring :=
  match s with
  | [] => []
  | c :: r =>
      match r with
      | d :: r' =>
          if is_high_surrogate c && is_low_surrogate d then
            if is_pictograph (code_point c d) then
              str_q "<span class='text-2xl align-middle'>" ++ [c; d]
              ++ str "</span>" ++ pictographs r'
            else c :: d :: pictographs r'
          else c :: pictographs r
      | [] => [c]
      end
  end.

(** [formatMessage(content)] *)
Definition formatMessage (content : jstring) : jstring :=
  pictographs (bullets true (line_breaks (bold content))).

(** A code unit that none of the four replacements looks at. *)
Definition plain_unit (c : N) : bool :=
  negb (c =? 42) && negb (c =? 10) && negb (c =? 8226)
  && negb (is_high_surrogate c).

(* ===================================================================== *)
(** * A sample session *)
(* ===================================================================== *)

(** A tool whose handler counts its invocations in the world. *)
Definition demo_handler : @handler nat :=
  fun params n =>
    (Returned (VObj [(str "q", prop params (str "q"));
                     (str "calls", VNum (normalize (Z.of_nat (S n)) 0))]),
     S n).

Definition demo_config : @config nat :=
  {| apiKey := VStr (str "key");
     modelName := VStr (str "command-r-08-2024");
     apiUrl := VStr (str "https://api.cohere.com/v2/chat");
     cfg_tools := Some [ {| tool_name := VStr (str "lookup");
                            tool_description := VStr (str "Looks a word up");
                            tool_parameters := VUndef;
                            tool_handler := Some demo_handler |} ];
     cfg_documents := VArr [] |}.

(** The same configuration with no tool registered. *)
Definition bare_config : @config nat :=
  {| apiKey := apiKey demo_config; modelName := modelName demo_config;
     apiUrl := apiUrl demo_config; cfg_tools := None;
     cfg_documents := VArr [] |}.

Definition demo_call : fragment :=
  {| tc_id := VStr (str "call_1"); tc_name := VStr (str "lookup");
     tc_arguments := VStr (str_q "{'q':1}") |}.

Definition demo_syntax_error : jstring -> jstring :=
  fun _ => str "Unexpected token".

(** The frame of a line that parses, [null] otherwise. *)
Definition parsed_line (line : jstring) : value :=
  match frame_of_line line with
  | FParsed parsed => parsed
  | _ => VNull
  end.

Definition demo_start_line : jstring :=
  str_q "{'type':'tool-call-start','index':2,"
  ++ str_q "'delta':{'message':{'tool_calls':"
  ++ str_q "{'id':'call_1','type':'function',"
  ++ str_q "'function':{'name':'lookup','arguments':''}}}}}".

Definition demo_delta_line (d : string) : jstring :=
  str_q "data: {'type':'tool-call-delta','index':2,"
  ++ str_q "'delta':{'message':{'tool_calls':{'function':{'arguments':'"
  ++ str_q d ++ str_q "'}}}}}".

Definition demo_text_line : jstring :=
  str_q "{'type':'content-delta','index':0,"
  ++ str_q "'delta':{'message':{'content':{'text':'Hel'}}}}".

Definition demo_end_line : jstring :=
  str_q "{'type':'message-end','delta':{'finish_reason':'TOOL_CALL'}}".

(** The frames of the sample stream after its tool-call-start: three
    deltas at index 2, with a text frame in between. *)
Definition demo_frames : list (value * value) :=
  [(VNull, parsed_line (demo_delta_line "{\'q\'"));
   (VNull, parsed_line demo_text_line);
   (VNull, parsed_line (demo_delta_line ":"));
   (VNull, parsed_line (demo_delta_line "1}"))].


(** The assistant message of the follow-up request refers to the call. *)
Definition demo_refs : list value :=
  [VObj [(str "id", VStr (str "call_1"));
         (str "type", VStr (str "function"));
         (str "function",
          VObj [(str "name", VStr (str "lookup"));
                (str "arguments", VStr (str_q "{'q':1}"))])]].

(** The answer to the follow-up request: a text and the end of the
    stream, in one chunk. *)
Definition demo_reply : response :=
  Response true (VNum (Num 2 2)) []
    (Some ([demo_text_line ++ [10] ++ str_q "{'type':'stream-end'}" ++ [10]],
           EndOfData)).

Definition demo_history : list value :=
  [VObj [(str "role", VStr (str "user"));
         (str "content", VStr (str "What does q mean?"))]].

(** A first answer that asks for the sample call: the start, the
    arguments in three deltas and the message-end, in chunks that cut the
    lines anywhere. *)
Definition demo_stream : jstring :=
  demo_start_line ++ [10]
  ++ demo_delta_line "{\'q\'" ++ [13; 10]
  ++ demo_delta_line ":" ++ [10] ++ [10]
  ++ demo_delta_line "1}" ++ [10]
  ++ demo_end_line ++ [10].

Definition demo_answer : response :=
  Response true (VNum (Num 2 2)) []
    (Some ([firstn 100 demo_stream; firstn 150 (skipn 100 demo_stream);
            skipn 250 demo_stream], EndOfData)).


(** A message with a bold word, two bullets on lines of their own and a
    pictograph (U+1F600). *)
Definition demo_message : jstring :=
  str "**Hi** " ++ [55357; 56832] ++ [10; 8226; 32] ++ str "one"
  ++ [10; 8226; 32] ++ str "two".

(** [toLowerCase] on a text whose letters are ASCII letters. *)
Definition ascii_toLowerCase (s : jstring) : jstring :=
  List.map (fun c => if (65 <=? c) && (c <=? 90) then c + 32 else c) s.

(** A call whose arguments are no JSON. *)
Definition demo_text_call : fragment :=
  {| tc_id := VStr (str "call_2"); tc_name := VStr (str "lookup");
     tc_arguments := VStr (str " hello ") |}.

(** The result of the sample handler at its [n]-th invocation with the
    arguments of the sample call. *)
Definition demo_result (n : Z) : value :=
  VObj [(str "q", VNum (Num 1 0)); (str "calls", VNum (Num n 0))].

(** The service once the sample session has run: the first answer asks
    for the sample call, the second is the text. *)
Definition demo_service : @service nat :=
  snd (generateResponse demo_syntax_error [demo_answer; demo_reply]
         demo_config demo_history (new_service 0%nat)).

(** A [handleToolCalls] that does nothing. *)
Definition demo_handle : list fragment -> value -> @service nat
                         -> @service nat * bool :=
  fun _ _ s => (s, false).

(** A stream of one text and its end, and the same with a comment, a
    blank line, a line of broken JSON and a [DONE] marker in between. *)
Definition demo_lines : jstring :=
  demo_text_line ++ [10] ++ str_q "{'type':'stream-end'}" ++ [10].

Definition demo_noisy_lines : jstring :=
  str ": keep-alive" ++ [10] ++ demo_text_line ++ [10] ++ [10]
  ++ str_q "{'type':" ++ [10] ++ str "data: [DONE]" ++ [10]
  ++ str_q "{'type':'stream-end'}" ++ [10].

(** A store on which [initialize] has run. *)
Definition demo_store : @store nat := initialize 0 (initialState 0%nat).

(** A message with two bullets on lines of their own. *)
Definition demo_list : jstring :=
  [8226; 32] ++ str "one" ++ [10; 8226; 32] ++ str "two".
(* ********************************************************************* *)
(** * Theorems *)
(* ********************************************************************* *)

(* ===================================================================== *)
(** * Round trip of string literals *)
(* ===================================================================== *)

Lemma hex_value_digit (n : N) : n < 16 -> hex_value (hex_digit n) = Some n.
Proof.
  intros Hn. unfold hex_value, hex_digit.
  destruct (n <? 10) eqn:E.
  - apply N.ltb_lt in E.
    replace ((48 <=? 48 + n) && (48 + n <=? 57)) with true
      by (symmetry; apply andb_true_iff; split; apply N.leb_le; lia).
    f_equal. lia.
  - apply N.ltb_ge in E.
    replace ((48 <=? 87 + n) && (87 + n <=? 57)) with false
      by (symmetry; apply andb_false_iff; right; apply N.leb_gt; lia).
    replace ((97 <=? 87 + n) && (87 + n <=? 102)) with true
      by (symmetry; apply andb_true_iff; split; apply N.leb_le; lia).
    f_equal. lia.
Qed.

Lemma hex4_unicode (c : N) :
  c < 65536 ->
  hex4 (hex_digit (c / 4096 mod 16)) (hex_digit (c / 256 mod 16))
       (hex_digit (c / 16 mod 16)) (hex_digit (c mod 16)) = Some c.
Proof.
  intros Hc. unfold hex4.
  rewrite !hex_value_digit by (apply N.mod_upper_bound; lia).
  f_equal.
  assert (H1 := N.div_mod c 16 ltac:(lia)).
  assert (H2 := N.div_mod (c / 16) 16 ltac:(lia)).
  assert (H3 := N.div_mod (c / 256) 16 ltac:(lia)).
  replace (c / 16 / 16) with (c / 256) in H2
    by (rewrite N.Div0.div_div; reflexivity).
  replace (c / 256 / 16) with (c / 4096) in H3
    by (rewrite N.Div0.div_div; reflexivity).
  assert (H4 : c / 4096 < 16) by (apply N.Div0.div_lt_upper_bound; lia).
  rewrite (N.mod_small (c / 4096) 16) by exact H4.
  lia.
Qed.

Lemma parse_string_body_literal (c : N) (r : jstring) :
  32 <= c -> c <> 34 -> c <> 92 ->
  parse_string_body (c :: r) = prepend c (parse_string_body r).
Proof.
  intros H32 H34 H92. cbn [parse_string_body].
  destruct (N.eqb_spec c 34) as [|_]; [contradiction|].
  destruct (N.eqb_spec c 92) as [|_]; [contradiction|].
  destruct (N.ltb_spec c 32) as [|_]; [lia|].
  reflexivity.
Qed.

Lemma parse_string_body_unicode (c : N) (r : jstring) :
  c < 65536 ->
  parse_string_body (unicode_escape c ++ r) = prepend c (parse_string_body r).
Proof.
  intros Hc. unfold unicode_escape.
  cbn [app parse_string_body N.eqb Pos.eqb].
  rewrite (hex4_unicode c Hc). reflexivity.
Qed.

Lemma parse_quote_chars_aux (n : nat) :
  forall (s rest : jstring), (length s <= n)%nat ->
    parse_string_body (quote_chars s ++ 34 :: rest) = Some (s, rest).
Proof.
  induction n as [|n IH]; intros s rest Hlen.
  - destruct s; [reflexivity | simpl in Hlen; lia].
  - destruct s as [|c r]; [reflexivity|].
    simpl in Hlen.
    assert (IHr : forall rest', parse_string_body (quote_chars r ++ 34 :: rest')
                           = Some (r, rest')) by (intros; apply IH; lia).
    cbn [quote_chars].
    destruct (N.eqb_spec c 8) as [->|N8];
      [cbn; rewrite IHr; reflexivity|].
    destruct (N.eqb_spec c 9) as [->|N9];
      [cbn; rewrite IHr; reflexivity|].
    destruct (N.eqb_spec c 10) as [->|N10];
      [cbn; rewrite IHr; reflexivity|].
    destruct (N.eqb_spec c 12) as [->|N12];
      [cbn; rewrite IHr; reflexivity|].
    destruct (N.eqb_spec c 13) as [->|N13];
      [cbn; rewrite IHr; reflexivity|].
    destruct (N.eqb_spec c 34) as [->|N34];
      [cbn; rewrite IHr; reflexivity|].
    destruct (N.eqb_spec c 92) as [->|N92];
      [cbn; rewrite IHr; reflexivity|].
    destruct (N.ltb_spec c 32) as [L32|G32].
    { rewrite <- app_assoc, parse_string_body_unicode by lia.
      rewrite IHr. reflexivity. }
    unfold is_high_surrogate, is_low_surrogate.
    destruct (N.leb_spec 55296 c) as [Hh1|Hh1];
      destruct (N.leb_spec c 56319) as [Hh2|Hh2]; cbn [andb].
    + destruct r as [|d r'].
      * cbn [app]. rewrite (parse_string_body_unicode c (34 :: rest)) by lia.
        reflexivity.
      * destruct (N.leb_spec 56320 d) as [Hd1|Hd1];
          destruct (N.leb_spec d 57343) as [Hd2|Hd2]; cbn [andb].
        -- cbn [app].
           rewrite parse_string_body_literal by lia.
           rewrite parse_string_body_literal by lia.
           rewrite IH by (simpl in Hlen; lia). reflexivity.
        -- rewrite <- app_assoc, parse_string_body_unicode by lia.
           rewrite IHr. reflexivity.
        -- rewrite <- app_assoc, parse_string_body_unicode by lia.
           rewrite IHr. reflexivity.
        -- rewrite <- app_assoc, parse_string_body_unicode by lia.
           rewrite IHr. reflexivity.
    + destruct (N.leb_spec 56320 c) as [Hl1|Hl1];
        destruct (N.leb_spec c 57343) as [Hl2|Hl2]; cbn [andb].
      * rewrite <- app_assoc, parse_string_body_unicode by lia.
        rewrite IHr. reflexivity.
      * cbn [app]. rewrite parse_string_body_literal by lia.
        rewrite IHr. reflexivity.
      * lia.
      * lia.
    + destruct (N.leb_spec 56320 c) as [Hl1|Hl1]; [lia|]. cbn [andb app].
      rewrite parse_string_body_literal by lia. rewrite IHr. reflexivity.
    + lia.
Qed.

Lemma parse_quote_chars (s rest : jstring) :
  parse_string_body (quote_chars s ++ 34 :: rest) = Some (s, rest).
Proof. apply (parse_quote_chars_aux (length s)). lia. Qed.

(** Parsing the JSON literal of a string gives the string back. *)
Lemma JSON_parse_quote (s : jstring) : JSON_parse (quote s) = Some (VStr s).
Proof.
  unfold JSON_parse, quote.
  set (n := length _).
  replace (2 * n + 2)%nat with (S (2 * n + 1)) by lia.
  cbn [parse_value]. unfold value_step.
  cbn [skip_ws is_json_ws N.eqb Pos.eqb orb].
  rewrite parse_quote_chars. reflexivity.
Qed.

(* ===================================================================== *)
(** * The fuel of JSON.parse *)
(* ===================================================================== *)

Lemma skip_ws_length (s : jstring) : (length (skip_ws s) <= length s)%nat.
Proof.
  induction s as [|c r IH]; cbn [skip_ws]; [lia|].
  destruct (is_json_ws c); cbn [length]; lia.
Qed.

Lemma prepend_Some (c : N) (o : option (jstring * jstring))
    (t r : jstring) :
  prepend c o = Some (t, r) -> exists t', o = Some (t', r) /\ t = c :: t'.
Proof.
  destruct o as [[t' r']|]; cbn; [|discriminate].
  intros [= <- <-]. eauto.
Qed.

Lemma parse_string_body_length (n : nat) :
  forall s t r, (length s <= n)%nat ->
    parse_string_body s = Some (t, r) -> (length r < length s)%nat.
Proof.
  induction n as [|n IH]; intros s t r Hn H.
  - destruct s; [discriminate | cbn in Hn; lia].
  - destruct s as [|c s]; [discriminate|]. cbn [length] in Hn.
    cbn [parse_string_body] in H.
    destruct (c =? 34); [injection H as _ <-; cbn; lia|].
    destruct (c =? 92).
    + destruct s as [|e s]; [discriminate|].
      destruct (e =? 117).
      * destruct s as [|h1 [|h2 [|h3 [|h4 s]]]]; try discriminate.
        destruct (hex4 h1 h2 h3 h4); [|discriminate].
        apply prepend_Some in H. destruct H as (t' & H & _).
        apply IH in H; cbn [length] in *; lia.
      * destruct (simple_escape e); [|discriminate].
        apply prepend_Some in H. destruct H as (t' & H & _).
        apply IH in H; cbn [length] in *; lia.
    + destruct (c <? 32); [discriminate|].
      apply prepend_Some in H. destruct H as (t' & H & _).
      apply IH in H; cbn [length] in *; lia.
Qed.

Lemma take_digits_length (s : jstring) :
  (length (fst (take_digits s)) + length (snd (take_digits s)))%nat
  = length s.
Proof.
  induction s as [|c r IH]; cbn [take_digits]; [reflexivity|].
  destruct (is_digit c); [|reflexivity].
  destruct (take_digits r) as [d rest]. cbn [fst snd length] in *. lia.
Qed.

Lemma take_sign_length (plus : bool) (s : jstring) :
  (length (snd (take_sign plus s)) <= length s)%nat.
Proof.
  destruct s as [|c r]; cbn [take_sign]; [cbn; lia|].
  destruct (c =? 45); [cbn; lia|].
  destruct (plus && (c =? 43)); cbn; lia.
Qed.

Lemma parse_fraction_length (s fr r : jstring) :
  parse_fraction s = Some (fr, r) -> (length r <= length s)%nat.
Proof.
  destruct s as [|c s]; cbn [parse_fraction].
  - intros [= _ <-]. lia.
  - destruct (c =? 46).
    + pose proof (take_digits_length s) as Hl.
      destruct (take_digits s) as [d rest]. cbn [fst snd] in Hl.
      destruct d; [discriminate|]. intros [= _ <-]. cbn [length] in *. lia.
    + intros [= _ <-]. lia.
Qed.

Lemma parse_exponent_length (s r : jstring) (e : Z) :
  parse_exponent s = Some (e, r) -> (length r <= length s)%nat.
Proof.
  destruct s as [|c s]; cbn [parse_exponent].
  - intros [= _ <-]. lia.
  - destruct ((c =? 101) || (c =? 69)).
    + pose proof (take_sign_length true s) as Hs.
      destruct (take_sign true s) as [eneg r1]. cbn [snd] in Hs.
      pose proof (take_digits_length r1) as Hl.
      destruct (take_digits r1) as [d rest]. cbn [fst snd] in Hl.
      destruct d; [discriminate|]. intros [= _ <-]. cbn [length] in *. lia.
    + intros [= _ <-]. lia.
Qed.

Lemma parse_number_length (s r : jstring) (n : number) :
  parse_number s = Some (n, r) -> (length r < length s)%nat.
Proof.
  unfold parse_number.
  pose proof (take_sign_length false s) as Hs.
  destruct (take_sign false s) as [neg s1]. cbn [snd] in Hs.
  pose proof (take_digits_length s1) as Hl.
  destruct (take_digits s1) as [int s2]. cbn [fst snd] in Hl.
  destruct int as [|d0 more]; [discriminate|].
  destruct ((d0 =? 48) && _); [discriminate|].
  destruct (parse_fraction s2) as [[fr s3]|] eqn:Hf; [|discriminate].
  destruct (parse_exponent s3) as [[e s4]|] eqn:He; [|discriminate].
  intros [= _ <-].
  apply parse_fraction_length in Hf. apply parse_exponent_length in He.
  cbn [length] in *. lia.
Qed.

Section ParserSteps.

Variables (pe : jstring -> list value -> option (value * jstring))
          (pm : jstring -> list (jstring * value) -> option (value * jstring))
          (pv : jstring -> option (value * jstring)).

(** A value is read without recursion, or is what the elements or the
    members after its first character give. *)
Lemma value_step_inv (s : jstring) (v : value) (r : jstring) :
  value_step pe pm s = Some (v, r) ->
  ((length r < length s)%nat
   /\ forall pe' pm', value_step pe' pm' s = Some (v, r))
  \/ (exists r0, (length r0 < length s)%nat
        /\ pe r0 [] = Some (v, r)
        /\ forall pe' pm', pe' r0 [] = Some (v, r) ->
                           value_step pe' pm' s = Some (v, r))
  \/ (exists r0, (length r0 < length s)%nat
        /\ pm r0 [] = Some (v, r)
        /\ forall pe' pm', pm' r0 [] = Some (v, r) ->
                           value_step pe' pm' s = Some (v, r)).
Proof.
  unfold value_step. pose proof (skip_ws_length s) as Hs.
  destruct (skip_ws s) as [|c r0]; [discriminate|]. cbn [length] in Hs.
  destruct (c =? 34).
  { destruct (parse_string_body r0) as [[t rest]|] eqn:Hp; [|discriminate].
    intros [= <- <-]. left. split; [|reflexivity].
    apply (parse_string_body_length (length r0)) in Hp; lia. }
  destruct (c =? 91).
  { pose proof (skip_ws_length r0) as Hr.
    destruct (skip_ws r0) as [|c' r']; [discriminate|]. cbn [length] in Hr.
    destruct (c' =? 93).
    - intros [= <- <-]. left. split; [lia | reflexivity].
    - intros H. right. left. exists r0. split; [lia|]. split; [exact H|].
      intros pe' pm' H'. exact H'. }
  destruct (c =? 123).
  { pose proof (skip_ws_length r0) as Hr.
    destruct (skip_ws r0) as [|c' r']; [discriminate|]. cbn [length] in Hr.
    destruct (c' =? 125).
    - intros [= <- <-]. left. split; [lia | reflexivity].
    - intros H. right. right. exists r0. split; [lia|]. split; [exact H|].
      intros pe' pm' H'. exact H'. }
  destruct (startsWith (c :: r0) (str "null")).
  { intros [= <- <-]. left. split; [|reflexivity].
    rewrite length_skipn. cbn [length]. lia. }
  destruct (startsWith (c :: r0) (str "true")).
  { intros [= <- <-]. left. split; [|reflexivity].
    rewrite length_skipn. cbn [length]. lia. }
  destruct (startsWith (c :: r0) (str "false")).
  { intros [= <- <-]. left. split; [|reflexivity].
    rewrite length_skipn. cbn [length]. lia. }
  destruct ((c =? 45) || is_digit c); [|discriminate].
  destruct (parse_number (c :: r0)) as [[n rest]|] eqn:Hn; [|discriminate].
  intros [= <- <-]. left. split; [|reflexivity].
  apply parse_number_length in Hn. cbn [length] in Hn. lia.
Qed.

Lemma elements_step_inv (s : jstring) (acc : list value) (v : value)
    (r : jstring) :
  elements_step pv pe s acc = Some (v, r) ->
  exists v1 r1,
    pv s = Some (v1, r1)
    /\ (((length r < length r1)%nat
         /\ forall pv' pe', pv' s = Some (v1, r1) ->
                            elements_step pv' pe' s acc = Some (v, r))
        \/ (exists r', (length r' < length r1)%nat
              /\ pe r' (acc ++ [v1]) = Some (v, r)
              /\ forall pv' pe', pv' s = Some (v1, r1) ->
                   pe' r' (acc ++ [v1]) = Some (v, r) ->
                   elements_step pv' pe' s acc = Some (v, r))).
Proof.
  unfold elements_step.
  destruct (pv s) as [[v1 r1]|]; [|discriminate].
  pose proof (skip_ws_length r1) as Hr.
  destruct (skip_ws r1) as [|c r'] eqn:Hsk; [discriminate|].
  cbn [length] in Hr. intros H. exists v1, r1. split; [reflexivity|].
  destruct (c =? 44) eqn:E44.
  - right. exists r'. split; [lia|]. split; [exact H|].
    intros pv' pe' -> H'. rewrite Hsk, E44. exact H'.
  - destruct (c =? 93) eqn:E93; [|discriminate]. injection H as <- <-.
    left. split; [lia|]. intros pv' pe' ->. rewrite Hsk, E44, E93.
    reflexivity.
Qed.

Lemma members_step_inv (s : jstring) (acc : list (jstring * value))
    (v : value) (r : jstring) :
  members_step pv pm s acc = Some (v, r) ->
  exists r2 v1 r3,
    (length r2 < length s)%nat
    /\ pv r2 = Some (v1, r3)
    /\ (((length r < length r3)%nat
         /\ forall pv' pm', pv' r2 = Some (v1, r3) ->
                            members_step pv' pm' s acc = Some (v, r))
        \/ (exists r4 acc', (length r4 < length r3)%nat
              /\ pm r4 acc' = Some (v, r)
              /\ forall pv' pm', pv' r2 = Some (v1, r3) ->
                   pm' r4 acc' = Some (v, r) ->
                   members_step pv' pm' s acc = Some (v, r))).
Proof.
  unfold members_step. pose proof (skip_ws_length s) as Hs.
  destruct (skip_ws s) as [|c r0]; [discriminate|]. cbn [length] in Hs.
  destruct (c =? 34); [|discriminate].
  destruct (parse_string_body r0) as [[k r1]|] eqn:Hk; [|discriminate].
  apply (parse_string_body_length (length r0)) in Hk; [|lia].
  pose proof (skip_ws_length r1) as Hr1.
  destruct (skip_ws r1) as [|c1 r2]; [discriminate|]. cbn [length] in Hr1.
  destruct (c1 =? 58); [|discriminate].
  destruct (pv r2) as [[v1 r3]|] eqn:Hv; [|discriminate].
  pose proof (skip_ws_length r3) as Hr3.
  destruct (skip_ws r3) as [|c3 r4] eqn:Hsk; [discriminate|].
  cbn [length] in Hr3. intros H.
  exists r2, v1, r3. split; [lia|]. split; [exact Hv|].
  destruct (c3 =? 44) eqn:E44.
  - right. exists r4, (obj_set k v1 acc). split; [lia|]. split; [exact H|].
    intros pv' pm' -> H'. rewrite Hsk, E44. exact H'.
  - destruct (c3 =? 125) eqn:E125; [|discriminate]. injection H as <- <-.
    left. split; [lia|]. intros pv' pm' ->. rewrite Hsk, E44, E125.
    reflexivity.
Qed.

End ParserSteps.

(** More fuel changes no result. *)
Lemma parse_fuel_S (f : nat) :
  (forall s x, parse_value f s = Some x -> parse_value (S f) s = Some x)
  /\ (forall s acc x, parse_elements f s acc = Some x ->
                      parse_elements (S f) s acc = Some x)
  /\ (forall s acc x, parse_members f s acc = Some x ->
                      parse_members (S f) s acc = Some x).
Proof.
  induction f as [|f (IHv & IHe & IHm)];
    [repeat split; intros; discriminate|].
  repeat split.
  - intros s [v r] H. change (parse_value (S f) s)
      with (value_step (parse_elements f) (parse_members f) s) in H.
    change (parse_value (S (S f)) s)
      with (value_step (parse_elements (S f)) (parse_members (S f)) s).
    destruct (value_step_inv _ _ s v r H)
      as [[_ Hl]|[(r0 & _ & He & Hk)|(r0 & _ & Hm & Hk)]].
    + apply Hl.
    + apply Hk, IHe, He.
    + apply Hk, IHm, Hm.
  - intros s acc [v r] H.
    change (parse_elements (S f) s acc)
      with (elements_step (parse_value f) (parse_elements f) s acc) in H.
    change (parse_elements (S (S f)) s acc)
      with (elements_step (parse_value (S f)) (parse_elements (S f)) s acc).
    destruct (elements_step_inv _ _ s acc v r H)
      as (v1 & r1 & Hv & [[_ Hk]|(r' & _ & He & Hk)]).
    + apply Hk, IHv, Hv.
    + apply Hk; [apply IHv, Hv | apply IHe, He].
  - intros s acc [v r] H.
    change (parse_members (S f) s acc)
      with (members_step (parse_value f) (parse_members f) s acc) in H.
    change (parse_members (S (S f)) s acc)
      with (members_step (parse_value (S f)) (parse_members (S f)) s acc).
    destruct (members_step_inv _ _ s acc v r H)
      as (r2 & v1 & r3 & _ & Hv & [[_ Hk]|(r4 & acc' & _ & Hm & Hk)]).
    + apply Hk, IHv, Hv.
    + apply Hk; [apply IHv, Hv | apply IHm, Hm].
Qed.

Lemma parse_fuel_le (f f' : nat) :
  (f <= f')%nat ->
  (forall s x, parse_value f s = Some x -> parse_value f' s = Some x)
  /\ (forall s acc x, parse_elements f s acc = Some x ->
                      parse_elements f' s acc = Some x)
  /\ (forall s acc x, parse_members f s acc = Some x ->
                      parse_members f' s acc = Some x).
Proof.
  induction 1 as [|f' _ (IHv & IHe & IHm)]; [repeat split; auto|].
  destruct (parse_fuel_S f') as (Sv & Se & Sm).
  repeat split; intros.
  - apply Sv, IHv. assumption.
  - apply Se, IHe. assumption.
  - apply Sm, IHm. assumption.
Qed.

(** Two units of fuel for each character read are enough. *)
Lemma parse_fuel_bound (f : nat) :
  (forall s v r, parse_value f s = Some (v, r) ->
     (length r < length s)%nat
     /\ parse_value (2 * (length s - length r)) s = Some (v, r))
  /\ (forall s acc v r, parse_elements f s acc = Some (v, r) ->
        (length r < length s)%nat
        /\ parse_elements (2 * (length s - length r)) s acc = Some (v, r))
  /\ (forall s acc v r, parse_members f s acc = Some (v, r) ->
        (length r < length s)%nat
        /\ parse_members (2 * (length s - length r)) s acc = Some (v, r)).
Proof.
  induction f as [|f (IHv & IHe & IHm)];
    [repeat split; intros; discriminate|].
  repeat split.
  - change (parse_value (S f) s)
      with (value_step (parse_elements f) (parse_members f) s) in H.
    destruct (value_step_inv _ _ s v r H)
      as [[Hl _]|[(r0 & Hr0 & He & _)|(r0 & Hr0 & Hm & _)]]; [exact Hl| |].
    + apply IHe in He. lia.
    + apply IHm in Hm. lia.
  - change (parse_value (S f) s)
      with (value_step (parse_elements f) (parse_members f) s) in H.
    destruct (value_step_inv _ _ s v r H)
      as [[Hl Hk]|[(r0 & Hr0 & He & Hk)|(r0 & Hr0 & Hm & Hk)]].
    + destruct (2 * (length s - length r))%nat as [|k] eqn:Ek; [lia|].
      apply Hk.
    + destruct (IHe _ _ _ _ He) as [Hlt He'].
      destruct (2 * (length s - length r))%nat as [|k] eqn:Ek; [lia|].
      apply Hk.
      refine (proj1 (proj2 (parse_fuel_le _ k _)) _ _ _ He'). lia.
    + destruct (IHm _ _ _ _ Hm) as [Hlt Hm'].
      destruct (2 * (length s - length r))%nat as [|k] eqn:Ek; [lia|].
      apply Hk.
      refine (proj2 (proj2 (parse_fuel_le _ k _)) _ _ _ Hm'). lia.
  - change (parse_elements (S f) s acc)
      with (elements_step (parse_value f) (parse_elements f) s acc) in H.
    destruct (elements_step_inv _ _ s acc v r H)
      as (v1 & r1 & Hv & [[Hl _]|(r' & Hr' & He & _)]).
    + apply IHv in Hv. lia.
    + apply IHv in Hv. apply IHe in He. lia.
  - change (parse_elements (S f) s acc)
      with (elements_step (parse_value f) (parse_elements f) s acc) in H.
    destruct (elements_step_inv _ _ s acc v r H)
      as (v1 & r1 & Hv & [[Hl Hk]|(r' & Hr' & He & Hk)]).
    + destruct (IHv _ _ _ Hv) as [Hlt Hv'].
      destruct (2 * (length s - length r))%nat as [|k] eqn:Ek; [lia|].
      apply Hk.
      refine (proj1 (parse_fuel_le _ k _) _ _ Hv'). lia.
    + destruct (IHv _ _ _ Hv) as [Hlt Hv'].
      destruct (IHe _ _ _ _ He) as [Hlt' He'].
      destruct (2 * (length s - length r))%nat as [|k] eqn:Ek; [lia|].
      apply Hk.
      * refine (proj1 (parse_fuel_le _ k _) _ _ Hv'). lia.
      * refine (proj1 (proj2 (parse_fuel_le _ k _)) _ _ _ He'). lia.
  - change (parse_members (S f) s acc)
      with (members_step (parse_value f) (parse_members f) s acc) in H.
    destruct (members_step_inv _ _ s acc v r H)
      as (r2 & v1 & r3 & Hr2 & Hv & [[Hl _]|(r4 & acc' & Hr4 & Hm & _)]).
    + apply IHv in Hv. lia.
    + apply IHv in Hv. apply IHm in Hm. lia.
  - change (parse_members (S f) s acc)
      with (members_step (parse_value f) (parse_members f) s acc) in H.
    destruct (members_step_inv _ _ s acc v r H)
      as (r2 & v1 & r3 & Hr2 & Hv & [[Hl Hk]|(r4 & acc' & Hr4 & Hm & Hk)]).
    + destruct (IHv _ _ _ Hv) as [Hlt Hv'].
      destruct (2 * (length s - length r))%nat as [|k] eqn:Ek; [lia|].
      apply Hk.
      refine (proj1 (parse_fuel_le _ k _) _ _ Hv'). lia.
    + destruct (IHv _ _ _ Hv) as [Hlt Hv'].
      destruct (IHm _ _ _ _ Hm) as [Hlt' Hm'].
      destruct (2 * (length s - length r))%nat as [|k] eqn:Ek; [lia|].
      apply Hk.
      * refine (proj1 (parse_fuel_le _ k _) _ _ Hv'). lia.
      * refine (proj2 (proj2 (parse_fuel_le _ k _)) _ _ _ Hm'). lia.
Qed.

(** [JSON_parse] never fails for lack of fuel: what any amount of fuel
    parses, the fuel of [JSON_parse] parses. *)
Lemma parse_value_fuel (f : nat) (s : jstring) (v : value) (r : jstring) :
  parse_value f s = Some (v, r) ->
  parse_value (2 * length s + 2) s = Some (v, r).
Proof.
  intros H. destruct (parse_fuel_bound f) as (Bv & _ & _).
  destruct (Bv s v r H) as [_ H'].
  refine (proj1 (parse_fuel_le _ _ _) _ _ H'). lia.
Qed.

Lemma JSON_parse_fuel (f : nat) (s : jstring) (v : value) (r : jstring) :
  parse_value f s = Some (v, r) -> skip_ws r = [] -> JSON_parse s = Some v.
Proof.
  intros H Hr. unfold JSON_parse. rewrite (parse_value_fuel f s v r H), Hr.
  reflexivity.
Qed.

(* ===================================================================== *)
(** * ensureJsonString *)
(* ===================================================================== *)

Lemma truthy_VStr (s : jstring) : truthy (VStr s) = false <-> s = [].
Proof. destruct s; simpl; split; congruence. Qed.

Lemma JSON_parse_empty : JSON_parse [] = None.
Proof. reflexivity. Qed.

Lemma ensureJsonString_blank (s : jstring) :
  trim s = [] -> ensureJsonString (VStr s) = VStr (str "{}").
Proof.
  intros Ht. unfold ensureJsonString.
  destruct (truthy (VStr s)); [|reflexivity]. cbn [negb].
  rewrite Ht. reflexivity.
Qed.

Lemma trim_nonempty (s : jstring) : trim s <> [] -> s <> [].
Proof. intros H ->. apply H. reflexivity. Qed.

Lemma ensureJsonString_text (s : jstring) :
  trim s <> [] ->
  ensureJsonString (VStr s) =
  match JSON_parse (trim s) with
  | Some _ => VStr (trim s)
  | None => VStr (quote (trim s))
  end.
Proof.
  intros Ht. unfold ensureJsonString.
  assert (Hs : truthy (VStr s) = true).
  { destruct s; [exfalso; apply Ht; reflexivity | reflexivity]. }
  rewrite Hs. cbn [negb].
  assert (Htt : truthy (VStr (trim s)) = true).
  { destruct (trim s); [congruence | reflexivity]. }
  rewrite Htt. cbn [negb]. reflexivity.
Qed.

(** C8.  [ensureJsonString] on a string whose trimmed text parses as JSON
    returns the trimmed text; on [undefined], the empty string and a
    string of white space only it returns the two characters of an empty
    object; and on a string whose trimmed text is not empty and does not
    parse as JSON it returns the JSON string literal of the trimmed text,
    which [JSON.parse] maps back to exactly that text. *)
Theorem ensureJsonString_normalizes (s : jstring) :
  (forall v, JSON_parse (trim s) = Some v ->
             ensureJsonString (VStr s) = VStr (trim s))
  /\ ensureJsonString VUndef = VStr [123; 125]
  /\ ensureJsonString (VStr []) = VStr [123; 125]
  /\ (trim s = [] -> ensureJsonString (VStr s) = VStr [123; 125])
  /\ (trim s <> [] -> JSON_parse (trim s) = None ->
      ensureJsonString (VStr s) = VStr (quote (trim s))
      /\ JSON_parse (quote (trim s)) = Some (VStr (trim s))).
Proof.
  repeat split.
  - intros v Hv.
    assert (Ht : trim s <> []).
    { intros E. rewrite E, JSON_parse_empty in Hv. discriminate. }
    rewrite (ensureJsonString_text s Ht), Hv. reflexivity.
  - apply ensureJsonString_blank.
  - rewrite (ensureJsonString_text s H), H0. reflexivity.
  - apply JSON_parse_quote.
Qed.

(* ===================================================================== *)
(** * Frame splitting *)
(* ===================================================================== *)

Lemma split_nl_pair (s : jstring) :
  split_nl s = fst (split_at_nl s) ++ [snd (split_at_nl s)].
Proof.
  induction s as [|c r IH]; [reflexivity|].
  cbn [split_nl split_at_nl]. rewrite IH.
  destruct (split_at_nl r) as [ls frag]. cbn [fst snd].
  destruct (c =? 10); [reflexivity|].
  destruct ls; reflexivity.
Qed.

Lemma lines_of_split (s : jstring) :
  removelast (split_nl s) = fst (split_at_nl s)
  /\ List.last (split_nl s) [] = snd (split_at_nl s).
Proof.
  rewrite split_nl_pair. split.
  - apply removelast_last.
  - apply last_last.
Qed.

Lemma split_at_nl_app (a b : jstring) :
  split_at_nl (a ++ b) =
  (fst (split_at_nl a) ++ fst (split_at_nl (snd (split_at_nl a) ++ b)),
   snd (split_at_nl (snd (split_at_nl a) ++ b))).
Proof.
  induction a as [|c r IH].
  - cbn. destruct (split_at_nl b); reflexivity.
  - cbn [app split_at_nl]. rewrite IH.
    destruct (split_at_nl r) as [lr rr]. cbn [fst snd].
    destruct (c =? 10) eqn:Ec.
    + cbn [fst snd]. reflexivity.
    + destruct lr as [|l ls]; cbn [fst snd app].
      * cbn [split_at_nl]. rewrite Ec.
        destruct (split_at_nl (rr ++ b)) as [lb rb]. cbn [fst snd].
        destruct lb; reflexivity.
      * reflexivity.
Qed.

(** The fragment kept in the buffer holds no newline. *)
Lemma split_at_nl_frag (s : jstring) :
  fst (split_at_nl (snd (split_at_nl s))) = [].
Proof.
  induction s as [|c r IH]; [reflexivity|].
  cbn [split_at_nl]. destruct (split_at_nl r) as [ls frag]. cbn [snd] in IH.
  destruct (c =? 10) eqn:Ec; [exact IH|].
  destruct ls; cbn [snd]; [|exact IH].
  cbn [split_at_nl]. rewrite Ec.
  destruct (split_at_nl frag) as [l2 f2]. cbn [fst] in IH. subst l2.
  reflexivity.
Qed.

Section FrameSplitting.

Context {W : Type}.
Variable handle : list fragment -> value -> @service W -> @service W * bool.
Variable subject : nat.

Lemma process_lines_app (l1 l2 : list jstring) (d : decoder) (s : service) :
  process_lines handle subject (l1 ++ l2) d s =
  match process_lines handle subject l1 d s with
  | Continue d1 s1 => process_lines handle subject l2 d1 s1
  | Return s1 => Return s1
  end.
Proof.
  revert d s. induction l1 as [|l l1 IH]; intros d s; [reflexivity|].
  cbn [app process_lines].
  destruct (process_line handle subject l d s); [apply IH | reflexivity].
Qed.

Lemma read_loop_one_chunk (chunks : list jstring) (ending : stream_end) :
  forall (buffer : jstring) (d : decoder) (s : service),
    fst (split_at_nl buffer) = [] ->
    read_loop handle subject chunks ending buffer d s =
    read_loop handle subject [concat chunks] ending buffer d s.
Proof.
  induction chunks as [|c cs IH]; intros buffer d s Hbuf.
  - cbn [concat read_loop].
    destruct (lines_of_split (buffer ++ [])) as [-> _].
    rewrite app_nil_r, Hbuf. reflexivity.
  - cbn [concat]. cbn [read_loop].
    destruct (lines_of_split (buffer ++ c)) as [-> ->].
    destruct (lines_of_split (buffer ++ c ++ concat cs)) as [-> _].
    rewrite (app_assoc buffer c), (split_at_nl_app (buffer ++ c) (concat cs)).
    cbn [fst]. rewrite process_lines_app.
    destruct (process_lines handle subject
                (fst (split_at_nl (buffer ++ c))) d s)
      as [d1 s1|s1]; [|reflexivity].
    rewrite IH by apply split_at_nl_frag.
    cbn [concat read_loop].
    destruct (lines_of_split (snd (split_at_nl (buffer ++ c)) ++ concat cs))
      as [-> _].
    reflexivity.
Qed.

(** What [readStream] processes is the complete lines of the whole text,
    each once and in order; the fragment after the last newline is never
    processed. *)
Lemma readStream_lines (chunks : list jstring) (ending : stream_end)
    (s : service) :
  readStream handle subject chunks ending s =
  match process_lines handle subject (fst (split_at_nl (concat chunks)))
          {| currentEventType := VNull; toolCallsMap := [] |} s with
  | Continue _ s1 =>
      match ending with
      | EndOfData => (emit (Complete subject) s1, None)
      | ReadRejects e => (s1, Some e)
      end
  | Return s1 => (s1, None)
  end.
Proof.
  unfold readStream. rewrite read_loop_one_chunk by reflexivity.
  cbn [read_loop app].
  destruct (lines_of_split (concat chunks)) as [-> _].
  reflexivity.
Qed.

End FrameSplitting.

(** C1.  Frame splitting: reading a stream whose text arrives in any
    number of chunks leaves the service in the same state (the same
    effects in the same order: texts emitted, completions, tool
    invocations, follow-up requests) and ends the same way as reading the
    whole text as one chunk. *)
Theorem frame_splitting {W : Type}
    (handle : list fragment -> value -> @service W -> @service W * bool)
    (subject : nat) (chunks : list jstring) (ending : stream_end)
    (s : service) :
  readStream handle subject chunks ending s =
  readStream handle subject [concat chunks] ending s.
Proof.
  unfold readStream. apply read_loop_one_chunk. reflexivity.
Qed.

(* ===================================================================== *)
(** * The tool-call accumulator *)
(* ===================================================================== *)

Lemma jstring_eqb_eq (a b : jstring) : jstring_eqb a b = true <-> a = b.
Proof.
  revert b. induction a as [|x a IH]; intros [|y b]; cbn [jstring_eqb];
    try (split; congruence).
  rewrite andb_true_iff, N.eqb_eq, IH. split.
  - intros [-> ->]. reflexivity.
  - intros E. injection E. auto.
Qed.

Lemma jstring_eqb_refl (a : jstring) : jstring_eqb a a = true.
Proof. apply jstring_eqb_eq. reflexivity. Qed.

Lemma number_eqb_eq (a b : number) : number_eqb a b = true <-> a = b.
Proof.
  destruct a as [m e], b as [m' e']. unfold number_eqb. cbn [mant expo].
  rewrite andb_true_iff, !Z.eqb_eq. split.
  - intros [-> ->]. reflexivity.
  - intros E. injection E. auto.
Qed.

(** Identity is equality, on primitives only. *)
Lemma strict_eqb_eq (a b : value) : strict_eqb a b = true -> a = b.
Proof.
  destruct a, b; cbn [strict_eqb]; try discriminate; try reflexivity.
  - intros H. apply eqb_prop in H. congruence.
  - intros H. apply number_eqb_eq in H. congruence.
  - intros H. apply jstring_eqb_eq in H. congruence.
Qed.

Lemma strict_eqb_refl (a : value) : primitive a = true -> strict_eqb a a = true.
Proof.
  destruct a; cbn; try discriminate; try reflexivity; intros _.
  - apply eqb_reflx.
  - apply number_eqb_eq. reflexivity.
  - apply jstring_eqb_refl.
Qed.

Lemma strict_eqb_neq (a b : value) : a <> b -> strict_eqb a b = false.
Proof.
  intros H. destruct (strict_eqb a b) eqn:E; [|reflexivity].
  apply strict_eqb_eq in E. contradiction.
Qed.

Lemma strict_eqb_sym (a b : value) : strict_eqb a b = strict_eqb b a.
Proof.
  destruct (strict_eqb a b) eqn:E.
  - pose proof (strict_eqb_eq _ _ E) as <-. symmetry. exact E.
  - destruct (strict_eqb b a) eqn:E'; [|reflexivity].
    pose proof (strict_eqb_eq _ _ E') as ->. congruence.
Qed.

Lemma map_get_set_same (i : value) (f : fragment) (m : toolmap) :
  primitive i = true -> map_get i (map_set i f m) = Some f.
Proof.
  intros Hi. induction m as [|[k g] m IH]; cbn [map_set map_get].
  - rewrite strict_eqb_refl by exact Hi. reflexivity.
  - destruct (strict_eqb i k) eqn:E; cbn [map_get]; rewrite E;
      [reflexivity | exact IH].
Qed.

Lemma map_get_set_other (i j : value) (f : fragment) (m : toolmap) :
  strict_eqb j i = false -> map_get i (map_set j f m) = map_get i m.
Proof.
  intros Hij. induction m as [|[k g] m IH]; cbn [map_set map_get].
  - rewrite strict_eqb_sym, Hij. reflexivity.
  - destruct (strict_eqb j k) eqn:E; cbn [map_get].
    + apply strict_eqb_eq in E. subst k.
      rewrite strict_eqb_sym, Hij. reflexivity.
    + destruct (strict_eqb i k); [reflexivity | exact IH].
Qed.

Lemma count_key_set_other (i j : value) (f : fragment) (m : toolmap) :
  strict_eqb j i = false -> count_key i (map_set j f m) = count_key i m.
Proof.
  intros Hij. unfold count_key.
  induction m as [|[k g] m IH]; cbn [map_set List.filter fst].
  - rewrite strict_eqb_sym, Hij. reflexivity.
  - destruct (strict_eqb j k) eqn:E; cbn [List.filter fst].
    + destruct (strict_eqb i k); reflexivity.
    + destruct (strict_eqb i k); cbn [length]; rewrite IH; reflexivity.
Qed.

Lemma count_key_absent (i : value) (m : toolmap) :
  map_get i m = None -> count_key i m = 0%nat.
Proof.
  unfold count_key. induction m as [|[k g] m IH]; cbn [map_get List.filter fst];
    [reflexivity|].
  destruct (strict_eqb i k); [discriminate | exact IH].
Qed.

Lemma count_key_set_same (i : value) (f : fragment) (m : toolmap) :
  primitive i = true ->
  count_key i (map_set i f m) =
  match map_get i m with Some _ => count_key i m | None => 1%nat end.
Proof.
  intros Hi. unfold count_key.
  induction m as [|[k g] m IH]; cbn [map_set map_get List.filter fst].
  - rewrite strict_eqb_refl by exact Hi. reflexivity.
  - destruct (strict_eqb i k) eqn:E; cbn [List.filter fst]; rewrite E.
    + reflexivity.
    + exact IH.
Qed.


Lemma distinct_keys_set (j : value) (f : fragment) (m : toolmap) :
  distinct_keys m -> distinct_keys (map_set j f m).
Proof.
  intros Hm k. destruct (strict_eqb j k) eqn:E.
  - pose proof (strict_eqb_eq _ _ E) as <-.
    assert (Hj : primitive j = true)
      by (destruct j; try reflexivity; discriminate).
    rewrite count_key_set_same, map_get_set_same by exact Hj.
    specialize (Hm j). destruct (map_get j m); [exact Hm | reflexivity].
  - rewrite count_key_set_other, map_get_set_other by exact E. apply Hm.
Qed.

(** A frame leaves the accumulator as it is, or sets one key. *)
Lemma accumulate_cases (cet : value) (m : toolmap) (parsed : value) :
  accumulate cet m parsed = m
  \/ exists f,
       accumulate cet m parsed = map_set (prop parsed (str "index")) f m.
Proof.
  unfold accumulate, dispatch.
  repeat match goal with
         | |- context [if ?b then _ else _] => destruct b
         | |- context [match ?x with _ => _ end] =>
             match type of x with
             | option _ => destruct x
             end
         end; eauto.
Qed.

Lemma accumulate_distinct (cet : value) (m : toolmap) (parsed : value) :
  distinct_keys m -> distinct_keys (accumulate cet m parsed).
Proof.
  intros Hm. destruct (accumulate_cases cet m parsed) as [->|[f ->]];
    [exact Hm | apply distinct_keys_set; exact Hm].
Qed.

Lemma accumulate_all_distinct (evs : list (value * value)) (m : toolmap) :
  distinct_keys m -> distinct_keys (accumulate_all m evs).
Proof.
  revert m. induction evs as [|ev evs IH]; intros m Hm; [exact Hm|].
  apply IH, accumulate_distinct, Hm.
Qed.

Lemma accumulate_all_app (m : toolmap) (e1 e2 : list (value * value)) :
  accumulate_all m (e1 ++ e2) = accumulate_all (accumulate_all m e1) e2.
Proof. apply fold_left_app. Qed.

(** The tests of the [switch] on a known event type. *)
Ltac eval_tests :=
  repeat match goal with
         | |- context [strict_eqb (VStr (str ?a)) (VStr (str ?b))] =>
             let r := eval vm_compute in
                        (strict_eqb (VStr (str a)) (VStr (str b))) in
             change (strict_eqb (VStr (str a)) (VStr (str b))) with r
         end;
  cbn [orb].

Lemma accumulate_start (cet parsed i id nm : value) (s : jstring)
    (m : toolmap) :
  is_start cet parsed i id nm s ->
  accumulate cet m parsed =
  map_set i {| tc_id := id; tc_name := nm; tc_arguments := VStr s |} m.
Proof.
  intros (Ht & Hi & Htc & Hid & Hfn & Hnm & Hargs).
  unfold accumulate, dispatch. fold (event_type cet parsed).
  fold (delta_tool_calls parsed). cbv zeta.
  rewrite Ht. eval_tests. rewrite Htc. unfold member. rewrite Hfn.
  rewrite Hi, Hid, Hnm, Hargs. reflexivity.
Qed.

Lemma accumulate_delta (cet parsed i : value) (d : jstring) (m : toolmap)
    (call : fragment) (a : jstring) :
  is_delta cet parsed i d ->
  map_get i m = Some call -> tc_arguments call = VStr a ->
  accumulate cet m parsed = m /\ d = []
  \/ accumulate cet m parsed =
     map_set i {| tc_id := tc_id call; tc_name := tc_name call;
                  tc_arguments := VStr (a ++ d) |} m.
Proof.
  intros (Ht & Hi & Hargs) Hget Ha.
  unfold accumulate, dispatch. fold (event_type cet parsed).
  fold (delta_tool_calls parsed). cbv zeta.
  rewrite Ht. eval_tests. rewrite Hi, Hget, Hargs, Ha.
  destruct d as [|c d]; [left; split; reflexivity|].
  right. reflexivity.
Qed.

Lemma accumulate_other_kind (cet parsed : value) (m : toolmap) :
  event_type cet parsed <> VStr (str "tool-call-start") ->
  event_type cet parsed <> VStr (str "tool-call-delta") ->
  accumulate cet m parsed = m.
Proof.
  intros Hs Hd. unfold accumulate, dispatch. fold (event_type cet parsed).
  cbv zeta.
  rewrite (strict_eqb_neq _ _ Hs), (strict_eqb_neq _ _ Hd).
  repeat match goal with
         | |- context [if ?b then _ else _] => destruct b
         end; reflexivity.
Qed.

Lemma accumulate_elsewhere (cet parsed i : value) (m : toolmap) :
  elsewhere cet parsed i ->
  map_get i (accumulate cet m parsed) = map_get i m
  /\ count_key i (accumulate cet m parsed) = count_key i m.
Proof.
  intros [[Hs Hd]|Hidx].
  - rewrite accumulate_other_kind by assumption. split; reflexivity.
  - destruct (accumulate_cases cet m parsed) as [->|[f ->]];
      [split; reflexivity|].
    rewrite map_get_set_other, count_key_set_other by exact Hidx.
    split; reflexivity.
Qed.

Lemma accumulate_deltas (i : value) (evs : list (value * value))
    (ds : list jstring) :
  deltas_at i evs ds -> primitive i = true ->
  forall (m : toolmap) (id nm : value) (a : jstring),
    map_get i m = Some {| tc_id := id; tc_name := nm;
                          tc_arguments := VStr a |} ->
    count_key i m = 1%nat ->
    map_get i (accumulate_all m evs)
    = Some {| tc_id := id; tc_name := nm;
              tc_arguments := VStr (a ++ concat ds) |}
    /\ count_key i (accumulate_all m evs) = 1%nat.
Proof.
  intros Hevs Hi.
  induction Hevs as [|cet parsed d evs ds Hd _ IH|cet parsed evs ds He _ IH];
    intros m id nm a Hget Hcount.
  - cbn. rewrite app_nil_r. split; assumption.
  - cbn [accumulate_all fold_left fst snd concat].
    change (fold_left _ evs ?m0) with (accumulate_all m0 evs).
    destruct (accumulate_delta cet parsed i d m _ a Hd Hget eq_refl)
      as [ [-> ->] | -> ].
    + cbn [app]. apply IH; assumption.
    + cbn [tc_id tc_name]. rewrite app_assoc. apply IH.
      * apply map_get_set_same, Hi.
      * rewrite count_key_set_same, Hget by exact Hi. exact Hcount.
  - cbn [accumulate_all fold_left fst snd].
    change (fold_left _ evs ?m0) with (accumulate_all m0 evs).
    destruct (accumulate_elsewhere cet parsed i m He) as [Hg Hc].
    apply IH; [rewrite Hg | rewrite Hc]; assumption.
Qed.

(** C5.  Tool-call accumulation by concatenation: whatever frames came
    before, once a tool-call-start event at index [i] with initial
    arguments [s] is followed by frames that hold, at index [i], the
    deltas [d1 .. dk] in this order and no other start (frames at other
    indexes and frames of other kinds may come in between), the
    accumulator holds exactly one fragment at index [i]; its arguments are
    [s ++ d1 ++ .. ++ dk] and its id and name are those of the start
    event. *)
Theorem tool_call_accumulation
    (pre : list (value * value)) (cet start i id nm : value) (s : jstring)
    (evs : list (value * value)) (ds : list jstring) :
  primitive i = true ->
  is_start cet start i id nm s ->
  deltas_at i evs ds ->
  map_get i (accumulate_all [] (pre ++ (cet, start) :: evs))
  = Some {| tc_id := id; tc_name := nm;
            tc_arguments := VStr (s ++ concat ds) |}
  /\ count_key i (accumulate_all [] (pre ++ (cet, start) :: evs)) = 1%nat.
Proof.
  intros Hi Hstart Hevs.
  rewrite accumulate_all_app.
  set (m0 := accumulate_all [] pre).
  assert (Hm0 : distinct_keys m0).
  { apply accumulate_all_distinct. intros k. reflexivity. }
  change (accumulate_all m0 ((cet, start) :: evs))
    with (accumulate_all (accumulate cet m0 start) evs).
  rewrite (accumulate_start _ _ _ _ _ _ m0 Hstart).
  apply (accumulate_deltas i evs ds Hevs Hi).
  - apply map_get_set_same, Hi.
  - rewrite count_key_set_same by exact Hi.
    specialize (Hm0 i). destruct (map_get i m0); [exact Hm0 | reflexivity].
Qed.

(** C6.  Orphan delta: a line that parses to a tool-call-delta event
    whose index has no fragment in the accumulator leaves the accumulator
    (and the rest of the decoder state) as it is, has no effect, and the
    loop goes on to the next line. *)
Theorem orphan_delta_dropped {W : Type}
    (handle : list fragment -> value -> @service W -> @service W * bool)
    (subject : nat) (line : jstring) (parsed : value) (d : decoder)
    (s : service) :
  frame_of_line line = FParsed parsed ->
  event_type (currentEventType d) parsed = VStr (str "tool-call-delta") ->
  map_get (prop parsed (str "index")) (toolCallsMap d) = None ->
  accumulate (currentEventType d) (toolCallsMap d) parsed = toolCallsMap d
  /\ process_line handle subject line d s = Continue d s.
Proof.
  intros Hline Ht Hget.
  assert (Hd : dispatch parsed (currentEventType d) (toolCallsMap d)
               = ANothing).
  { unfold dispatch. fold (event_type (currentEventType d) parsed).
    cbv zeta. rewrite Ht. eval_tests. rewrite Hget. reflexivity. }
  split.
  - unfold accumulate. rewrite Hd. reflexivity.
  - unfold process_line. rewrite Hline, Hd. reflexivity.
Qed.

(* ===================================================================== *)
(** * The tool executor *)
(* ===================================================================== *)

Section Executor.

Context {W : Type}.
Variable syntax_error_message : jstring -> jstring.

Lemma start_call_for (cfg : @config W) (call : fragment) (s : @service W) :
  started_for call (fst (start_call syntax_error_message cfg call s)).
Proof.
  unfold start_call.
  destruct (toolCache s !! cacheKey call); [cbn; eauto|].
  destruct (find_handler cfg call) as [h|]; [|cbn; eauto].
  destruct (JSON_parse _); [|cbn; eauto].
  destruct (h v (world s)). exact I.
Qed.

Lemma start_calls_for (cfg : @config W) (calls : list fragment)
    (s : @service W) :
  Forall2 (fun call cs => fst cs = call /\ started_for call (snd cs))
          calls (fst (start_calls syntax_error_message cfg calls s)).
Proof.
  revert s. induction calls as [|call rest IH]; intros s; cbn [start_calls].
  - constructor.
  - pose proof (start_call_for cfg call s) as Hc.
    destruct (start_call syntax_error_message cfg call s) as [st s1].
    specialize (IH s1).
    destruct (start_calls syntax_error_message cfg rest s1) as [sts s2].
    constructor; [split; [reflexivity | exact Hc] | exact IH].
Qed.




End Executor.


Section ExecutorState.

Context {W : Type}.
Variable syntax_error_message : jstring -> jstring.

Lemma executeToolCalls_single (cfg : @config W) (call : fragment)
    (s : @service W) :
  executeToolCalls syntax_error_message cfg [call] s =
  let '(st, s1) := start_call syntax_error_message cfg call s in
  let '(m, s2) := finish_call call st s1 in
  ([m], s2).
Proof.
  unfold executeToolCalls. cbn [start_calls].
  destruct (start_call syntax_error_message cfg call s) as [st s1].
  cbn [finish_calls]. destruct (finish_call call st s1) as [m s2].
  reflexivity.
Qed.

(** Up to its [await] a callback reads the cache and does not write it. *)
Lemma start_call_cache (cfg : @config W) (call : fragment) (s : @service W) :
  toolCache (snd (start_call syntax_error_message cfg call s)) = toolCache s.
Proof.
  unfold start_call.
  destruct (toolCache s !! cacheKey call); [reflexivity|].
  destruct (find_handler cfg call) as [h|]; [|reflexivity].
  destruct (JSON_parse _) as [params|]; [|reflexivity].
  destruct (h params (world s)). reflexivity.
Qed.

Lemma start_calls_cache (cfg : @config W) (calls : list fragment)
    (s : @service W) :
  toolCache (snd (start_calls syntax_error_message cfg calls s)) = toolCache s.
Proof.
  revert s. induction calls as [|call rest IH]; intros s; cbn [start_calls];
    [reflexivity|].
  pose proof (start_call_cache cfg call s) as Hc.
  destruct (start_call syntax_error_message cfg call s) as [st s1].
  specialize (IH s1).
  destruct (start_calls syntax_error_message cfg rest s1) as [sts s2].
  cbn [snd] in *. congruence.
Qed.

Lemma start_calls_app (cfg : @config W) (l1 l2 : list fragment)
    (s : @service W) :
  start_calls syntax_error_message cfg (l1 ++ l2) s =
  let '(a, s1) := start_calls syntax_error_message cfg l1 s in
  let '(b, s2) := start_calls syntax_error_message cfg l2 s1 in
  (a ++ b, s2).
Proof.
  revert s. induction l1 as [|call l1 IH]; intros s; cbn [app start_calls].
  - destruct (start_calls syntax_error_message cfg l2 s). reflexivity.
  - destruct (start_call syntax_error_message cfg call s) as [st s1].
    rewrite IH.
    destruct (start_calls syntax_error_message cfg l1 s1) as [a s2].
    destruct (start_calls syntax_error_message cfg l2 s2) as [b s3].
    reflexivity.
Qed.

Lemma start_calls_length (cfg : @config W) (calls : list fragment)
    (s : @service W) :
  length (fst (start_calls syntax_error_message cfg calls s)) = length calls.
Proof.
  pose proof (start_calls_for syntax_error_message cfg calls s) as H.
  symmetry. eapply Forall2_length, H.
Qed.

Lemma finish_calls_app (a b : list (fragment * started)) (s : @service W) :
  finish_calls (a ++ b) s =
  let '(ma, s1) := finish_calls a s in
  let '(mb, s2) := finish_calls b s1 in
  (ma ++ mb, s2).
Proof.
  revert s. induction a as [|[call st] a IH]; intros s;
    cbn [app finish_calls].
  - destruct (finish_calls b s). reflexivity.
  - destruct (finish_call call st s) as [m s1]. rewrite IH.
    destruct (finish_calls a s1) as [ma s2].
    destruct (finish_calls b s2) as [mb s3]. reflexivity.
Qed.

Lemma finish_calls_length (sts : list (fragment * started)) (s : @service W) :
  length (fst (finish_calls sts s)) = length sts.
Proof.
  revert s. induction sts as [|[call st] sts IH]; intros s;
    cbn [finish_calls]; [reflexivity|].
  destruct (finish_call call st s) as [m s1]. specialize (IH s1).
  destruct (finish_calls sts s1) as [ms s2]. cbn [fst length] in *. lia.
Qed.

(** The message of a call that is settled before its [await] is the
    message the executor gives at the place of the call. *)
Lemma executeToolCalls_settled (cfg : @config W) (pre post : list fragment)
    (call : fragment) (s : @service W) (m : value) :
  (forall s1 : @service W, toolCache s1 = toolCache s ->
     start_call syntax_error_message cfg call s1 = (Settled m, s1)) ->
  nth_error (fst (executeToolCalls syntax_error_message cfg
                    (pre ++ call :: post) s)) (length pre) = Some m.
Proof.
  intros Hcall. unfold executeToolCalls. rewrite start_calls_app.
  pose proof (start_calls_cache cfg pre s) as Hc.
  pose proof (start_calls_length cfg pre s) as Hl.
  destruct (start_calls syntax_error_message cfg pre s) as [a s1].
  cbn [fst snd] in Hc, Hl. cbn [start_calls]. rewrite (Hcall s1 Hc).
  destruct (start_calls syntax_error_message cfg post s1) as [b s2].
  rewrite finish_calls_app.
  pose proof (finish_calls_length a s2) as Hla.
  destruct (finish_calls a s2) as [ma s3]. cbn [fst] in Hla.
  cbn [finish_calls finish_call].
  destruct (finish_calls b s3) as [mb s4]. cbn [fst].
  rewrite nth_error_app2 by lia.
  replace (length pre - length ma)%nat with 0%nat by lia. reflexivity.
Qed.

End ExecutorState.

(** C7 as it is stated fails.  With no tool registered, the error string
    of the result of the sample call starts with the name of the error
    ([String(err)] of an [Error]): it is not the bare message.  And once
    the call has been executed with its tool registered, executing it with
    no tool registered gives the cached result list, not an error. *)
Lemma unknown_tool_error_string_counterexample :
  find_handler bare_config demo_call = None
  /\ (exists m,
        fst (executeToolCalls demo_syntax_error bare_config [demo_call]
               (new_service 0%nat)) = [m]
        /\ prop m (str "content") <>
           JSON_stringify
             (VObj [(str "error",
                     VStr (str "Tool handler for " ++ [34] ++ str "lookup"
                           ++ [34] ++ str " not found"))]))
  /\ (let s1 := snd (executeToolCalls demo_syntax_error demo_config
                       [demo_call] (new_service 0%nat)) in
      exists m,
        fst (executeToolCalls demo_syntax_error bare_config [demo_call] s1)
        = [m]
        /\ prop m (str "content") = VStr (str_q "[{'q':1,'calls':1}]")).
Proof.
  split; [reflexivity|]. split.
  - eexists. split; [vm_compute; reflexivity|].
    vm_compute. discriminate.
  - cbv zeta. eexists. split; vm_compute; reflexivity.
Qed.

(** C7, amended.  A call whose name matches no registered tool, or a tool
    without handler, and whose key is not in the cache, has in the
    results, at its own place, the tool message whose content is the JSON
    text of [{ error: 'Error: Tool handler for "<name>" not found' }];
    executing it stores nothing in the cache. *)
Theorem unknown_tool_error_result {W : Type}
    (syntax_error_message : jstring -> jstring)
    (cfg : @config W) (pre post : list fragment) (call : fragment)
    (s : service) :
  find_handler cfg call = None ->
  toolCache s !! cacheKey call = None ->
  (exists m,
     nth_error (fst (executeToolCalls syntax_error_message cfg
                       (pre ++ call :: post) s)) (length pre) = Some m
     /\ prop m (str "role") = VStr (str "tool")
     /\ prop m (str "tool_call_id") = tc_id call
     /\ prop m (str "content") =
        JSON_stringify
          (VObj [(str "error",
                  VStr (str "Error: Tool handler for " ++ [34]
                        ++ ToString (tc_name call) ++ [34]
                        ++ str " not found"))]))
  /\ toolCache (snd (executeToolCalls syntax_error_message cfg [call] s))
     = toolCache s.
Proof.
  intros Hh Hc.
  assert (Hstart : forall s1 : @service W, toolCache s1 = toolCache s ->
            start_call syntax_error_message cfg call s1 =
            (Settled (wrapToolResult (tc_id call)
                        (error_result (handler_not_found call))), s1)).
  { intros s1 Hs1. unfold start_call. rewrite Hs1, Hc, Hh. reflexivity. }
  split.
  - eexists. split; [apply executeToolCalls_settled, Hstart|].
    repeat split; reflexivity.
  - rewrite executeToolCalls_single, (Hstart s eq_refl). reflexivity.
Qed.

(** C2.  Cache idempotence: when the first execution of a call (its key
    not yet in the cache) finds its handler, parses its arguments and the
    handler returns, a second execution of a call with the same name and
    arguments gives the result list stored under
    [name + ":" + ensureJsonString(arguments)] and does not invoke the
    handler: over both executions the handler is invoked exactly once,
    and the world is as the one invocation left it. *)
Theorem cache_idempotence {W : Type}
    (syntax_error_message : jstring -> jstring)
    (cfg cfg' : @config W) (c1 c2 : fragment) (s : service)
    (h : handler) (params r : value) (w' : W) :
  tc_name c2 = tc_name c1 ->
  tc_arguments c2 = tc_arguments c1 ->
  toolCache s !! cacheKey c1 = None ->
  find_handler cfg c1 = Some h ->
  JSON_parse (ToString (ensureJsonString (tc_arguments c1))) = Some params ->
  h params (world s) = (Returned r, w') ->
  let '(_, s1) := executeToolCalls syntax_error_message cfg [c1] s in
  let '(results2, s2) := executeToolCalls syntax_error_message cfg' [c2] s1 in
  effects s2 = effects s ++ [Invoke c1 params (Returned r)]
  /\ world s2 = w'
  /\ toolCache s1 !! (ToString (tc_name c1) ++ str ":"
                      ++ ToString (ensureJsonString (tc_arguments c1)))
     = Some (as_array r)
  /\ results2 = [wrapToolResult (tc_id c2) (as_array r)].
Proof.
  intros Hn Ha Hmiss Hh Hp Hr.
  rewrite executeToolCalls_single. unfold start_call at 1.
  rewrite Hmiss, Hh, Hp, Hr. cbn [finish_call].
  rewrite executeToolCalls_single. unfold start_call.
  assert (Hk : cacheKey c2 = cacheKey c1)
    by (unfold cacheKey; rewrite Hn, Ha; reflexivity).
  rewrite Hk. cbn [toolCache set_toolCache].
  rewrite lookup_insert_eq. cbn [finish_call].
  repeat split. apply lookup_insert_eq.
Qed.

Section CacheInvariant.

Context {W : Type}.
Variable syntax_error_message : jstring -> jstring.

Lemma start_call_log (cfg : @config W) (call : fragment) (s : @service W) :
  exists new,
    effects (snd (start_call syntax_error_message cfg call s))
    = effects s ++ new
    /\ forall key r,
         fst (start_call syntax_error_message cfg call s)
         = Awaiting key (Returned r) ->
         key = cacheKey call
         /\ exists params, In (Invoke call params (Returned r)) new.
Proof.
  unfold start_call.
  destruct (toolCache s !! cacheKey call);
    [exists []; rewrite app_nil_r; split; [reflexivity | discriminate]|].
  destruct (find_handler cfg call) as [h|];
    [|exists []; rewrite app_nil_r; split; [reflexivity | discriminate]].
  destruct (JSON_parse _) as [params|];
    [|exists []; rewrite app_nil_r; split; [reflexivity | discriminate]].
  destruct (h params (world s)) as [o w'].
  exists [Invoke call params o]. split; [reflexivity|].
  cbn [fst]. intros key r [= <- ->]. split; [reflexivity|].
  exists params. left. reflexivity.
Qed.

Lemma start_calls_log (cfg : @config W) (calls : list fragment)
    (s : @service W) :
  exists new,
    effects (snd (start_calls syntax_error_message cfg calls s))
    = effects s ++ new
    /\ forall call key r,
         In (call, Awaiting key (Returned r))
            (fst (start_calls syntax_error_message cfg calls s)) ->
         In call calls /\ key = cacheKey call
         /\ exists params, In (Invoke call params (Returned r)) new.
Proof.
  revert s. induction calls as [|c rest IH]; intros s; cbn [start_calls].
  - exists []. rewrite app_nil_r. split; [reflexivity|]. intros ? ? ? [].
  - destruct (start_call_log cfg c s) as (n1 & He1 & H1).
    destruct (start_call syntax_error_message cfg c s) as [st s1].
    destruct (IH s1) as (n2 & He2 & H2).
    destruct (start_calls syntax_error_message cfg rest s1) as [sts s2].
    cbn [fst snd] in *. exists (n1 ++ n2). split.
    + rewrite He2, He1, app_assoc. reflexivity.
    + intros call key r [E|Hin].
      * injection E as <- ->. destruct (H1 key r eq_refl) as (-> & p & Hp).
        split; [left; reflexivity|]. split; [reflexivity|].
        exists p. apply in_or_app. left. exact Hp.
      * destruct (H2 call key r Hin) as (Hc & -> & p & Hp).
        split; [right; exact Hc|]. split; [reflexivity|].
        exists p. apply in_or_app. right. exact Hp.
Qed.

(** Resuming the callbacks writes the cache only for the handlers that
    returned, and has no effect of its own. *)
Lemma finish_calls_cache (sts : list (fragment * started)) (s : @service W) :
  effects (snd (finish_calls sts s)) = effects s
  /\ forall k v,
       toolCache (snd (finish_calls sts s)) !! k = Some v ->
       toolCache s !! k = Some v
       \/ exists call r, In (call, Awaiting k (Returned r)) sts
                         /\ v = as_array r.
Proof.
  revert s. induction sts as [|[call st] sts IH]; intros s;
    cbn [finish_calls].
  - split; [reflexivity|]. intros k v H. left. exact H.
  - destruct (finish_call call st s) as [m s1] eqn:Ef.
    destruct (IH s1) as [He Hc].
    destruct (finish_calls sts s1) as [ms s2]. cbn [snd] in *.
    assert (Hs1 : effects s1 = effects s
                  /\ forall k v, toolCache s1 !! k = Some v ->
                       toolCache s !! k = Some v
                       \/ exists r, st = Awaiting k (Returned r)
                                    /\ v = as_array r).
    { destruct st as [m0|key [r|t]]; cbn in Ef; injection Ef as <- <-;
        (split; [reflexivity|]); intros k v Hk; try (left; exact Hk).
      cbn [toolCache set_toolCache] in Hk.
      destruct (decide (key = k)) as [->|Hne].
      - rewrite lookup_insert_eq in Hk. injection Hk as <-.
        right. exists r. split; reflexivity.
      - rewrite lookup_insert_ne in Hk by exact Hne. left. exact Hk. }
    destruct Hs1 as [He1 Hc1]. split; [congruence|].
    intros k v Hk. destruct (Hc k v Hk) as [Hold|(c & r & Hin & ->)].
    + destruct (Hc1 k v Hold) as [Hold'|(r & -> & ->)]; [left; exact Hold'|].
      right. exists call, r. split; [left; reflexivity | reflexivity].
    + right. exists c, r. split; [right; exact Hin | reflexivity].
Qed.

Lemma executeToolCalls_cache (cfg : @config W) (calls : list fragment)
    (s : @service W) :
  exists new,
    effects (snd (executeToolCalls syntax_error_message cfg calls s))
    = effects s ++ new
    /\ forall k v,
         toolCache (snd (executeToolCalls syntax_error_message cfg calls s))
           !! k = Some v ->
         toolCache s !! k = Some v
         \/ exists call params r,
              In call calls /\ cacheKey call = k
              /\ In (Invoke call params (Returned r)) new
              /\ v = as_array r.
Proof.
  unfold executeToolCalls.
  destruct (start_calls_log cfg calls s) as (new & He & Hlog).
  pose proof (start_calls_cache syntax_error_message cfg calls s) as Hcache.
  destruct (start_calls syntax_error_message cfg calls s) as [sts s1].
  cbn [fst snd] in *.
  destruct (finish_calls_cache sts s1) as [He2 Hc].
  exists new. split; [congruence|].
  intros k v Hk. destruct (Hc k v Hk) as [Hold|(call & r & Hin & ->)].
  - left. rewrite <- Hcache. exact Hold.
  - destruct (Hlog call k r Hin) as (Hc1 & -> & p & Hp).
    right. exists call, p, r. repeat split; assumption.
Qed.

Lemma start_call_invokes (cfg : @config W) (call : fragment)
    (s : @service W) :
  exists new,
    effects (snd (start_call syntax_error_message cfg call s))
    = effects s ++ new
    /\ forall e, In e new ->
         toolCache s !! cacheKey call = None
         /\ exists params o, e = Invoke call params o.
Proof.
  unfold start_call.
  destruct (toolCache s !! cacheKey call) eqn:Hc;
    [exists []; rewrite app_nil_r; split; [reflexivity | intros ? []]|].
  destruct (find_handler cfg call) as [h|];
    [|exists []; rewrite app_nil_r; split; [reflexivity | intros ? []]].
  destruct (JSON_parse _) as [params|];
    [|exists []; rewrite app_nil_r; split; [reflexivity | intros ? []]].
  destruct (h params (world s)) as [o w'].
  exists [Invoke call params o]. split; [reflexivity|].
  intros e [<-|[]]. split; [reflexivity | eauto].
Qed.

(** In a run of the executor the only effects are handler invocations,
    and only for calls whose key was not in the cache when the run
    started. *)
Lemma cached_calls_not_invoked (cfg : @config W) (calls : list fragment)
    (s : @service W) :
  exists new,
    effects (snd (executeToolCalls syntax_error_message cfg calls s))
    = effects s ++ new
    /\ forall e, In e new ->
         exists call params o,
           e = Invoke call params o /\ In call calls
           /\ toolCache s !! cacheKey call = None.
Proof.
  unfold executeToolCalls.
  assert (H : exists new,
            effects (snd (start_calls syntax_error_message cfg calls s))
            = effects s ++ new
            /\ forall e, In e new ->
                 exists call params o,
                   e = Invoke call params o /\ In call calls
                   /\ toolCache s !! cacheKey call = None).
  { revert s. induction calls as [|c rest IH]; intros s; cbn [start_calls].
    - exists []. rewrite app_nil_r. split; [reflexivity | intros ? []].
    - destruct (start_call_invokes cfg c s) as (n1 & He1 & H1).
      pose proof (start_call_cache syntax_error_message cfg c s) as Hc.
      destruct (start_call syntax_error_message cfg c s) as [st s1].
      destruct (IH s1) as (n2 & He2 & H2).
      destruct (start_calls syntax_error_message cfg rest s1) as [sts s2].
      cbn [fst snd] in *. exists (n1 ++ n2). split.
      + rewrite He2, He1, app_assoc. reflexivity.
      + intros e Hin. apply in_app_or in Hin. destruct Hin as [Hin|Hin].
        * destruct (H1 e Hin) as (Hmiss & p & o & ->).
          exists c, p, o. repeat split; [left; reflexivity | exact Hmiss].
        * destruct (H2 e Hin) as (call & p & o & -> & Hcall & Hmiss).
          exists call, p, o. repeat split; [right; exact Hcall|].
          rewrite <- Hc. exact Hmiss. }
  destruct H as (new & He & Hn).
  destruct (start_calls syntax_error_message cfg calls s) as [sts s1].
  cbn [snd] in He. destruct (finish_calls_cache sts s1) as [He2 _].
  exists new. split; [congruence | exact Hn].
Qed.

(** A failing call leaves the cache as it is. *)
Lemma failing_call_cache (cfg : @config W) (call : fragment) (s : @service W) :
  call_fails cfg call s ->
  toolCache s !! cacheKey call = None ->
  toolCache (snd (executeToolCalls syntax_error_message cfg [call] s))
  = toolCache s.
Proof.
  intros Hfail Hmiss. rewrite executeToolCalls_single. unfold start_call.
  rewrite Hmiss.
  destruct Hfail as [Hh|[Hp|(h & params & t & w' & Hh & Hp & Hr)]].
  - rewrite Hh. reflexivity.
  - destruct (find_handler cfg call); [rewrite Hp|]; reflexivity.
  - rewrite Hh, Hp, Hr. reflexivity.
Qed.

End CacheInvariant.

(** C10.  Failed tool invocations are never cached.  After a run of the
    executor every entry of the cache was there before, or holds the
    result list of a handler invocation of this run that returned, under
    the key of its call.  So a call that fails (tool not registered,
    arguments that do not parse, or a handler that throws) leaves no
    entry under its key, and executing a call with the same name and
    arguments again, now with a handler registered, invokes that handler
    instead of replaying the error. *)
Theorem failures_not_cached {W : Type}
    (syntax_error_message : jstring -> jstring)
    (cfg cfg' : @config W) (calls : list fragment) (c1 c2 : fragment)
    (s : service) :
  (exists new,
     effects (snd (executeToolCalls syntax_error_message cfg calls s))
     = effects s ++ new
     /\ forall k v,
          toolCache (snd (executeToolCalls syntax_error_message cfg calls s))
            !! k = Some v ->
          toolCache s !! k = Some v
          \/ exists call params r,
               In call calls /\ cacheKey call = k
               /\ In (Invoke call params (Returned r)) new
               /\ v = as_array r)
  /\ (call_fails cfg c1 s ->
      toolCache s !! cacheKey c1 = None ->
      tc_name c2 = tc_name c1 ->
      tc_arguments c2 = tc_arguments c1 ->
      let s1 := snd (executeToolCalls syntax_error_message cfg [c1] s) in
      toolCache s1 !! cacheKey c1 = None
      /\ forall h params,
           find_handler cfg' c2 = Some h ->
           JSON_parse (ToString (ensureJsonString (tc_arguments c2)))
           = Some params ->
           effects (snd (executeToolCalls syntax_error_message cfg' [c2] s1))
           = effects s1
             ++ [Invoke c2 params (fst (h params (world s1)))]).
Proof.
  split; [apply executeToolCalls_cache|].
  intros Hfail Hmiss Hn Ha s1.
  assert (Hc : toolCache s1 = toolCache s)
    by (apply failing_call_cache; assumption).
  split; [rewrite Hc; exact Hmiss|].
  intros h params Hh Hp.
  assert (Hk : cacheKey c2 = cacheKey c1)
    by (unfold cacheKey; rewrite Hn, Ha; reflexivity).
  rewrite executeToolCalls_single. unfold start_call.
  rewrite Hk, Hc, Hmiss, Hh, Hp.
  destruct (h params (world s1)) as [[r|t] w']; reflexivity.
Qed.

(* ===================================================================== *)
(** * The continuation request *)
(* ===================================================================== *)

Section Continuation.

Context {W : Type}.
Variable syntax_error_message : jstring -> jstring.

Lemma grows_refl (s : @service W) : grows s s.
Proof. exists []. rewrite app_nil_r. reflexivity. Qed.

Lemma grows_trans (s1 s2 s3 : @service W) :
  grows s1 s2 -> grows s2 s3 -> grows s1 s3.
Proof.
  intros [n1 H1] [n2 H2]. exists (n1 ++ n2).
  rewrite H2, H1, app_assoc. reflexivity.
Qed.

Lemma grows_emit (e : effect) (s : @service W) : grows s (emit e s).
Proof. exists [e]. reflexivity. Qed.

Lemma executeToolCalls_grows (cfg : @config W) (calls : list fragment)
    (s : @service W) :
  grows s (snd (executeToolCalls syntax_error_message cfg calls s)).
Proof.
  destruct (executeToolCalls_cache syntax_error_message cfg calls s)
    as (new & He & _).
  exists new. exact He.
Qed.

Lemma handleToolCalls_grows
    (request : request_body -> @service W -> @service W)
    (toolCalls : list fragment) (message : value) (cfg : @config W)
    (previous : list value) (s : @service W) :
  (forall body s0, grows s0 (request body s0)) ->
  grows s (fst (handleToolCalls syntax_error_message request toolCalls
                  message cfg previous s)).
Proof.
  intros Hreq. unfold handleToolCalls.
  pose proof (executeToolCalls_grows cfg toolCalls s) as He.
  destruct (executeToolCalls syntax_error_message cfg toolCalls s)
    as [results s1].
  cbn [snd] in He.
  destruct (tool_call_refs message toolCalls); cbn [fst]; [|exact He].
  eapply grows_trans; [exact He | apply Hreq].
Qed.

Lemma process_line_grows
    (handle : list fragment -> value -> @service W -> @service W * bool)
    (subject : nat) (line : jstring) (d : decoder) (s : @service W) :
  (forall tcs m s0, grows s0 (fst (handle tcs m s0))) ->
  result_grows s (process_line handle subject line d s).
Proof.
  intros Hh. unfold process_line.
  destruct (frame_of_line line); try apply grows_refl.
  destruct (dispatch _ _ _) as [|text|calls|tcs message|];
    try apply grows_refl; try apply grows_emit.
  destruct tcs as [|tc tcs]; [apply grows_emit|].
  specialize (Hh (tc :: tcs) message s).
  destruct (handle (tc :: tcs) message s) as [s1 [|]]; exact Hh.
Qed.

Lemma process_lines_grows
    (handle : list fragment -> value -> @service W -> @service W * bool)
    (subject : nat) (lines : list jstring) (d : decoder) (s : @service W) :
  (forall tcs m s0, grows s0 (fst (handle tcs m s0))) ->
  result_grows s (process_lines handle subject lines d s).
Proof.
  intros Hh. revert d s.
  induction lines as [|l lines IH]; intros d s; cbn [process_lines];
    [apply grows_refl|].
  pose proof (process_line_grows handle subject l d s Hh) as Hl.
  destruct (process_line handle subject l d s) as [d1 s1|s1]; [|exact Hl].
  specialize (IH d1 s1).
  destruct (process_lines handle subject lines d1 s1);
    cbn in *; eapply grows_trans; eassumption.
Qed.

Lemma read_loop_grows
    (handle : list fragment -> value -> @service W -> @service W * bool)
    (subject : nat) (chunks : list jstring) (ending : stream_end)
    (buffer : jstring) (d : decoder) (s : @service W) :
  (forall tcs m s0, grows s0 (fst (handle tcs m s0))) ->
  grows s (fst (read_loop handle subject chunks ending buffer d s)).
Proof.
  intros Hh. revert buffer d s.
  induction chunks as [|c cs IH]; intros buffer d s; cbn [read_loop].
  - destruct ending; [apply grows_emit | apply grows_refl].
  - pose proof (process_lines_grows handle subject
                  (removelast (split_nl (buffer ++ c))) d s Hh) as Hl.
    destruct (process_lines handle subject _ d s) as [d1 s1|s1];
      [|exact Hl].
    eapply grows_trans; [exact Hl | apply IH].
Qed.

Lemma request_failed_grows (subject : nat) (e : error) (s : @service W) :
  grows s (request_failed subject e s).
Proof.
  unfold request_failed. destruct (jstring_eqb _ _); apply grows_emit.
Qed.

Lemma processRequest_grows (net : list response) (cfg : @config W)
    (subject : nat) :
  forall (body : request_body) (s : @service W),
    grows (emit (Fetch (apiUrl cfg) (str "Bearer " ++ ToString (apiKey cfg))
                   body (abortController s)) s)
          (processRequest syntax_error_message net cfg subject body s).
Proof.
  induction net as [|r net IH]; intros body s; cbn [processRequest].
  - apply grows_refl.
  - destruct r as [e|ok status text stream_body];
      [apply request_failed_grows|].
    destruct ok; cbn [negb]; [|apply request_failed_grows].
    destruct stream_body as [[chunks ending]|]; [|apply request_failed_grows].
    unfold readStream.
    match goal with
    | |- context [read_loop ?h subject chunks ending [] ?d ?s0] =>
        pose proof (read_loop_grows h subject chunks ending [] d s0) as Hr;
        destruct (read_loop h subject chunks ending [] d s0) as [s1 [e|]]
    end.
    + eapply grows_trans; [|apply request_failed_grows].
      apply Hr. intros tcs m s0. apply handleToolCalls_grows.
      intros b s2. eapply grows_trans; [apply grows_emit | apply IH].
    + apply Hr. intros tcs m s0. apply handleToolCalls_grows.
      intros b s2. eapply grows_trans; [apply grows_emit | apply IH].
Qed.

(** A request starts with its [fetch]. *)
Lemma processRequest_fetch (net : list response) (cfg : @config W)
    (subject : nat) (body : request_body) (s : @service W) :
  exists rest,
    effects (processRequest syntax_error_message net cfg subject body s)
    = effects s
      ++ Fetch (apiUrl cfg) (str "Bearer " ++ ToString (apiKey cfg)) body
               (abortController s) :: rest.
Proof.
  destruct (processRequest_grows net cfg subject body s) as [rest H].
  exists rest. rewrite H. cbn [emit effects]. rewrite <- app_assoc.
  reflexivity.
Qed.

End Continuation.

(** With no [tool_calls] in the message of the event, the references are
    those of the accumulated calls, and building them does not throw. *)
Lemma tool_call_refs_accumulated (message : value)
    (toolCalls : list fragment) :
  truthy (prop message (str "tool_calls")) = false ->
  exists refs,
    tool_call_refs message toolCalls = Some refs
    /\ length refs = length toolCalls.
Proof.
  intros Hf. unfold tool_call_refs. rewrite Hf.
  induction toolCalls as [|tc tcs (refs & IH & Hl)];
    [exists []; split; reflexivity|].
  cbn [List.map mapM]. rewrite IH. cbn.
  eexists. split; [reflexivity|]. cbn [length]. rewrite Hl. reflexivity.
Qed.


(* ===================================================================== *)
(** * The cancellation gate *)
(* ===================================================================== *)

Section GateProofs.

Context {W : Type}.

(** [stopStream] with no controller set does nothing. *)
Lemma stopStream_idle (s : @service W) :
  abortController s = None -> stopStream s = s.
Proof.
  intros H. unfold stopStream. rewrite H. destruct s; cbn in *. congruence.
Qed.

(** [stopStream] aborts the controller that is set, and clears the slot. *)
Lemma stopStream_set (s : @service W) (c : nat) :
  abortController s = Some c ->
  abortController (stopStream s) = None
  /\ effects (stopStream s) = effects s ++ [Abort c].
Proof. intros H. unfold stopStream. rewrite H. split; reflexivity. Qed.

(** A request that ends on an AbortError completes its subject. *)
Lemma request_failed_abort (subject : nat) (e : error) (s : @service W) :
  err_name e = str "AbortError" ->
  request_failed subject e s = emit (Complete subject) s.
Proof. intros H. unfold request_failed. rewrite H. reflexivity. Qed.

Lemma aborted_emit (e : effect) (s : @service W) (c : nat) :
  aborted (emit e s) c =
  aborted s c || match e with Abort c' => Nat.eqb c' c | _ => false end.
Proof.
  unfold aborted, emit. cbn [effects]. rewrite existsb_app. cbn [existsb].
  rewrite orb_false_r. reflexivity.
Qed.

Lemma aborted_stopStream (s : @service W) (c : nat) :
  aborted (stopStream s) c =
  aborted s c || match abortController s with
                 | Some c' => Nat.eqb c' c
                 | None => false
                 end.
Proof.
  unfold stopStream. destruct (abortController s) as [c'|].
  - apply (aborted_emit (Abort c') s c).
  - rewrite orb_false_r. reflexivity.
Qed.

Lemma signal_at_insert_same (l : list chain) (i j : nat) (ch ch' : chain) :
  l !! i = Some ch -> signal_of ch' = signal_of ch ->
  signal_at (<[i := ch']> l) j = signal_at l j.
Proof.
  intros Hi Hs. unfold signal_at. destruct (decide (j = i)) as [->|Hne].
  - rewrite list_lookup_insert_eq by (eapply lookup_lt_Some; exact Hi).
    rewrite Hi. exact Hs.
  - rewrite list_lookup_insert_ne by congruence. reflexivity.
Qed.

Lemma signal_at_insert_closed (l : list chain) (i j : nat) (b : bool)
    (sig : option nat) :
  signal_at (<[i := Closed b]> l) j = Some sig ->
  signal_at l j = Some sig.
Proof.
  unfold signal_at. destruct (decide (j = i)) as [->|Hne].
  - destruct (decide (i < length l)%nat) as [Hlt|Hge].
    + rewrite list_lookup_insert_eq by exact Hlt. discriminate.
    + rewrite list_insert_ge by lia. auto.
  - rewrite list_lookup_insert_ne by congruence. auto.
Qed.

Lemma gate_inv_same_signals (g : @gate W) (i : nat) (ch ch' : chain) :
  chains g !! i = Some ch -> signal_of ch' = signal_of ch ->
  gate_inv g -> gate_inv (set_chain i ch' g).
Proof.
  intros Hi Hs (I1 & I2 & I3 & I4). unfold gate_inv, set_chain.
  cbn [svc chains]. repeat split; try assumption.
  - intros j sig. rewrite (signal_at_insert_same _ i j ch ch' Hi Hs).
    apply I1.
  - intros j k c.
    rewrite !(signal_at_insert_same _ i _ ch ch' Hi Hs). apply I2.
Qed.

Lemma gate_inv_closed (g : @gate W) (i : nat) (b : bool) :
  gate_inv g -> gate_inv (set_chain i (Closed b) g).
Proof.
  intros (I1 & I2 & I3 & I4). unfold gate_inv, set_chain.
  cbn [svc chains]. repeat split; try assumption.
  - intros j sig H. apply (I1 j), (signal_at_insert_closed _ i j b), H.
  - intros j k c Hj Hk.
    apply (I2 j k c); eapply signal_at_insert_closed; eassumption.
Qed.

Lemma gate_inv_stopStream (g : @gate W) :
  gate_inv g -> gate_inv {| svc := stopStream (svc g); chains := chains g |}.
Proof.
  intros (I1 & I2 & I3 & I4). unfold gate_inv. cbn [svc chains].
  assert (Hc : controllers (stopStream (svc g)) = controllers (svc g))
    by (unfold stopStream; destruct (abortController (svc g)); reflexivity).
  assert (Hs : abortController (stopStream (svc g)) = None)
    by (unfold stopStream; destruct (abortController (svc g)); reflexivity).
  rewrite Hc, Hs. repeat split; try assumption; [|discriminate].
  intros c Hlt. left. rewrite aborted_stopStream.
  destruct (I3 c Hlt) as [Ha|Hslot].
  - rewrite Ha. reflexivity.
  - rewrite Hslot, Nat.eqb_refl. apply orb_true_r.
Qed.

Lemma signal_at_app_new (l : list chain) (ch : chain) (i : nat) :
  signal_at (l ++ [ch]) i =
  if decide (i = length l) then signal_of ch else signal_at l i.
Proof.
  unfold signal_at. destruct (decide (i = length l)) as [->|Hne].
  - rewrite lookup_app_r by lia. rewrite Nat.sub_diag. reflexivity.
  - destruct (decide (i < length l)%nat) as [Hlt|Hge].
    + rewrite lookup_app_l by exact Hlt. reflexivity.
    + rewrite !lookup_ge_None_2; [reflexivity | lia |].
      rewrite length_app. cbn. lia.
Qed.

Lemma gate_inv_generate (g : @gate W) :
  gate_inv g ->
  gate_inv {| svc := install_controller (svc g);
              chains := chains g
                        ++ [InFlight (abortController
                                        (install_controller (svc g)))] |}.
Proof.
  intros (I1 & I2 & I3 & I4). unfold gate_inv. cbn [svc chains].
  assert (Hc : controllers (install_controller (svc g))
               = S (controllers (svc g)))
    by (unfold install_controller, stopStream;
        destruct (abortController (svc g)); reflexivity).
  assert (Hs : abortController (install_controller (svc g))
               = Some (controllers (svc g)))
    by (unfold install_controller, stopStream;
        destruct (abortController (svc g)); reflexivity).
  assert (Ha : forall c, aborted (install_controller (svc g)) c
                         = aborted (stopStream (svc g)) c) by reflexivity.
  rewrite Hc, Hs. repeat split.
  - intros i sig. rewrite signal_at_app_new.
    destruct (decide (i = length (chains g))) as [_|_].
    + cbn. intros [= <-]. eexists. split; [reflexivity | lia].
    + intros H. destruct (I1 i sig H) as (c & -> & Hlt).
      exists c. split; [reflexivity | lia].
  - intros i j c. rewrite !signal_at_app_new.
    destruct (decide (i = length (chains g))) as [->|Hi];
      destruct (decide (j = length (chains g))) as [->|Hj]; cbn.
    + reflexivity.
    + intros [= <-] H. destruct (I1 j _ H) as (c & [= <-] & Hlt). lia.
    + intros H [= <-]. destruct (I1 i _ H) as (c & [= <-] & Hlt). lia.
    + apply I2.
  - intros c Hlt. destruct (decide (c = controllers (svc g))) as [->|Hne];
      [right; reflexivity|].
    left. rewrite Ha, aborted_stopStream.
    destruct (I3 c ltac:(lia)) as [Hab|Hslot].
    + rewrite Hab. reflexivity.
    + rewrite Hslot, Nat.eqb_refl. apply orb_true_r.
  - intros c [= <-]. lia.
Qed.

(** Every move but the continuation keeps the invariant. *)
Lemma step_gate_inv (g g' : @gate W) (m : move) :
  is_continuation m = false -> step g m = Some g' ->
  gate_inv g -> gate_inv g'.
Proof.
  intros Hm Hstep Hinv. destruct m as [| |i|i|i|i|i|i]; cbn in Hm, Hstep;
    try discriminate.
  - injection Hstep as <-. apply gate_inv_stopStream, Hinv.
  - injection Hstep as <-. apply gate_inv_generate, Hinv.
  - destruct (chains g !! i) as [[[c|]|sig|b]|]; try discriminate.
    destruct (aborted (svc g) c); [|discriminate].
    injection Hstep as <-. apply gate_inv_closed, Hinv.
  - destruct (chains g !! i) as [[sig|sig|b]|]; try discriminate.
    injection Hstep as <-. apply gate_inv_closed, Hinv.
  - destruct (chains g !! i) as [[sig|sig|b]|]; try discriminate.
    injection Hstep as <-. apply gate_inv_closed, Hinv.
  - destruct (chains g !! i) as [[sig|sig|b]|] eqn:Hi; try discriminate.
    injection Hstep as <-.
    apply (gate_inv_same_signals g i (InFlight sig)); auto.
  - destruct (chains g !! i) as [[sig|sig|b]|] eqn:Hi; try discriminate.
    injection Hstep as <-.
    apply (gate_inv_same_signals g i (InTools sig)); auto.
Qed.

Lemma at_most_one {A} (P : A -> bool) (l : list A) :
  (forall i j x y, l !! i = Some x -> l !! j = Some y ->
                   P x = true -> P y = true -> i = j) ->
  (length (List.filter P l) <= 1)%nat.
Proof.
  induction l as [|a l IH]; intros H; cbn [List.filter]; [cbn; lia|].
  assert (Hl : (length (List.filter P l) <= 1)%nat).
  { apply IH. intros i j x y Hi Hj Hx Hy.
    specialize (H (S i) (S j) x y Hi Hj Hx Hy). lia. }
  destruct (P a) eqn:Ha; [|exact Hl].
  assert (Hnil : List.filter P l = []).
  { destruct (List.filter P l) as [|b t] eqn:Ef; [reflexivity|].
    assert (Hb : In b (List.filter P l)) by (rewrite Ef; left; reflexivity).
    apply filter_In in Hb. destruct Hb as [Hb Pb].
    apply list_elem_of_In, list_elem_of_lookup in Hb. destruct Hb as [j Hj].
    specialize (H 0%nat (S j) a b eq_refl Hj Ha Pb). discriminate. }
  rewrite Hnil. cbn. lia.
Qed.

Lemma gate_inv_single_flight (g : @gate W) :
  gate_inv g -> (live_streams g <= 1)%nat.
Proof.
  intros (I1 & I2 & I3 & I4). unfold live_streams. apply at_most_one.
  assert (Hlive : forall i x, chains g !! i = Some x ->
            live (svc g) x = true ->
            exists c, signal_at (chains g) i = Some (Some c)
                      /\ abortController (svc g) = Some c).
  { intros i x Hi Hx. unfold signal_at. rewrite Hi.
    destruct x as [sig|sig|b]; try discriminate. cbn [signal_of].
    destruct (I1 i sig) as (c & -> & Hlt);
      [unfold signal_at; rewrite Hi; reflexivity|].
    exists c. split; [reflexivity|].
    cbn in Hx. destruct (I3 c Hlt) as [Hab|Hslot]; [|exact Hslot].
    rewrite Hab in Hx. discriminate. }
  intros i j x y Hi Hj Hx Hy.
  destruct (Hlive i x Hi Hx) as (c & Hsi & Hc).
  destruct (Hlive j y Hj Hy) as (c' & Hsj & Hc').
  assert (c' = c) by congruence. subst c'.
  exact (I2 i j c Hsi Hsj).
Qed.

Lemma run_gate_inv (moves : list move) :
  forall g g' : @gate W,
    forallb (fun m => negb (is_continuation m)) moves = true ->
    run g moves = Some g' -> gate_inv g -> gate_inv g'.
Proof.
  induction moves as [|m moves IH]; intros g g' Hm Hrun Hinv;
    cbn in Hm, Hrun.
  - injection Hrun as <-. exact Hinv.
  - apply andb_true_iff in Hm. destruct Hm as [Hm Hms].
    destruct (step g m) as [g1|] eqn:Hstep; [|discriminate].
    apply (IH g1 g' Hms Hrun).
    apply (step_gate_inv g g1 m); [|exact Hstep|exact Hinv].
    destruct (is_continuation m); [discriminate | reflexivity].
Qed.

(** As long as no chain issues a follow-up request after tool calls, a
    fresh service has at most one live stream. *)
Lemma single_flight_without_continuation (w : W) (moves : list move)
    (g : @gate W) :
  forallb (fun m => negb (is_continuation m)) moves = true ->
  run {| svc := new_service w; chains := [] |} moves = Some g ->
  (live_streams g <= 1)%nat.
Proof.
  intros Hm Hrun. apply gate_inv_single_flight.
  apply (run_gate_inv moves _ g Hm Hrun).
  unfold gate_inv. cbn [svc chains new_service controllers abortController].
  repeat split.
  - intros i sig. unfold signal_at. rewrite lookup_nil. discriminate.
  - intros i j c. unfold signal_at. rewrite lookup_nil. discriminate.
  - intros c Hlt. lia.
  - discriminate.
Qed.

End GateProofs.

(** [generateResponse] aborts the controller that is set, if any, then
    issues its request under the signal of a fresh controller. *)
Lemma generateResponse_gate {W : Type}
    (syntax_error_message : jstring -> jstring) (net : list response)
    (cfg : @config W) (msgs : list value) (s : service) :
  exists rest,
    effects (snd (generateResponse syntax_error_message net cfg msgs s))
    = effects (stopStream s)
      ++ Fetch (apiUrl cfg) (str "Bearer " ++ ToString (apiKey cfg))
               (first_body cfg msgs) (Some (controllers s)) :: rest.
Proof.
  unfold generateResponse. cbn [snd].
  match goal with
  | |- context [processRequest _ net cfg ?subj ?b ?s0] =>
      destruct (processRequest_fetch syntax_error_message net cfg subj b s0)
        as [rest Hr]
  end.
  exists rest. rewrite Hr. cbn [effects abortController install_controller].
  unfold stopStream. destruct (abortController s); reflexivity.
Qed.

(** C9, on the code.  The slot is handled as the claim says
    ([stopStream_idle], [stopStream_set], [request_failed_abort],
    [single_flight_without_continuation]), but the follow-up request of
    [handleToolCalls] takes the signal of the controller that is current
    when it is issued.  When [generateResponse] is called while a first
    chain awaits its tool handlers, that chain goes on under the signal of
    the second call: two streams are live and no abort has reached either. *)
Theorem single_flight_broken_by_continuation :
  exists g : @gate unit,
    run {| svc := new_service tt; chains := [] |}
        [CallGenerateResponse; ToolsRequested 0; CallGenerateResponse;
         ToolsSettled 0] = Some g
    /\ chains g = [InFlight (Some 1%nat); InFlight (Some 1%nat)]
    /\ abortController (svc g) = Some 1%nat
    /\ aborted (svc g) 1 = false
    /\ live_streams g = 2%nat.
Proof.
  eexists. split; [vm_compute; reflexivity|].
  repeat split.
Qed.

(* ===================================================================== *)
(** * The theorems on the sample session *)
(* ===================================================================== *)

(** [ensureJsonString] on a JSON text with blanks around it, and on a text
    that is not JSON. *)
Lemma ensureJsonString_normalizes_witness :
  ensureJsonString (VStr (str_q "  {'q':1} ")) = VStr (str_q "{'q':1}")
  /\ ensureJsonString (VStr (str "   ")) = VStr (str "{}")
  /\ ensureJsonString (VStr (str_q " say 'hi' "))
     = VStr (quote (str_q "say 'hi'"))
  /\ JSON_parse (quote (str_q "say 'hi'")) = Some (VStr (str_q "say 'hi'")).
Proof.
  destruct (ensureJsonString_normalizes (str_q "  {'q':1} "))
    as (H1 & _ & _ & _ & _).
  destruct (ensureJsonString_normalizes (str "   "))
    as (_ & _ & _ & H2 & _).
  destruct (ensureJsonString_normalizes (str_q " say 'hi' "))
    as (_ & _ & _ & _ & H3).
  split; [|split].
  - eapply (H1 _). vm_compute. reflexivity.
  - apply H2. vm_compute. reflexivity.
  - apply H3.
    + vm_compute. discriminate.
    + vm_compute. reflexivity.
Defined.

(** The second execution of the sample call is served from the cache. *)
Lemma cache_idempotence_witness :
  let '(_, s1) :=
    executeToolCalls demo_syntax_error demo_config [demo_call]
      (new_service 0%nat) in
  let '(results2, s2) :=
    executeToolCalls demo_syntax_error demo_config [demo_call] s1 in
  effects s2
  = effects (new_service 0%nat)
    ++ [Invoke demo_call (VObj [(str "q", VNum (Num 1 0))])
          (Returned (VObj [(str "q", VNum (Num 1 0));
                           (str "calls", VNum (Num 1 0))]))]
  /\ world s2 = 1%nat
  /\ toolCache s1 !! (ToString (tc_name demo_call) ++ str ":"
                      ++ ToString (ensureJsonString (tc_arguments demo_call)))
     = Some (as_array (VObj [(str "q", VNum (Num 1 0));
                             (str "calls", VNum (Num 1 0))]))
  /\ results2
     = [wrapToolResult (tc_id demo_call)
          (as_array (VObj [(str "q", VNum (Num 1 0));
                           (str "calls", VNum (Num 1 0))]))].
Proof.
  apply (cache_idempotence demo_syntax_error demo_config demo_config
           demo_call demo_call (new_service 0%nat) demo_handler
           (VObj [(str "q", VNum (Num 1 0))])
           (VObj [(str "q", VNum (Num 1 0)); (str "calls", VNum (Num 1 0))])
           1%nat).
  - reflexivity.
  - reflexivity.
  - vm_compute. reflexivity.
  - vm_compute. reflexivity.
  - vm_compute. reflexivity.
  - vm_compute. reflexivity.
Defined.

(** The sample call with no tool registered, between two other calls. *)
Lemma unknown_tool_error_result_witness :
  (exists m,
     nth_error (fst (executeToolCalls demo_syntax_error bare_config
                       ([demo_call] ++ demo_call :: [demo_call])
                       (new_service 0%nat))) (length [demo_call]) = Some m
     /\ prop m (str "role") = VStr (str "tool")
     /\ prop m (str "tool_call_id") = tc_id demo_call
     /\ prop m (str "content") =
        JSON_stringify
          (VObj [(str "error",
                  VStr (str "Error: Tool handler for " ++ [34]
                        ++ ToString (tc_name demo_call) ++ [34]
                        ++ str " not found"))]))
  /\ toolCache (snd (executeToolCalls demo_syntax_error bare_config
                       [demo_call] (new_service 0%nat)))
     = toolCache (new_service 0%nat).
Proof.
  apply (unknown_tool_error_result demo_syntax_error bare_config
           [demo_call] [demo_call] demo_call (new_service 0%nat)).
  - reflexivity.
  - vm_compute. reflexivity.
Defined.

(** The sample call fails with no tool registered; executed again with
    the tool registered, its handler is invoked. *)
Lemma failures_not_cached_witness :
  let s1 := snd (executeToolCalls demo_syntax_error bare_config [demo_call]
                   (new_service 0%nat)) in
  toolCache s1 !! cacheKey demo_call = None
  /\ effects (snd (executeToolCalls demo_syntax_error demo_config
                     [demo_call] s1))
     = effects s1
       ++ [Invoke demo_call (VObj [(str "q", VNum (Num 1 0))])
             (fst (demo_handler (VObj [(str "q", VNum (Num 1 0))])
                     (world s1)))].
Proof.
  destruct (failures_not_cached demo_syntax_error bare_config demo_config
              [demo_call] demo_call demo_call (new_service 0%nat))
    as [_ H].
  assert (Hfail : call_fails bare_config demo_call (new_service 0%nat))
    by (left; reflexivity).
  assert (Hmiss : toolCache (new_service 0%nat) !! cacheKey demo_call = None)
    by (vm_compute; reflexivity).
  destruct (H Hfail Hmiss eq_refl eq_refl) as [H1 H2].
  split; [exact H1|].
  apply H2.
  - reflexivity.
  - vm_compute. reflexivity.
Defined.

(** The sample stream: a start at index 2 and three deltas at index 2. *)
Lemma tool_call_accumulation_witness :
  map_get (VNum (Num 2 0))
    (accumulate_all []
       ([(VNull, parsed_line demo_text_line)]
        ++ (VNull, parsed_line demo_start_line) :: demo_frames))
  = Some {| tc_id := VStr (str "call_1"); tc_name := VStr (str "lookup");
            tc_arguments :=
              VStr ([] ++ concat [str_q "{'q'"; str ":"; str "1}"]) |}
  /\ count_key (VNum (Num 2 0))
       (accumulate_all []
          ([(VNull, parsed_line demo_text_line)]
           ++ (VNull, parsed_line demo_start_line) :: demo_frames))
     = 1%nat.
Proof.
  apply (tool_call_accumulation
           [(VNull, parsed_line demo_text_line)] VNull
           (parsed_line demo_start_line) (VNum (Num 2 0))
           (VStr (str "call_1")) (VStr (str "lookup")) []
           demo_frames [str_q "{'q'"; str ":"; str "1}"]).
  - reflexivity.
  - unfold is_start. repeat apply conj; vm_compute; reflexivity.
  - unfold demo_frames.
    apply deltas_delta;
      [unfold is_delta; repeat apply conj; vm_compute; reflexivity|].
    apply deltas_elsewhere;
      [left; split; vm_compute; discriminate|].
    apply deltas_delta;
      [unfold is_delta; repeat apply conj; vm_compute; reflexivity|].
    apply deltas_delta;
      [unfold is_delta; repeat apply conj; vm_compute; reflexivity|].
    apply deltas_nil.
Defined.

(** A delta at index 2 before any start. *)
Lemma orphan_delta_dropped_witness :
  accumulate VNull [] (parsed_line (demo_delta_line "1}")) = []
  /\ process_line (fun _ _ s => (s, false)) 0 (demo_delta_line "1}")
       {| currentEventType := VNull; toolCallsMap := [] |}
       (new_service 0%nat)
     = Continue {| currentEventType := VNull; toolCallsMap := [] |}
         (new_service 0%nat).
Proof.
  apply (orphan_delta_dropped (fun _ _ s => (s, false)) 0
           (demo_delta_line "1}") (parsed_line (demo_delta_line "1}"))
           {| currentEventType := VNull; toolCallsMap := [] |}
           (new_service 0%nat)).
  - vm_compute. reflexivity.
  - vm_compute. reflexivity.
  - vm_compute. reflexivity.
Defined.


(** ** Whole runs of the sample session *)

(** Two text frames and a stream-end: the texts, then the completion. *)
Example run_text_only :
  effects
    (snd (generateResponse demo_syntax_error
            [Response true (VNum (Num 2 2)) []
               (Some ([demo_text_line ++ [10];
                       str_q "{'type':'text-generation','text':'lo'}" ++ [10]
                       ++ str_q "{'type':'stream-end'}" ++ [10]],
                      EndOfData))]
            bare_config demo_history (new_service 0%nat)))
  = [Fetch (apiUrl bare_config) (str "Bearer key")
       (first_body bare_config demo_history) (Some 0%nat);
     Next 0 (VStr (str "Hel")); Next 0 (VStr (str "lo")); Complete 0].
Proof. vm_compute. reflexivity. Qed.

(** A tool call: one invocation of the handler, then the follow-up request
    with the assistant message and the tool result, then its answer. *)
Example run_tool_call :
  effects
    (snd (generateResponse demo_syntax_error [demo_answer; demo_reply]
            demo_config demo_history (new_service 0%nat)))
  = [Fetch (apiUrl demo_config) (str "Bearer key")
       (first_body demo_config demo_history) (Some 0%nat);
     Invoke demo_call (VObj [(str "q", VNum (Num 1 0))])
       (Returned (VObj [(str "q", VNum (Num 1 0));
                        (str "calls", VNum (Num 1 0))]));
     Fetch (apiUrl demo_config) (str "Bearer key")
       {| model := modelName demo_config;
          messages :=
            demo_history
            ++ [VObj [(str "role", VStr (str "assistant"));
                      (str "tool_calls", VArr demo_refs)];
                VObj [(str "role", VStr (str "tool"));
                      (str "tool_call_id", VStr (str "call_1"));
                      (str "content",
                       VStr (str_q "[{'q':1,'calls':1}]"))]];
          stream := true;
          tools := transformTools (cfg_tools demo_config);
          documents := None |} (Some 0%nat);
     Next 0 (VStr (str "Hel")); Complete 0].
Proof. vm_compute. reflexivity. Qed.

(** A response that is not ok: the error with the status and the text. *)
Example run_rate_limited :
  effects
    (snd (generateResponse demo_syntax_error
            [Response false (VNum (Num 429 0)) (str "rate limited") None]
            demo_config demo_history (new_service 0%nat)))
  = [Fetch (apiUrl demo_config) (str "Bearer key")
       (first_body demo_config demo_history) (Some 0%nat);
     Error 0 (MkError (str "Error")
                (str "Cohere API Error 429: rate limited"))].
Proof. vm_compute. reflexivity. Qed.

(* ===================================================================== *)
(** * Whole runs *)
(* ===================================================================== *)

(** A relation between the state before and the state after that every
    step of a chain of requests keeps is kept by the chain. *)
Section RunInvariant.

Context {W : Type}.
Variable syntax_error_message : jstring -> jstring.
Variable cfg : @config W.
Variable subject : nat.
Variable R : @service W -> @service W -> Prop.
Variable sendable : request_body -> Prop.

Hypothesis R_refl : forall s, R s s.
Hypothesis R_trans : forall a b c, R a b -> R b c -> R a c.
Hypothesis R_tools :
  forall calls s,
    R s (snd (executeToolCalls syntax_error_message cfg calls s)).
Hypothesis R_next : forall text s, R s (emit (Next subject text) s).
Hypothesis R_complete : forall s, R s (emit (Complete subject) s).
Hypothesis R_failed : forall e s, R s (request_failed subject e s).
Hypothesis R_fetch :
  forall body s,
    sendable body ->
    R s (emit (Fetch (apiUrl cfg) (str "Bearer " ++ ToString (apiKey cfg))
                 body (abortController s)) s).
Hypothesis sendable_next :
  forall previous refs results,
    sendable (nextBody cfg previous refs results).

Lemma handleToolCalls_keeps
    (request : request_body -> @service W -> @service W)
    (toolCalls : list fragment) (message : value)
    (previous : list value) (s : @service W) :
  (forall body s0, sendable body -> R s0 (request body s0)) ->
  R s (fst (handleToolCalls syntax_error_message request toolCalls
              message cfg previous s)).
Proof.
  intros Hreq. unfold handleToolCalls.
  pose proof (R_tools toolCalls s) as He.
  destruct (executeToolCalls syntax_error_message cfg toolCalls s)
    as [results s1].
  cbn [snd] in He.
  destruct (tool_call_refs message toolCalls); cbn [fst]; [|exact He].
  eapply R_trans; [exact He | apply Hreq, sendable_next].
Qed.

Lemma process_line_keeps
    (handle : list fragment -> value -> @service W -> @service W * bool)
    (line : jstring) (d : decoder) (s : @service W) :
  (forall tcs m s0, R s0 (fst (handle tcs m s0))) ->
  match process_line handle subject line d s with
  | Continue _ s' | Return s' => R s s'
  end.
Proof.
  intros Hh. unfold process_line.
  destruct (frame_of_line line); try apply R_refl.
  destruct (dispatch _ _ _) as [|text|calls|tcs message|];
    try apply R_refl; try apply R_next; try apply R_complete.
  destruct tcs as [|tc tcs]; [apply R_complete|].
  specialize (Hh (tc :: tcs) message s).
  destruct (handle (tc :: tcs) message s) as [s1 [|]]; exact Hh.
Qed.

Lemma process_lines_keeps
    (handle : list fragment -> value -> @service W -> @service W * bool)
    (lines : list jstring) (d : decoder) (s : @service W) :
  (forall tcs m s0, R s0 (fst (handle tcs m s0))) ->
  match process_lines handle subject lines d s with
  | Continue _ s' | Return s' => R s s'
  end.
Proof.
  intros Hh. revert d s.
  induction lines as [|l lines IH]; intros d s; cbn [process_lines];
    [apply R_refl|].
  pose proof (process_line_keeps handle l d s Hh) as Hl.
  destruct (process_line handle subject l d s) as [d1 s1|s1]; [|exact Hl].
  specialize (IH d1 s1).
  destruct (process_lines handle subject lines d1 s1);
    eapply R_trans; eassumption.
Qed.

Lemma read_loop_keeps
    (handle : list fragment -> value -> @service W -> @service W * bool)
    (chunks : list jstring) (ending : stream_end)
    (buffer : jstring) (d : decoder) (s : @service W) :
  (forall tcs m s0, R s0 (fst (handle tcs m s0))) ->
  R s (fst (read_loop handle subject chunks ending buffer d s)).
Proof.
  intros Hh. revert buffer d s.
  induction chunks as [|c cs IH]; intros buffer d s; cbn [read_loop].
  - destruct ending; [apply R_complete | apply R_refl].
  - pose proof (process_lines_keeps handle
                  (removelast (split_nl (buffer ++ c))) d s Hh) as Hl.
    destruct (process_lines handle subject _ d s) as [d1 s1|s1];
      [|exact Hl].
    eapply R_trans; [exact Hl | apply IH].
Qed.

Lemma request_failed_keeps (e : error) (s : @service W) :
  R s (request_failed subject e s).
Proof. apply R_failed. Qed.

Lemma processRequest_keeps (net : list response) :
  forall (body : request_body) (s : @service W),
    sendable body ->
    R s (processRequest syntax_error_message net cfg subject body s).
Proof.
  induction net as [|r net IH]; intros body s Hb; cbn [processRequest].
  - apply R_fetch, Hb.
  - eapply R_trans; [apply (R_fetch body s Hb)|].
    destruct r as [e|ok status text stream_body];
      [apply request_failed_keeps|].
    destruct ok; cbn [negb]; [|apply request_failed_keeps].
    destruct stream_body as [[chunks ending]|]; [|apply request_failed_keeps].
    unfold readStream.
    match goal with
    | |- context [read_loop ?h subject chunks ending [] ?d ?s0] =>
        pose proof (read_loop_keeps h chunks ending [] d s0) as Hr;
        destruct (read_loop h subject chunks ending [] d s0) as [s1 [e|]]
    end.
    + eapply R_trans; [|apply request_failed_keeps].
      apply Hr. intros tcs m s0. apply handleToolCalls_keeps.
      intros b s2 Hs. apply IH, Hs.
    + apply Hr. intros tcs m s0. apply handleToolCalls_keeps.
      intros b s2 Hs. apply IH, Hs.
Qed.

(** The same from the first [fetch] of a request on, whatever its body. *)
Lemma processRequest_keeps_first (net : list response)
    (body : request_body) (s : @service W) :
  R (emit (Fetch (apiUrl cfg) (str "Bearer " ++ ToString (apiKey cfg))
             body (abortController s)) s)
    (processRequest syntax_error_message net cfg subject body s).
Proof.
  destruct net as [|r net]; cbn [processRequest]; [apply R_refl|].
  destruct r as [e|ok status text stream_body];
    [apply request_failed_keeps|].
  destruct ok; cbn [negb]; [|apply request_failed_keeps].
  destruct stream_body as [[chunks ending]|]; [|apply request_failed_keeps].
  unfold readStream.
  match goal with
  | |- context [read_loop ?h subject chunks ending [] ?d ?s0] =>
      pose proof (read_loop_keeps h chunks ending [] d s0) as Hr;
      destruct (read_loop h subject chunks ending [] d s0) as [s1 [e|]]
  end.
  - eapply R_trans; [|apply request_failed_keeps].
    apply Hr. intros tcs m s0. apply handleToolCalls_keeps.
    intros b s2 Hs. apply processRequest_keeps, Hs.
  - apply Hr. intros tcs m s0. apply handleToolCalls_keeps.
    intros b s2 Hs. apply processRequest_keeps, Hs.
Qed.

End RunInvariant.

Section RunEffects.

Context {W : Type}.
Variable syntax_error_message : jstring -> jstring.

Lemma grows_by_refl (P : effect -> Prop) (s : @service W) : grows_by P s s.
Proof. exists []. rewrite app_nil_r. split; [reflexivity | constructor]. Qed.

Lemma grows_by_trans (P : effect -> Prop) (s1 s2 s3 : @service W) :
  grows_by P s1 s2 -> grows_by P s2 s3 -> grows_by P s1 s3.
Proof.
  intros (n1 & H1 & F1) (n2 & H2 & F2). exists (n1 ++ n2). split.
  - rewrite H2, H1, app_assoc. reflexivity.
  - apply Forall_app. split; assumption.
Qed.

Lemma grows_by_emit (P : effect -> Prop) (e : effect) (s : @service W) :
  P e -> grows_by P s (emit e s).
Proof.
  intros H. exists [e]. split; [reflexivity|]. constructor; [exact H|].
  constructor.
Qed.

Lemma executeToolCalls_invokes (cfg : @config W) (calls : list fragment)
    (s : @service W) :
  grows_by (fun e => exists call params o, e = Invoke call params o) s
    (snd (executeToolCalls syntax_error_message cfg calls s)).
Proof.
  destruct (cached_calls_not_invoked syntax_error_message cfg calls s)
    as (new & He & Hn).
  exists new. split; [exact He|]. apply List.Forall_forall. intros e Hin.
  destruct (Hn e Hin) as (call & p & o & -> & _). eauto.
Qed.

Lemma grows_by_impl (P Q : effect -> Prop) (s s' : @service W) :
  (forall e, P e -> Q e) -> grows_by P s s' -> grows_by Q s s'.
Proof.
  intros H (new & He & Hf). exists new. split; [exact He|].
  eapply Forall_impl; [exact Hf | exact H].
Qed.

Lemma processRequest_chain_effects (net : list response) (cfg : @config W)
    (subject : nat) (body : request_body) (s : @service W) :
  grows_by (chain_effect cfg subject)
    (emit (Fetch (apiUrl cfg) (str "Bearer " ++ ToString (apiKey cfg))
             body (abortController s)) s)
    (processRequest syntax_error_message net cfg subject body s).
Proof.
  apply processRequest_keeps_first
    with (sendable := fun b => model b = modelName cfg
                               /\ stream b = true
                               /\ tools b = transformTools (cfg_tools cfg)
                               /\ documents b = None).
  - apply grows_by_refl.
  - apply grows_by_trans.
  - intros calls s0. eapply grows_by_impl;
      [|apply executeToolCalls_invokes].
    intros e (call & p & o & ->). exact I.
  - intros text s0. apply grows_by_emit. reflexivity.
  - intros s0. apply grows_by_emit. reflexivity.
  - intros e s0. unfold request_failed.
    destruct (jstring_eqb _ _); apply grows_by_emit; reflexivity.
  - intros b s0 Hb. apply grows_by_emit. cbn. tauto.
  - intros previous refs results. repeat split.
Qed.

End RunEffects.

(** X1.  What a run does.  The effects of a call of [generateResponse]
    after the abort of the previous controller are: first the request with
    the body built from the configuration and the messages given
    (with [documents]), under the signal of the new controller; then only
    requests to the configured URL with the configured key, model and tool
    schemas, [stream: true] and no [documents], invocations of tool
    handlers, and values, [complete] or [error] on the channel the call
    returned.  In particular a run aborts no controller and writes to no
    other channel. *)
Theorem run_effects {W : Type} (syntax_error_message : jstring -> jstring)
    (net : list response) (cfg : @config W) (msgs : list value)
    (s : @service W) :
  fst (generateResponse syntax_error_message net cfg msgs s) = subjects s
  /\ exists rest,
       effects (snd (generateResponse syntax_error_message net cfg msgs s))
       = effects (install_controller s)
         ++ Fetch (apiUrl cfg) (str "Bearer " ++ ToString (apiKey cfg))
              (first_body cfg msgs) (Some (controllers s))
            :: rest
       /\ Forall (chain_effect cfg (subjects s)) rest.
Proof.
  assert (Hc : controllers (stopStream s) = controllers s)
    by (unfold stopStream; destruct (abortController s); reflexivity).
  assert (Hs : subjects (stopStream s) = subjects s)
    by (unfold stopStream; destruct (abortController s); reflexivity).
  split; [exact Hs|].
  unfold generateResponse. cbn [snd].
  match goal with
  | |- context [processRequest _ net cfg ?sub ?b ?s2] =>
      destruct (processRequest_chain_effects syntax_error_message net cfg
                  sub b s2) as (rest & He & Hf)
  end.
  cbn [subjects install_controller] in Hf. rewrite Hs in Hf.
  exists rest. split; [|exact Hf].
  rewrite He. cbn [emit effects abortController install_controller].
  rewrite <- app_assoc. cbn [app]. rewrite Hc. reflexivity.
Qed.

(* ===================================================================== *)
(** * The cache over the life of a service *)
(* ===================================================================== *)

Section CacheGrowth.

Context {W : Type}.
Variable syntax_error_message : jstring -> jstring.





Lemma cache_sound_grows (s s' : @service W) :
  grows s s' ->
  (forall k v, toolCache s' !! k = Some v -> toolCache s !! k = Some v) ->
  cache_sound s -> cache_sound s'.
Proof.
  intros [new He] Hc Hs k v Hk.
  destruct (Hs k v (Hc k v Hk)) as (call & p & r & Hkey & Hin & Hv).
  exists call, p, r. repeat split; [exact Hkey | | exact Hv].
  rewrite He. apply in_or_app. left. exact Hin.
Qed.

Lemma executeToolCalls_sound (cfg : @config W) (calls : list fragment)
    (s : @service W) :
  cache_sound s ->
  cache_sound (snd (executeToolCalls syntax_error_message cfg calls s)).
Proof.
  intros Hs k v Hk.
  destruct (executeToolCalls_cache syntax_error_message cfg calls s)
    as (new & He & Hc).
  destruct (Hc k v Hk) as [Hold|(call & p & r & _ & Hkey & Hin & Hv)].
  - destruct (Hs k v Hold) as (call & p & r & Hkey & Hin & Hv).
    exists call, p, r. repeat split; [exact Hkey | | exact Hv].
    rewrite He. apply in_or_app. left. exact Hin.
  - exists call, p, r. repeat split; [exact Hkey | | exact Hv].
    rewrite He. apply in_or_app. right. exact Hin.
Qed.

Lemma processRequest_sound (net : list response) (cfg : @config W)
    (subject : nat) (body : request_body) (s : @service W) :
  cache_sound s ->
  cache_sound (processRequest syntax_error_message net cfg subject body s).
Proof.
  apply (processRequest_keeps syntax_error_message cfg subject
           (fun s s' : @service W => cache_sound s -> cache_sound s')
           (fun _ => True)); auto.
  - intros calls s0. apply executeToolCalls_sound.
  - intros text s0. apply cache_sound_grows; [apply grows_emit | auto].
  - intros s0. apply cache_sound_grows; [apply grows_emit | auto].
  - intros e s0. apply cache_sound_grows;
      [apply request_failed_grows | unfold request_failed;
                                    destruct (jstring_eqb _ _); auto].
  - intros b s0 _. apply cache_sound_grows; [apply grows_emit | auto].
Qed.

Lemma stopStream_effects (s : @service W) :
  toolCache (stopStream s) = toolCache s
  /\ subjects (stopStream s) = subjects s
  /\ controllers (stopStream s) = controllers s
  /\ world (stopStream s) = world s
  /\ (effects (stopStream s) = effects s
      \/ exists c, effects (stopStream s) = effects s ++ [Abort c]).
Proof.
  unfold stopStream. destruct (abortController s) as [c|]; cbn.
  - repeat split. right. exists c. reflexivity.
  - repeat split. left. reflexivity.
Qed.

Lemma stopStream_sound (s : @service W) :
  cache_sound s -> cache_sound (stopStream s).
Proof.
  destruct (stopStream_effects s) as (Hc & _ & _ & _ & He).
  apply cache_sound_grows.
  - destruct He as [He|[c He]]; [exists [] | exists [Abort c]];
      rewrite He; [rewrite app_nil_r|]; reflexivity.
  - intros k v. rewrite Hc. auto.
Qed.

Lemma stopStream_channels (s : @service W) :
  channels_known s -> channels_known (stopStream s).
Proof.
  destruct (stopStream_effects s) as (_ & Hs & _ & _ & He).
  intros H e subject Hin Hon. rewrite Hs.
  destruct He as [He|[c He]]; rewrite He in Hin.
  - eapply H; eassumption.
  - apply in_app_or in Hin. destruct Hin as [Hin|[<-|[]]].
    + eapply H; eassumption.
    + discriminate.
Qed.

Lemma chain_effect_channel (cfg : @config W) (subject other : nat)
    (e : effect) :
  chain_effect cfg subject e -> on_subject other e = true -> other = subject.
Proof.
  destruct e; cbn; try discriminate; intros -> H;
    apply Nat.eqb_eq in H; congruence.
Qed.

Lemma generateResponse_sound (net : list response) (cfg : @config W)
    (msgs : list value) (s : @service W) :
  cache_sound s ->
  cache_sound (snd (generateResponse syntax_error_message net cfg msgs s)).
Proof.
  intros Hs. unfold generateResponse. cbn [snd].
  apply processRequest_sound.
  apply stopStream_sound in Hs.
  intros k v Hk. apply (Hs k v Hk).
Qed.

Lemma generateResponse_channels (net : list response) (cfg : @config W)
    (msgs : list value) (s : @service W) :
  channels_known s ->
  channels_known (snd (generateResponse syntax_error_message net cfg msgs s)).
Proof.
  intros Hk. apply stopStream_channels in Hk.
  unfold generateResponse. cbn [snd].
  match goal with
  | |- context [processRequest _ net cfg ?sub ?b ?s2] =>
      destruct (processRequest_chain_effects syntax_error_message net cfg
                  sub b s2) as (rest & He & Hf);
      pose proof (processRequest_keeps syntax_error_message cfg sub
                    (fun s s' : @service W => subjects s' = subjects s)
                    (fun _ => True)) as Hsub
  end.
  intros e subject Hin Hon.
  rewrite Hsub; auto; [|intros; congruence| |].
  3:{ intros e0 s0. unfold request_failed.
      destruct (jstring_eqb _ _); reflexivity. }
  2:{ intros calls s0.
      unfold executeToolCalls.
      assert (Hst : forall calls (s : @service W),
                 subjects (snd (start_calls syntax_error_message cfg calls s))
                 = subjects s).
      { clear. induction calls as [|c rest IH]; intros s; cbn [start_calls];
          [reflexivity|].
        assert (H1 : subjects (snd (start_call syntax_error_message cfg c s))
                     = subjects s).
        { unfold start_call.
          destruct (toolCache s !! cacheKey c); [reflexivity|].
          destruct (find_handler cfg c) as [h|]; [|reflexivity].
          destruct (JSON_parse _) as [params|]; [|reflexivity].
          destruct (h params (world s)). reflexivity. }
        destruct (start_call syntax_error_message cfg c s) as [st s1].
        specialize (IH s1).
        destruct (start_calls syntax_error_message cfg rest s1) as [sts s2].
        cbn [snd] in *. congruence. }
      assert (Hfin : forall sts (s : @service W),
                 subjects (snd (finish_calls sts s)) = subjects s).
      { clear. induction sts as [|[c st] sts IH]; intros s;
          cbn [finish_calls]; [reflexivity|].
        assert (H1 : subjects (snd (finish_call c st s)) = subjects s)
          by (destruct st as [m|key [r|t]]; reflexivity).
        destruct (finish_call c st s) as [m s1]. specialize (IH s1).
        destruct (finish_calls sts s1) as [ms s2]. cbn [snd] in *.
        congruence. }
      specialize (Hst calls s0).
      destruct (start_calls syntax_error_message cfg calls s0) as [sts s1].
      cbn [snd] in Hst. rewrite Hfin. exact Hst. }
  cbn [subjects]. rewrite He in Hin. cbn [emit effects] in Hin.
  apply in_app_or in Hin. destruct Hin as [Hin|Hin].
  - apply in_app_or in Hin. destruct Hin as [Hin|[<-|[]]]; [|discriminate].
    cbn [install_controller effects] in Hin.
    specialize (Hk e subject Hin Hon). cbn [install_controller subjects]. lia.
  - rewrite List.Forall_forall in Hf.
    rewrite (chain_effect_channel cfg _ subject e (Hf e Hin) Hon). lia.
Qed.

Lemma reachable_invariant (s : @service W) :
  reachable syntax_error_message s -> cache_sound s /\ channels_known s.
Proof.
  induction 1 as [w|s _ [IH1 IH2]|net cfg msgs s _ [IH1 IH2]].
  - split; [intros k v Hk; cbn [new_service toolCache] in Hk;
             rewrite lookup_empty in Hk; discriminate|].
    intros e subject [].
  - split; [apply stopStream_sound, IH1 | apply stopStream_channels, IH2].
  - split; [apply generateResponse_sound, IH1
           | apply generateResponse_channels, IH2].
Qed.

End CacheGrowth.


(** X3.  The cache holds results of handlers only.  In every state a
    service reaches through calls of [generateResponse] and [stopStream],
    each entry of the cache is the result list ([result] itself when it is
    an array, [[result]] otherwise) of a handler invocation that returned,
    stored under the key of the call that was executed; no error result
    is ever in the cache. *)
Theorem reachable_cache_sound {W : Type}
    (syntax_error_message : jstring -> jstring) (s : @service W)
    (k : jstring) (v : value) :
  reachable syntax_error_message s ->
  toolCache s !! k = Some v ->
  exists call params r,
    k = ToString (tc_name call) ++ str ":"
        ++ ToString (ensureJsonString (tc_arguments call))
    /\ In (Invoke call params (Returned r)) (effects s)
    /\ v = as_array r.
Proof.
  intros Hr Hk.
  destruct (reachable_invariant syntax_error_message s Hr) as [Hs _].
  destruct (Hs k v Hk) as (call & p & r & Hkey & Hin & Hv).
  exists call, p, r. repeat split; [symmetry; exact Hkey | exact Hin
                                   | exact Hv].
Qed.

(* ===================================================================== *)
(** * The output channel *)
(* ===================================================================== *)

Section Channel.

Context {W : Type}.
Variable syntax_error_message : jstring -> jstring.

Lemma channel_app (subject : nat) (l1 l2 : list effect) :
  channel subject (l1 ++ l2) = channel subject l1 ++ channel subject l2.
Proof. apply List.filter_app. Qed.

Lemma fetches_app (l1 l2 : list effect) :
  fetches (l1 ++ l2) = (fetches l1 + fetches l2)%nat.
Proof. unfold fetches. rewrite List.filter_app, length_app. reflexivity. Qed.

Lemma chain_goes_on_refl (subject : nat) (s : @service W) :
  channel_open subject (effects s) -> chain_goes_on subject s s.
Proof. intros H. split; [exact H | reflexivity]. Qed.

Lemma chain_goes_on_next (subject : nat) (text : value) (s : @service W) :
  channel_open subject (effects s) ->
  chain_goes_on subject s (emit (Next subject text) s).
Proof.
  intros [texts H]. split.
  - exists (texts ++ [text]). cbn [emit effects].
    rewrite channel_app, H, List.map_app. cbn.
    rewrite Nat.eqb_refl. reflexivity.
  - cbn [emit effects]. rewrite fetches_app. cbn. lia.
Qed.

Lemma channel_closes (subject : nat) (t : effect) (s : @service W) :
  on_subject subject t = true -> terminal t = true ->
  channel_open subject (effects s) ->
  channel_closed subject (effects (emit t s)).
Proof.
  intros Hon Ht [texts H]. exists texts, t. split; [|exact Ht].
  cbn [emit effects]. rewrite channel_app, H. cbn. rewrite Hon. reflexivity.
Qed.

Lemma request_failed_closes (subject : nat) (e : error) (s : @service W) :
  channel_open subject (effects s) ->
  channel_closed subject (effects (request_failed subject e s)).
Proof.
  intros H. unfold request_failed.
  destruct (jstring_eqb _ _); apply channel_closes;
    cbn; try apply Nat.eqb_refl; auto.
Qed.

(** The executor sends no request and writes to no channel. *)
Lemma executeToolCalls_goes_on (cfg : @config W) (calls : list fragment)
    (subject : nat) (s : @service W) :
  channel_open subject (effects s) ->
  chain_goes_on subject s
    (snd (executeToolCalls syntax_error_message cfg calls s)).
Proof.
  intros [texts H].
  destruct (executeToolCalls_invokes syntax_error_message cfg calls s)
    as (new & He & Hf).
  assert (Hn : channel subject new = [] /\ fetches new = 0%nat).
  { clear He. induction Hf as [|e new (call & p & o & ->) _ IH];
      [split; reflexivity|].
    unfold fetches in *. cbn. exact IH. }
  destruct Hn as [Hc Hfe]. split.
  - exists texts. rewrite He, channel_app, Hc, app_nil_r. exact H.
  - rewrite He, fetches_app, Hfe. lia.
Qed.

Lemma chain_result_after (subject n : nat) (s s1 s2 : @service W) :
  chain_goes_on subject s s1 -> chain_result subject n s1 s2 ->
  chain_result subject n s s2.
Proof.
  intros [_ Hf] [Hc|[Ho Hn]]; [left; exact Hc|].
  right. split; [exact Ho | lia].
Qed.

Lemma chain_goes_on_trans (subject : nat) (s s1 s2 : @service W) :
  chain_goes_on subject s s1 -> chain_goes_on subject s1 s2 ->
  chain_goes_on subject s s2.
Proof. intros [_ H1] [Ho H2]. split; [exact Ho | congruence]. Qed.

Lemma process_line_channel
    (handle : list fragment -> value -> @service W -> @service W * bool)
    (subject n : nat) (line : jstring) (d : decoder) (s : @service W) :
  handles subject n handle ->
  channel_open subject (effects s) ->
  match process_line handle subject line d s with
  | Continue _ s' => chain_goes_on subject s s'
  | Return s' => chain_result subject n s s'
  end.
Proof.
  intros Hh Ho. unfold process_line.
  destruct (frame_of_line line); try (apply chain_goes_on_refl, Ho).
  destruct (dispatch _ _ _) as [|text|calls|tcs message|];
    try (apply chain_goes_on_refl, Ho).
  - apply chain_goes_on_next, Ho.
  - destruct tcs as [|tc tcs].
    + left. apply channel_closes; cbn; try apply Nat.eqb_refl; auto.
    + specialize (Hh (tc :: tcs) message s Ho).
      destruct (handle (tc :: tcs) message s) as [s1 [|]]; exact Hh.
  - left. apply channel_closes; cbn; try apply Nat.eqb_refl; auto.
Qed.

Lemma process_lines_channel
    (handle : list fragment -> value -> @service W -> @service W * bool)
    (subject n : nat) (lines : list jstring) (d : decoder) (s : @service W) :
  handles subject n handle ->
  channel_open subject (effects s) ->
  match process_lines handle subject lines d s with
  | Continue _ s' => chain_goes_on subject s s'
  | Return s' => chain_result subject n s s'
  end.
Proof.
  intros Hh. revert d s.
  induction lines as [|l lines IH]; intros d s Ho; cbn [process_lines];
    [apply chain_goes_on_refl, Ho|].
  pose proof (process_line_channel handle subject n l d s Hh Ho) as Hl.
  destruct (process_line handle subject l d s) as [d1 s1|s1]; [|exact Hl].
  specialize (IH d1 s1 (proj1 Hl)).
  destruct (process_lines handle subject lines d1 s1).
  - eapply chain_goes_on_trans; eassumption.
  - eapply chain_result_after; eassumption.
Qed.

Lemma read_loop_channel
    (handle : list fragment -> value -> @service W -> @service W * bool)
    (subject n : nat) (chunks : list jstring) (ending : stream_end)
    (buffer : jstring) (d : decoder) (s : @service W) :
  handles subject n handle ->
  channel_open subject (effects s) ->
  match read_loop handle subject chunks ending buffer d s with
  | (s', None) => chain_result subject n s s'
  | (s', Some _) => chain_goes_on subject s s'
  end.
Proof.
  intros Hh. revert buffer d s.
  induction chunks as [|c cs IH]; intros buffer d s Ho; cbn [read_loop].
  - destruct ending as [|e]; [|apply chain_goes_on_refl, Ho].
    left. apply channel_closes; cbn; try apply Nat.eqb_refl; auto.
  - pose proof (process_lines_channel handle subject n
                  (removelast (split_nl (buffer ++ c))) d s Hh Ho) as Hl.
    destruct (process_lines handle subject _ d s) as [d1 s1|s1];
      [|exact Hl].
    specialize (IH (List.last (split_nl (buffer ++ c)) []) d1 s1 (proj1 Hl)).
    destruct (read_loop handle subject cs ending _ d1 s1) as [s' [e|]].
    + eapply chain_goes_on_trans; eassumption.
    + eapply chain_result_after; eassumption.
Qed.

Lemma processRequest_channel (net : list response) (cfg : @config W)
    (subject : nat) :
  forall (body : request_body) (s : @service W),
    channel_open subject (effects s) ->
    chain_result subject (length net) s
      (processRequest syntax_error_message net cfg subject body s).
Proof.
  induction net as [|r net IH]; intros body s Ho; cbn [processRequest].
  - right. destruct Ho as [texts H]. split.
    + exists texts. cbn [emit effects].
      rewrite channel_app, H. cbn. apply app_nil_r.
    + cbn [emit effects]. rewrite fetches_app. cbn. lia.
  - match goal with
    | |- context [emit ?f s] => set (s0 := emit f s)
    end.
    assert (Ho0 : channel_open subject (effects s0)).
    { destruct Ho as [texts H]. exists texts. subst s0. cbn [emit effects].
      rewrite channel_app, H. cbn. apply app_nil_r. }
    assert (Hf0 : fetches (effects s0) = S (fetches (effects s))).
    { subst s0. cbn [emit effects]. rewrite fetches_app. cbn. lia. }
    clearbody s0.
    destruct r as [e|ok status text stream_body];
      [left; apply request_failed_closes, Ho0|].
    destruct ok; cbn [negb]; [|left; apply request_failed_closes, Ho0].
    destruct stream_body as [[chunks ending]|];
      [|left; apply request_failed_closes, Ho0].
    unfold readStream.
    match goal with
    | |- context [read_loop ?h subject chunks ending [] ?d s0] =>
        pose proof (read_loop_channel h subject (length net) chunks ending []
                      d s0) as Hr;
        destruct (read_loop h subject chunks ending [] d s0) as [s1 [e|]]
    end.
    + left. apply request_failed_closes. apply Hr; [|exact Ho0].
      intros tcs m s2 Ho2. unfold handleToolCalls.
      pose proof (executeToolCalls_goes_on cfg tcs subject s2 Ho2) as He.
      destruct (executeToolCalls syntax_error_message cfg tcs s2)
        as [results s3].
      cbn [snd] in He.
      destruct (tool_call_refs m tcs); cbn [fst snd]; [|exact He].
      eapply chain_result_after; [exact He | apply IH, He].
    + assert (H1 : chain_result subject (length net) s0 s1).
      { apply Hr; [|exact Ho0].
        intros tcs m s2 Ho2. unfold handleToolCalls.
        pose proof (executeToolCalls_goes_on cfg tcs subject s2 Ho2) as He.
        destruct (executeToolCalls syntax_error_message cfg tcs s2)
          as [results s3].
        cbn [snd] in He.
        destruct (tool_call_refs m tcs); cbn [fst snd]; [|exact He].
        eapply chain_result_after; [exact He | apply IH, He]. }
      destruct H1 as [Hc|[Ho1 Hn]]; [left; exact Hc|].
      right. split; [exact Ho1|]. cbn [length]. lia.
Qed.

Lemma fresh_channel (s : @service W) (l : list effect) :
  (forall e, In e l -> on_subject (subjects s) e = true ->
             (subjects s < subjects s)%nat) ->
  channel (subjects s) l = [].
Proof.
  intros H. induction l as [|e l IH]; [reflexivity|].
  unfold channel. cbn [List.filter].
  destruct (on_subject (subjects s) e) eqn:Hon.
  - specialize (H e (or_introl eq_refl) Hon). lia.
  - apply IH. intros e' Hin. apply H. right. exact Hin.
Qed.


Lemma stopStream_channel (s : @service W) (other : nat) :
  channel other (effects (stopStream s)) = channel other (effects s).
Proof.
  destruct (stopStream_effects s) as (_ & _ & _ & _ & He).
  destruct He as [->|[c ->]]; [reflexivity|].
  rewrite channel_app. cbn. apply app_nil_r.
Qed.

(** The channel of a call of [generateResponse] once it has run. *)
Lemma generateResponse_channel (net : list response) (cfg : @config W)
    (msgs : list value) (s : @service W) :
  reachable syntax_error_message s ->
  chain_result (subjects s) (length net) s
    (snd (generateResponse syntax_error_message net cfg msgs s)).
Proof.
  intros Hr.
  destruct (reachable_invariant syntax_error_message s Hr) as [_ Hk].
  destruct (stopStream_effects s) as (_ & Hs & _ & _ & He).
  assert (Hfe : fetches (effects (stopStream s)) = fetches (effects s)).
  { destruct He as [->|[c ->]]; [reflexivity|].
    rewrite fetches_app. cbn. lia. }
  unfold generateResponse. cbn [snd].
  match goal with
  | |- context [processRequest _ net cfg ?sub ?b ?s2] =>
      pose proof (processRequest_channel net cfg sub b s2) as Hp
  end.
  assert (Ho : channel_open (subjects (install_controller s))
                 (effects (install_controller s))).
  { exists []. cbn [effects install_controller subjects].
    rewrite Hs, stopStream_channel. apply fresh_channel. intros e Hin Hon.
    eapply Hk; eassumption. }
  specialize (Hp Ho).
  cbn [effects install_controller subjects] in Hp |- *.
  rewrite Hs in Hp |- *.
  destruct Hp as [Hc|[Ho' Hn]]; [left; exact Hc|].
  right. split; [exact Ho'|].
  cbn [effects] in Hn. rewrite Hfe in Hn. exact Hn.
Qed.


End Channel.


(** X5.  An abort is never an error.  Whatever a run meets -- a
    [fetch] or a read that rejects, a response that is not ok, tools that
    throw -- no channel is given an error whose name is [AbortError]: a
    rejection with that name closes the channel with [complete]. *)
Theorem abort_is_never_an_error {W : Type}
    (syntax_error_message : jstring -> jstring)
    (net : list response) (cfg : @config W) (msgs : list value)
    (s : @service W) :
  exists new,
    effects (snd (generateResponse syntax_error_message net cfg msgs s))
    = effects (install_controller s) ++ new
    /\ Forall not_an_abort new.
Proof.
  unfold generateResponse. cbn [snd].
  match goal with
  | |- context [processRequest _ net cfg ?sub ?b ?s2] =>
      destruct (processRequest_keeps syntax_error_message cfg sub
                  (grows_by not_an_abort) (fun _ => True)
                  (grows_by_refl not_an_abort)
                  (grows_by_trans not_an_abort)) with (net := net)
                  (body := b) (s := s2) as (new & He & Hf)
  end.
  - intros calls s0. eapply grows_by_impl;
      [|apply executeToolCalls_invokes].
    intros e (call & p & o & ->). exact I.
  - intros text s0. apply grows_by_emit. exact I.
  - intros s0. apply grows_by_emit. exact I.
  - intros e s0. unfold request_failed.
    destruct (jstring_eqb (err_name e) (str "AbortError")) eqn:E;
      apply grows_by_emit; [exact I|].
    cbn. intros Hn. rewrite Hn, jstring_eqb_refl in E. discriminate.
  - intros b s0 _. apply grows_by_emit. exact I.
  - exact (fun _ _ _ => I).
  - exact I.
  - exists new. split; [exact He | exact Hf].
Qed.

(* ===================================================================== *)
(** * The lines of a stream *)
(* ===================================================================== *)

Section Lines.

Context {W : Type}.
Variable handle : list fragment -> value -> @service W -> @service W * bool.
Variable subject : nat.

Lemma process_lines_noise (lines : list jstring) (d : decoder)
    (s : @service W) :
  process_lines handle subject lines d s =
  process_lines handle subject
    (List.filter (fun l => negb (is_noise l)) lines) d s.
Proof.
  revert d s. induction lines as [|l lines IH]; intros d s; [reflexivity|].
  cbn [List.filter]. destruct (is_noise l) eqn:Hn; cbn [negb].
  - cbn [process_lines].
    assert (Hl : process_line handle subject l d s = Continue d s).
    { unfold process_line. unfold is_noise in Hn.
      destruct (frame_of_line l); try discriminate; reflexivity. }
    rewrite Hl. apply IH.
  - cbn [process_lines].
    destruct (process_line handle subject l d s); [apply IH | reflexivity].
Qed.

Lemma process_line_type (line : jstring) (d d' : decoder)
    (s s' : @service W) :
  is_header line = false ->
  process_line handle subject line d s = Continue d' s' ->
  currentEventType d' = currentEventType d.
Proof.
  unfold is_header, process_line.
  destruct (frame_of_line line); try discriminate; intros _;
    try (intros [= <- _]; reflexivity).
  destruct (dispatch _ _ _) as [|text|calls|tcs message|];
    try (intros [= <- _]; reflexivity); try discriminate.
  destruct tcs as [|tc tcs]; [discriminate|].
  destruct (handle (tc :: tcs) message s) as [s1 [|]];
    [intros [= <- _]; reflexivity | discriminate].
Qed.

Lemma process_lines_type (lines : list jstring) (d d' : decoder)
    (s s' : @service W) :
  forallb (fun l => negb (is_header l)) lines = true ->
  process_lines handle subject lines d s = Continue d' s' ->
  currentEventType d' = currentEventType d.
Proof.
  revert d s. induction lines as [|l lines IH]; intros d s;
    cbn [forallb process_lines].
  - intros _ [= <- _]. reflexivity.
  - intros Hf. apply andb_true_iff in Hf. destruct Hf as [Hl Hf].
    apply negb_true_iff in Hl.
    destruct (process_line handle subject l d s) as [d1 s1|s1] eqn:E;
      [|discriminate].
    intros H. rewrite (IH d1 s1 Hf H).
    eapply process_line_type; eassumption.
Qed.

End Lines.

(** X6.  Nothing is read after the end.  When reading a stream ends
    without an error although the read after its last chunk fails, the
    loop has returned on one of its lines (a message-end or a stream-end);
    then whatever follows in the stream -- more lines, the end of the
    data, a read that fails -- changes nothing: the state and the result
    are the same. *)
Theorem nothing_read_after_the_end {W : Type}
    (handle : list fragment -> value -> @service W -> @service W * bool)
    (subject : nat) (chunks more : list jstring) (e : error)
    (ending : stream_end) (s s1 : @service W) :
  readStream handle subject chunks (ReadRejects e) s = (s1, None) ->
  readStream handle subject (chunks ++ more) ending s = (s1, None).
Proof.
  rewrite !readStream_lines. intros H.
  rewrite concat_app, split_at_nl_app. cbn [fst].
  rewrite process_lines_app.
  destruct (process_lines handle subject (fst (split_at_nl (concat chunks)))
              _ s) as [d1 s2|s2]; [discriminate | exact H].
Qed.

(** X7.  Noise lines.  Two streams whose complete lines are the same once
    the blank lines, the lines that do not start with a brace (after an
    optional [data: ] prefix) and the lines whose JSON does not parse are
    left out, are read alike: the same state and the same result.  Such
    lines have no effect at all, whatever they hold and wherever they
    stand. *)
Theorem noise_lines_ignored {W : Type}
    (handle : list fragment -> value -> @service W -> @service W * bool)
    (subject : nat) (chunks chunks' : list jstring) (ending : stream_end)
    (s : @service W) :
  List.filter (fun l => negb (is_noise l)) (stream_lines chunks)
  = List.filter (fun l => negb (is_noise l)) (stream_lines chunks') ->
  readStream handle subject chunks ending s
  = readStream handle subject chunks' ending s.
Proof.
  intros H. rewrite !readStream_lines. unfold stream_lines in H.
  rewrite (process_lines_noise handle subject
             (fst (split_at_nl (concat chunks)))).
  rewrite (process_lines_noise handle subject
             (fst (split_at_nl (concat chunks')))).
  rewrite H. reflexivity.
Qed.

(** X8.  The SSE event type stays.  After an [event:] line the type it
    names is the current event type, and it still is after any number of
    lines that are not [event:] lines: it is not used up by the first data
    line that follows. *)
Theorem event_type_stays {W : Type}
    (handle : list fragment -> value -> @service W -> @service W * bool)
    (subject : nat) (header : jstring) (lines : list jstring)
    (t : jstring) (d d' : decoder) (s s' : @service W) :
  frame_of_line header = FEventType t ->
  forallb (fun l => negb (is_header l)) lines = true ->
  process_lines handle subject (header :: lines) d s = Continue d' s' ->
  currentEventType d' = VStr t.
Proof.
  intros Hh Hl. cbn [process_lines]. unfold process_line. rewrite Hh.
  intros H. apply (process_lines_type handle subject lines _ _ _ _ Hl) in H.
  exact H.
Qed.

(* ===================================================================== *)
(** * The order of the accumulated calls *)
(* ===================================================================== *)

Lemma map_get_index (k : value) (m : toolmap) :
  has_index k (List.map fst m) =
  match map_get k m with Some _ => true | None => false end.
Proof.
  unfold has_index.
  induction m as [|[k' f'] m IH]; cbn [List.map fst existsb map_get];
    [reflexivity|].
  destruct (strict_eqb k k'); [reflexivity | exact IH].
Qed.

Lemma map_set_keys (k : value) (f : fragment) (m : toolmap) :
  List.map fst (map_set k f m) =
  if has_index k (List.map fst m) then List.map fst m
  else List.map fst m ++ [k].
Proof.
  unfold has_index.
  induction m as [|[k' f'] m IH]; cbn [List.map fst existsb map_set];
    [reflexivity|].
  destruct (strict_eqb k k'); cbn [orb List.map fst]; [reflexivity|].
  rewrite IH. destruct (existsb _ _); reflexivity.
Qed.

Lemma accumulate_keys (cet : value) (m : toolmap) (parsed : value) :
  List.map fst (accumulate cet m parsed) =
  if opens_call cet parsed
     && negb (has_index (prop parsed (str "index")) (List.map fst m))
  then List.map fst m ++ [prop parsed (str "index")]
  else List.map fst m.
Proof.
  unfold accumulate, dispatch, opens_call.
  fold (event_type cet parsed). fold (delta_tool_calls parsed). cbv zeta.
  destruct (strict_eqb (event_type cet parsed)
              (VStr (str "tool-call-start"))) eqn:Es.
  - pose proof (strict_eqb_eq _ _ Es) as Ht. rewrite Ht. eval_tests.
    cbn [andb]. destruct (truthy (delta_tool_calls parsed));
      [|reflexivity].
    unfold member.
    destruct (nullish (prop (delta_tool_calls parsed) (str "function")));
      [reflexivity|].
    cbn [negb andb]. rewrite map_set_keys.
    destruct (has_index _ _); reflexivity.
  - cbn [andb].
    destruct (strict_eqb (event_type cet parsed) (VStr (str "content-delta"))
              || strict_eqb (event_type cet parsed)
                   (VStr (str "text-generation")));
      [destruct (truthy _); reflexivity|].
    destruct (strict_eqb (event_type cet parsed)
                (VStr (str "tool-call-delta")));
      [|destruct (strict_eqb (event_type cet parsed)
                    (VStr (str "message-end")));
        [reflexivity
        |destruct (strict_eqb (event_type cet parsed)
                     (VStr (str "stream-end"))); reflexivity]].
    destruct (map_get (prop parsed (str "index")) m) as [call|] eqn:Hg;
      [|reflexivity].
    destruct (truthy _); [|reflexivity].
    destruct (js_add _ _); [|reflexivity].
    rewrite map_set_keys, map_get_index, Hg. reflexivity.
Qed.

(** X9.  The order of the calls.  The accumulator lists the calls in the
    order in which the stream first opens their indexes with a
    tool-call-start event (one that has the call and its function),
    whatever the indexes are: a delta, another start at an index already
    open and every other frame leave the order as it is, and no frame
    removes a call.  This is the order in which the calls are executed and
    in which their results are sent. *)
Theorem calls_in_order_of_first_start (evs : list (value * value))
    (m : toolmap) :
  List.map fst (accumulate_all m evs) = call_order (List.map fst m) evs.
Proof.
  revert m. induction evs as [|[cet parsed] evs IH]; intros m;
    [reflexivity|].
  unfold accumulate_all, call_order. cbn [fold_left fst snd].
  fold (accumulate_all (accumulate cet m parsed) evs).
  rewrite IH, accumulate_keys. reflexivity.
Qed.

(* ===================================================================== *)
(** * The arguments of a call *)
(* ===================================================================== *)

Lemma trim_start_clean (s : jstring) :
  match s with [] => True | c :: _ => is_js_space c = false end ->
  trim_start s = s.
Proof. destruct s as [|c r]; [reflexivity|]. cbn. intros ->. reflexivity. Qed.

Lemma trim_start_head (s : jstring) :
  match trim_start s with [] => True | c :: _ => is_js_space c = false end.
Proof.
  induction s as [|c r IH]; [exact I|]. cbn [trim_start].
  destruct (is_js_space c) eqn:E; [exact IH | exact E].
Qed.

Lemma trim_start_suffix (s : jstring) : exists p, s = p ++ trim_start s.
Proof.
  induction s as [|c r [p IH]]; [exists []; reflexivity|]. cbn [trim_start].
  destruct (is_js_space c); [|exists []; reflexivity].
  exists (c :: p). cbn. rewrite <- IH. reflexivity.
Qed.

(** A text that neither starts nor ends with white space is its own
    trimmed text. *)
Lemma trim_clean (s : jstring) :
  match s with [] => True | c :: _ => is_js_space c = false end ->
  match rev s with [] => True | c :: _ => is_js_space c = false end ->
  trim s = s.
Proof.
  intros H1 H2. unfold trim.
  rewrite (trim_start_clean s H1), (trim_start_clean (rev s) H2).
  apply rev_involutive.
Qed.

Lemma trim_head (s : jstring) :
  match trim s with [] => True | c :: _ => is_js_space c = false end.
Proof.
  unfold trim.
  pose proof (trim_start_head s) as Ha.
  destruct (trim_start_suffix (rev (trim_start s))) as [p Hp].
  set (b := trim_start (rev (trim_start s))) in *.
  assert (E : trim_start s = rev b ++ rev p).
  { rewrite <- rev_app_distr, <- Hp, rev_involutive. reflexivity. }
  rewrite E in Ha. destruct (rev b) as [|c r]; [exact I | exact Ha].
Qed.

Lemma trim_last (s : jstring) :
  match rev (trim s) with [] => True | c :: _ => is_js_space c = false end.
Proof. unfold trim. rewrite rev_involutive. apply trim_start_head. Qed.

Lemma trim_trim (s : jstring) : trim (trim s) = trim s.
Proof. apply trim_clean; [apply trim_head | apply trim_last]. Qed.

Lemma trim_quote (s : jstring) : trim (quote s) = quote s.
Proof.
  apply trim_clean; unfold quote; [reflexivity|].
  cbn [rev]. rewrite rev_app_distr. reflexivity.
Qed.

Lemma ensureJsonString_braces :
  ensureJsonString (VStr (str "{}")) = VStr (str "{}").
Proof. vm_compute. reflexivity. Qed.

(** X10.  [ensureJsonString] is idempotent on strings: normalising a
    normalised argument text changes nothing.  In particular a text that
    was wrapped into a JSON string literal is not wrapped again. *)
Theorem ensureJsonString_idempotent (s : jstring) :
  ensureJsonString (ensureJsonString (VStr s)) = ensureJsonString (VStr s).
Proof.
  destruct (trim s) as [|c r] eqn:Ht.
  - rewrite (ensureJsonString_blank s Ht). apply ensureJsonString_braces.
  - assert (Hne : trim s <> []) by (rewrite Ht; discriminate).
    rewrite (ensureJsonString_text s Hne).
    destruct (JSON_parse (trim s)) as [v|] eqn:Hp.
    + rewrite ensureJsonString_text; rewrite trim_trim; [|exact Hne].
      rewrite Hp. reflexivity.
    + rewrite ensureJsonString_text; rewrite trim_quote;
        [|unfold quote; discriminate].
      rewrite JSON_parse_quote. reflexivity.
Qed.

Lemma ensureJsonString_params (s : jstring) :
  JSON_parse (ToString (ensureJsonString (VStr s))) = Some (handler_params s).
Proof.
  unfold handler_params.
  destruct (trim s) as [|c r] eqn:Ht.
  - rewrite (ensureJsonString_blank s Ht). vm_compute. reflexivity.
  - assert (Hne : trim s <> []) by (rewrite Ht; discriminate).
    rewrite (ensureJsonString_text s Hne), Ht.
    destruct (JSON_parse (c :: r)) as [v|] eqn:Hp; cbn [ToString].
    + exact Hp.
    + apply JSON_parse_quote.
Qed.

(** X11.  String arguments always reach the handler.  For a call whose
    accumulated arguments are a string, the text the executor parses
    always parses: to the empty object when the text is blank, to the
    JSON value of the trimmed text when that is JSON, and to the trimmed
    text itself, as a string, otherwise.  So when the key of the call is
    not in the cache and its tool has a handler, the handler is invoked,
    with that value; the executor never answers such a call with a
    SyntaxError. *)
Theorem string_arguments_reach_handler {W : Type}
    (syntax_error_message : jstring -> jstring)
    (cfg : @config W) (call : fragment) (text : jstring) (h : handler)
    (s : @service W) :
  tc_arguments call = VStr text ->
  toolCache s !! cacheKey call = None ->
  find_handler cfg call = Some h ->
  JSON_parse (ToString (ensureJsonString (tc_arguments call)))
  = Some (handler_params text)
  /\ effects (snd (executeToolCalls syntax_error_message cfg [call] s))
     = effects s
       ++ [Invoke call (handler_params text)
             (fst (h (handler_params text) (world s)))].
Proof.
  intros Ha Hmiss Hh.
  assert (Hp : JSON_parse (ToString (ensureJsonString (tc_arguments call)))
               = Some (handler_params text))
    by (rewrite Ha; apply ensureJsonString_params).
  split; [exact Hp|].
  rewrite executeToolCalls_single. unfold start_call.
  rewrite Hmiss, Hh, Hp.
  destruct (h (handler_params text) (world s)) as [[r|t] w']; reflexivity.
Qed.


(* ===================================================================== *)
(** * Stopping *)
(* ===================================================================== *)

(** X13.  [stopStream] stops every stream.  Take any interleaving of
    calls of [stopStream] and [generateResponse] with the steps of the
    request chains in which no chain issues a follow-up request after
    tool calls.  Then at most one request or stream is live and, once
    [stopStream] is called, none is: every chain in flight holds a signal
    that has been aborted. *)
Theorem stopStream_stops_every_stream {W : Type} (w : W)
    (moves : list move) (g : @gate W) :
  forallb (fun m => negb (is_continuation m)) moves = true ->
  run {| svc := new_service w; chains := [] |} moves = Some g ->
  (live_streams g <= 1)%nat
  /\ live_streams {| svc := stopStream (svc g); chains := chains g |} = 0%nat.
Proof.
  intros Hm Hrun.
  assert (Hg : gate_inv g).
  { apply (run_gate_inv moves _ g Hm Hrun).
    unfold gate_inv.
    cbn [svc chains new_service controllers abortController].
    repeat split.
    - intros i sig. unfold signal_at. rewrite lookup_nil. discriminate.
    - intros i j c. unfold signal_at. rewrite lookup_nil. discriminate.
    - intros c Hlt. lia.
    - discriminate. }
  split; [apply gate_inv_single_flight, Hg|].
  apply gate_inv_stopStream in Hg.
  destruct Hg as (I1 & _ & I3 & _). cbn [svc chains] in I1, I3.
  unfold live_streams. cbn [svc chains].
  assert (Hnone : abortController (stopStream (svc g)) = None)
    by (unfold stopStream; destruct (abortController (svc g)); reflexivity).
  assert (Hall : forall ch, In ch (chains g) ->
                   live (stopStream (svc g)) ch = false).
  { intros ch Hin. apply list_elem_of_In, list_elem_of_lookup in Hin.
    destruct Hin as [i Hi].
    destruct ch as [sig| |]; try reflexivity.
    assert (Hs : signal_at (chains g) i = Some sig)
      by (unfold signal_at; rewrite Hi; reflexivity).
    destruct (I1 i sig Hs) as (c & -> & Hlt).
    destruct (I3 c Hlt) as [Ha|Hc]; [|congruence].
    cbn [live]. rewrite Ha. reflexivity. }
  clear I1 I3. induction (chains g) as [|ch l IH]; [reflexivity|].
  cbn [List.filter]. rewrite (Hall ch) by (left; reflexivity).
  apply IH. intros ch' Hin. apply Hall. right. exact Hin.
Qed.

(* ===================================================================== *)
(** * The chat store *)
(* ===================================================================== *)

Section StoreProofs.

Context {W : Type}.
Variable syntax_error_message : jstring -> jstring.
Variable toLowerCase : jstring -> jstring.

Lemma with_chunk_others (id : nat) (chunk : value) (ms : list message) :
  Forall (fun m => msg_id m <> id) ms ->
  List.map (with_chunk id chunk) ms = ms.
Proof.
  induction 1 as [|m ms Hm _ IH]; [reflexivity|]. cbn [List.map].
  rewrite IH. unfold with_chunk.
  destruct (Nat.eqb_spec (msg_id m) id); [contradiction | reflexivity].
Qed.

Lemma with_isTyping_others (id : nat) (b : bool) (ms : list message) :
  Forall (fun m => msg_id m <> id) ms ->
  List.map (with_isTyping id b) ms = ms.
Proof.
  induction 1 as [|m ms Hm _ IH]; [reflexivity|]. cbn [List.map].
  rewrite IH. unfold with_isTyping.
  destruct (Nat.eqb_spec (msg_id m) id); [contradiction | reflexivity].
Qed.

(** Appending to the last message, when no other message has its
    identifier. *)
Lemma appendToAssistantMsg_last (id : nat) (chunk : value) (st : @store W)
    (pre : list message) (a : message) :
  st_messages st = pre ++ [a] ->
  Forall (fun m => msg_id m <> id) pre ->
  msg_id a = id ->
  appendToAssistantMsg id chunk st =
  set_messages
    (pre ++ [ {| msg_type := msg_type a;
                 msg_content := msg_content a ++ ToString chunk;
                 msg_id := msg_id a; msg_timestamp := msg_timestamp a;
                 msg_isTyping := msg_isTyping a |} ]) st.
Proof.
  intros Hm Hpre <-. unfold appendToAssistantMsg. rewrite Hm, List.map_app.
  rewrite (with_chunk_others _ _ _ Hpre). cbn [List.map].
  unfold with_chunk. rewrite Nat.eqb_refl. reflexivity.
Qed.

Lemma updateAssistantMsg_last (id : nat) (b : bool) (st : @store W)
    (pre : list message) (a : message) :
  st_messages st = pre ++ [a] ->
  Forall (fun m => msg_id m <> id) pre ->
  msg_id a = id ->
  updateAssistantMsg id b st =
  set_messages
    (pre ++ [ {| msg_type := msg_type a; msg_content := msg_content a;
                 msg_id := msg_id a; msg_timestamp := msg_timestamp a;
                 msg_isTyping := Some b |} ]) st.
Proof.
  intros Hm Hpre <-. unfold updateAssistantMsg. rewrite Hm, List.map_app.
  rewrite (with_isTyping_others _ _ _ Hpre). cbn [List.map].
  unfold with_isTyping. rewrite Nat.eqb_refl. reflexivity.
Qed.

(** The values of the channel are appended one after the other. *)
Lemma deliver_texts (id subject : nat) (texts : list value)
    (rest : list effect) (st : @store W) (pre : list message)
    (a : message) :
  st_messages st = pre ++ [a] ->
  Forall (fun m => msg_id m <> id) pre ->
  msg_id a = id ->
  deliver toLowerCase id (List.map (Next subject) texts ++ rest) st =
  deliver toLowerCase id rest
    (set_messages
       (pre ++ [ {| msg_type := msg_type a;
                    msg_content :=
                      msg_content a ++ concat (List.map ToString texts);
                    msg_id := msg_id a; msg_timestamp := msg_timestamp a;
                    msg_isTyping := msg_isTyping a |} ]) st).
Proof.
  revert st a. induction texts as [|t texts IH]; intros st a Hm Hpre Hid.
  - cbn [List.map concat app]. rewrite app_nil_r.
    f_equal. destruct st, a; cbn in *. subst. reflexivity.
  - cbn [List.map app deliver].
    rewrite (appendToAssistantMsg_last id t st pre a Hm Hpre Hid).
    erewrite IH; [|reflexivity | exact Hpre | exact Hid].
    cbn [msg_type msg_content msg_id msg_timestamp msg_isTyping concat].
    rewrite <- app_assoc. reflexivity.
Qed.

Lemma history_slice (systemPrompt : value) (old : list message)
    (u a : message) (content : jstring) :
  history systemPrompt (old ++ [u; a]) content =
  VObj [(str "role", VStr (str "system")); (str "content", systemPrompt)]
  :: List.map to_history old
  ++ [VObj [(str "role", VStr (str "user"));
            (str "content", VStr content)]].
Proof.
  unfold history. rewrite length_app. cbn [length].
  replace (length old + 2 - 2)%nat with (length old) by lia.
  rewrite take_app_length. reflexivity.
Qed.

Lemma settled_texts (subject : nat) (texts : list value)
    (rest : list effect) :
  settled toLowerCase (List.map (Next subject) texts ++ rest)
  = settled toLowerCase rest.
Proof. induction texts as [|t texts IH]; [reflexivity | exact IH]. Qed.

Lemma failed_texts (subject : nat) (texts : list value)
    (rest : list effect) :
  failed toLowerCase (List.map (Next subject) texts ++ rest)
  = failed toLowerCase rest.
Proof. induction texts as [|t texts IH]; [reflexivity | exact IH]. Qed.

Lemma channel_texts_texts (subject : nat) (texts : list value)
    (rest : list effect) :
  channel_texts (List.map (Next subject) texts ++ rest)
  = texts ++ channel_texts rest.
Proof.
  induction texts as [|t texts IH]; [reflexivity|].
  cbn [List.map app channel_texts flat_map]. f_equal. exact IH.
Qed.

(** The events of the run are those of its channel. *)
Lemma generateResponse_new_events (net : list response) (cfg : @config W)
    (msgs : list value) (s : @service W) :
  reachable syntax_error_message s ->
  channel (subjects s)
    (skipn (length (effects s))
       (effects (snd (generateResponse syntax_error_message net cfg msgs s))))
  = channel (subjects s)
      (effects (snd (generateResponse syntax_error_message net cfg msgs s))).
Proof.
  intros Hr.
  destruct (reachable_invariant syntax_error_message s Hr) as [_ Hk].
  assert (Hg : grows s (snd (generateResponse syntax_error_message net cfg
                               msgs s))).
  { destruct (generateResponse_gate syntax_error_message net cfg msgs s)
      as [rest Hrest].
    destruct (stopStream_effects s) as (_ & _ & _ & _ & He).
    unfold grows. rewrite Hrest.
    destruct He as [->|[c ->]]; [eexists; reflexivity|].
    rewrite <- app_assoc. eexists; reflexivity. }
  destruct Hg as [new ->]. rewrite drop_app_length, channel_app.
  rewrite (fresh_channel s (effects s)); [reflexivity|].
  intros e Hin Hon. eapply Hk; eassumption.
Qed.

(** The store once [processMessage] and the deliveries of its
    subscription are over. *)
Lemma processMessage_run (net : list response) (content : jstring)
    (now : Z) (st : @store W) :
  store_ok syntax_error_message st ->
  trim content <> [] ->
  st_isProcessing st = false ->
  let run :=
    generateResponse syntax_error_message net (store_config st)
      (VObj [(str "role", VStr (str "system"));
             (str "content", st_systemPrompt st)]
       :: List.map to_history (st_messages st)
       ++ [VObj [(str "role", VStr (str "user"));
                 (str "content", VStr content)]])
      (cohereService st) in
  let events := channel (fst run) (effects (snd run)) in
  processMessage syntax_error_message toLowerCase net content now st =
  {| st_apiKey := st_apiKey st; st_modelName := st_modelName st;
     st_systemPrompt := st_systemPrompt st; st_apiUrl := st_apiUrl st;
     st_tools := st_tools st; st_documents := st_documents st;
     st_startMessage := st_startMessage st;
     st_messages :=
       st_messages st
       ++ [ {| msg_type := str "user"; msg_content := content;
               msg_id := uuids st; msg_timestamp := now;
               msg_isTyping := None |};
            {| msg_type := str "assistant";
               msg_content :=
                 concat (List.map ToString (channel_texts events))
                 ++ (if failed toLowerCase events then failed_marker
                     else []);
               msg_id := S (uuids st); msg_timestamp := now;
               msg_isTyping := Some (negb (settled toLowerCase events)) |} ];
     st_isProcessing := negb (settled toLowerCase events);
     msgSubscription := Some (fst run);
     cohereService := snd run;
     uuids := S (S (uuids st)) |}.
Proof.
  intros (Hreach & Hfresh & Hnd) Hc Hp run events.
  unfold processMessage.
  assert (Ht : truthy (VStr (trim content)) = true)
    by (destruct (trim content); [congruence | reflexivity]).
  rewrite Ht, Hp. cbn [negb orb].
  cbn [st_messages st_systemPrompt set_isProcessing set_messages set_uuids
       cohereService uuids].
  rewrite history_slice.
  change (store_config _) with (store_config st).
  fold run.
  pose proof (generateResponse_new_events net (store_config st)
                (VObj [(str "role", VStr (str "system"));
                       (str "content", st_systemPrompt st)]
                 :: List.map to_history (st_messages st)
                 ++ [VObj [(str "role", VStr (str "user"));
                           (str "content", VStr content)]])
                (cohereService st) Hreach) as Hnew.
  pose proof (generateResponse_channel syntax_error_message net
                (store_config st)
                (VObj [(str "role", VStr (str "system"));
                       (str "content", st_systemPrompt st)]
                 :: List.map to_history (st_messages st)
                 ++ [VObj [(str "role", VStr (str "user"));
                           (str "content", VStr content)]])
                (cohereService st) Hreach) as Hshape.
  fold run in Hnew, Hshape.
  assert (Hsub : fst run = subjects (cohereService st)).
  { destruct (stopStream_effects (cohereService st)) as (_ & Hs & _).
    exact Hs. }
  destruct run as [subject s'] eqn:Hrun. cbn [fst snd] in *. subst subject.
  rewrite Hnew. fold events.
  set (u := {| msg_type := str "user"; msg_content := content;
               msg_id := uuids st; msg_timestamp := now;
               msg_isTyping := None |}).
  set (a := {| msg_type := str "assistant"; msg_content := [];
               msg_id := S (uuids st); msg_timestamp := now;
               msg_isTyping := Some true |}).
  assert (Hpre : Forall (fun m => msg_id m <> msg_id a)
                   (st_messages st ++ [u])).
  { apply Forall_app. split.
    - eapply Forall_impl; [exact Hfresh|]. cbn. intros m Hm. lia.
    - constructor; [cbn; lia | constructor]. }
  change (S (uuids st)) with (msg_id a).
  change (st_messages st ++ [u; a]) with (st_messages st ++ [u] ++ [a]).
  rewrite app_assoc.
  destruct Hshape as [(texts & t & Hev & Hterm)|[[texts Hev] _]];
    fold events in Hev; rewrite Hev.
  - erewrite deliver_texts; [|reflexivity | exact Hpre | reflexivity].
    rewrite settled_texts, failed_texts, channel_texts_texts.
    destruct t as [| | | |subject|subject e]; try discriminate Hterm.
    + cbn [deliver]. unfold on_complete.
      erewrite updateAssistantMsg_last;
        [|reflexivity | exact Hpre | reflexivity].
      cbn. rewrite !app_nil_r, <- app_assoc. reflexivity.
    + cbn [deliver settled failed existsb channel_texts flat_map orb app].
      unfold on_error.
      destruct (abort_like toLowerCase e) eqn:Ha; cbn [negb].
      * cbn. rewrite !app_nil_r, <- app_assoc. reflexivity.
      * erewrite appendToAssistantMsg_last;
          [|reflexivity | exact Hpre | reflexivity].
        erewrite updateAssistantMsg_last;
          [|reflexivity | exact Hpre | reflexivity].
        cbn. rewrite !app_nil_r, <- app_assoc. reflexivity.
  - rewrite <- (app_nil_r (List.map _ texts)).
    erewrite deliver_texts; [|reflexivity | exact Hpre | reflexivity].
    rewrite settled_texts, failed_texts, channel_texts_texts.
    cbn. rewrite !app_nil_r, <- app_assoc. reflexivity.
Qed.

Lemma deliver_service (id : nat) (events : list effect) (st : @store W) :
  cohereService (deliver toLowerCase id events st) = cohereService st.
Proof.
  revert st. induction events as [|e events IH]; intros st; [reflexivity|].
  destruct e; cbn [deliver]; try apply IH.
  - rewrite IH. reflexivity.
  - reflexivity.
  - unfold on_error. destruct (abort_like toLowerCase e); reflexivity.
Qed.

Lemma processMessage_service (net : list response) (content : jstring)
    (now : Z) (st : @store W) :
  trim content <> [] ->
  st_isProcessing st = false ->
  cohereService (processMessage syntax_error_message toLowerCase net content
                   now st)
  = snd (generateResponse syntax_error_message net (store_config st)
           (VObj [(str "role", VStr (str "system"));
                  (str "content", st_systemPrompt st)]
            :: List.map to_history (st_messages st)
            ++ [VObj [(str "role", VStr (str "user"));
                      (str "content", VStr content)]])
           (cohereService st)).
Proof.
  intros Hc Hp. unfold processMessage.
  assert (Ht : truthy (VStr (trim content)) = true)
    by (destruct (trim content); [congruence | reflexivity]).
  rewrite Ht, Hp. cbn [negb orb].
  cbn [st_messages st_systemPrompt set_isProcessing set_messages set_uuids
       cohereService uuids].
  rewrite history_slice.
  change (store_config _) with (store_config st).
  destruct (generateResponse _ _ _ _ _) as [subject s'].
  rewrite deliver_service. reflexivity.
Qed.

(** [stopRequest] on a store whose last message is an assistant message
    with an identifier of its own. *)
Lemma stopRequest_last (st : @store W) (pre : list message) (a : message) :
  st_messages st = pre ++ [a] ->
  msg_type a = str "assistant" ->
  Forall (fun m => msg_id m <> msg_id a) pre ->
  stopRequest st =
  set_isProcessing false
    (set_messages
       (pre ++ [ {| msg_type := msg_type a;
                    msg_content := msg_content a ++ stopped_marker;
                    msg_id := msg_id a; msg_timestamp := msg_timestamp a;
                    msg_isTyping := Some false |} ])
       (set_service (stopStream (cohereService st))
          (set_subscription None st))).
Proof.
  intros Hm Ha Hpre. unfold stopRequest.
  cbn [st_messages set_service set_subscription cohereService].
  rewrite Hm, last_snoc, Ha, jstring_eqb_refl.
  erewrite appendToAssistantMsg_last; [|exact Hm | exact Hpre | reflexivity].
  erewrite updateAssistantMsg_last;
    [|reflexivity | exact Hpre | reflexivity].
  cbn [msg_type msg_content msg_id msg_timestamp msg_isTyping ToString].
  rewrite ?Ha. reflexivity.
Qed.

(** The methods of the store keep its state in order. *)
Lemma store_ok_stopRequest (st : @store W) :
  store_ok syntax_error_message st ->
  store_ok syntax_error_message (stopRequest st).
Proof.
  intros (Hr & Hf & Hn). unfold stopRequest.
  cbn [st_messages set_service set_subscription cohereService].
  assert (Hids : forall id b c,
             List.map msg_id
               (List.map (with_isTyping id b)
                  (List.map (with_chunk id c) (st_messages st)))
             = List.map msg_id (st_messages st)).
  { intros id b c. rewrite !List.map_map. apply List.map_ext. intros m.
    unfold with_isTyping, with_chunk.
    destruct (msg_id m =? id)%nat eqn:E; cbn [msg_id]; rewrite ?E;
      reflexivity. }
  assert (Hlt : forall (ms ms' : list message) (n : nat),
             List.map msg_id ms' = List.map msg_id ms ->
             Forall (fun m => (msg_id m < n)%nat) ms ->
             Forall (fun m => (msg_id m < n)%nat) ms').
  { intros ms ms' n E H.
    rewrite <- (Forall_map msg_id (fun i => (i < n)%nat)) in H |- *.
    rewrite E. exact H. }
  destruct (last (st_messages st)) as [m|];
    [destruct (jstring_eqb (msg_type m) (str "assistant"))|];
    (split; [apply reach_stopStream, Hr|]); cbn; split;
    try assumption.
  - eapply Hlt; [apply Hids | exact Hf].
  - rewrite Hids. exact Hn.
Qed.

Lemma store_ok_clearChat (initialMessage : option jstring) (now : Z)
    (st : @store W) :
  store_ok syntax_error_message st ->
  store_ok syntax_error_message (clearChat initialMessage now st).
Proof.
  intros H. apply store_ok_stopRequest in H. destruct H as (Hr & Hf & Hn).
  unfold clearChat.
  destruct (match initialMessage with
            | Some (c :: r) => c :: r
            | _ => st_startMessage (stopRequest st)
            end) as [|c r];
    (split; [exact Hr|]);
    cbn [st_messages uuids set_messages set_uuids List.map msg_id]; split.
  - constructor.
  - apply NoDup_nil_2.
  - constructor; [cbn; lia | constructor].
  - apply NoDup_singleton.
Qed.

Lemma store_ok_initialize (now : Z) (st : @store W) :
  store_ok syntax_error_message st ->
  store_ok syntax_error_message (initialize now st).
Proof.
  intros (Hr & Hf & Hn). unfold initialize.
  destruct (st_startMessage st) as [|c r]; [repeat split; assumption|].
  destruct (st_messages st) as [|m ms] eqn:E;
    [|repeat split; try assumption; rewrite E; assumption].
  (split; [exact Hr|]);
    cbn [st_messages uuids set_messages set_uuids List.map msg_id]; split.
  - constructor; [cbn; lia | constructor].
  - apply NoDup_singleton.
Qed.

Lemma store_ok_processMessage (net : list response) (content : jstring)
    (now : Z) (st : @store W) :
  store_ok syntax_error_message st ->
  store_ok syntax_error_message
    (processMessage syntax_error_message toLowerCase net content now st).
Proof.
  intros H.
  destruct (trim content) as [|c r] eqn:Hc;
    [unfold processMessage; rewrite Hc; exact H|].
  destruct (st_isProcessing st) eqn:Hp;
    [unfold processMessage; rewrite Hc, Hp; exact H|].
  rewrite processMessage_run; [|exact H | congruence | exact Hp].
  destruct H as (Hr & Hf & Hn). split; [|split].
  - cbn [cohereService]. apply reach_generateResponse, Hr.
  - cbn [st_messages uuids]. apply Forall_app. split.
    + eapply Forall_impl; [exact Hf|]. cbn. intros m Hm. lia.
    + repeat constructor; cbn; lia.
  - cbn [st_messages]. rewrite List.map_app. cbn [List.map msg_id].
    apply NoDup_app. split; [exact Hn|]. split.
    + intros i Hi Hin. apply list_elem_of_In, in_map_iff in Hi.
      destruct Hi as (m & <- & Hm).
      rewrite List.Forall_forall in Hf. specialize (Hf m Hm).
      apply list_elem_of_In in Hin. destruct Hin as [E|[E|[]]]; lia.
    + apply NoDup_cons. split; [|apply NoDup_singleton].
      intros Hin. apply list_elem_of_In in Hin.
      destruct Hin as [E|[]]. lia.
Qed.

(** A response that is not ok gives the channel one error. *)
Lemma generateResponse_not_ok (net : list response) (status : value)
    (text : jstring) (body : option (list jstring * stream_end))
    (cfg : @config W) (msgs : list value) (s : @service W) :
  reachable syntax_error_message s ->
  channel (subjects s)
    (effects (snd (generateResponse syntax_error_message
                     (Response false status text body :: net) cfg msgs s)))
  = [Error (subjects s)
       (MkError (str "Error")
          (str "Cohere API Error " ++ ToString status ++ str ": " ++ text))].
Proof.
  intros Hr.
  destruct (reachable_invariant syntax_error_message s Hr) as [_ Hk].
  destruct (stopStream_effects s) as (_ & Hs & _).
  unfold generateResponse. cbn [snd processRequest negb].
  unfold request_failed. cbn [err_name].
  change (jstring_eqb (str "Error") (str "AbortError")) with false.
  cbn [emit effects install_controller subjects].
  rewrite !channel_app, stopStream_channel, Hs.
  rewrite (fresh_channel s (effects s))
    by (intros e Hin Hon; eapply Hk; eassumption).
  cbn. rewrite Nat.eqb_refl. reflexivity.
Qed.

End StoreProofs.

(** X14.  The answer in the store.  On a store in order that is not
    processing, [processMessage] with a text that is not blank adds the
    user message and the assistant message, and once the request has run
    the assistant message holds the values its channel was given, each
    converted to a string, in order and with nothing in between, followed
    by the failure line when the channel ended with an error that the
    store does not take for an abort.  The message stops typing and the
    store stops processing exactly when the channel ended with [complete]
    or with such an error; the earlier messages are as they were. *)
Theorem answer_in_the_store {W : Type}
    (syntax_error_message toLowerCase : jstring -> jstring)
    (net : list response) (content : jstring) (now : Z) (st : @store W) :
  store_ok syntax_error_message st ->
  trim content <> [] ->
  st_isProcessing st = false ->
  let run :=
    generateResponse syntax_error_message net (store_config st)
      (VObj [(str "role", VStr (str "system"));
             (str "content", st_systemPrompt st)]
       :: List.map to_history (st_messages st)
       ++ [VObj [(str "role", VStr (str "user"));
                 (str "content", VStr content)]])
      (cohereService st) in
  let events := channel (fst run) (effects (snd run)) in
  let st' :=
    processMessage syntax_error_message toLowerCase net content now st in
  st_messages st' =
    st_messages st
    ++ [ {| msg_type := str "user"; msg_content := content;
            msg_id := uuids st; msg_timestamp := now;
            msg_isTyping := None |};
         {| msg_type := str "assistant";
            msg_content :=
              concat (List.map ToString (channel_texts events))
              ++ (if failed toLowerCase events then failed_marker else []);
            msg_id := S (uuids st); msg_timestamp := now;
            msg_isTyping := Some (negb (settled toLowerCase events)) |} ]
  /\ st_isProcessing st' = negb (settled toLowerCase events)
  /\ cohereService st' = snd run.
Proof.
  intros Hok Hc Hp run events st'. subst st'.
  rewrite (processMessage_run syntax_error_message toLowerCase net content
             now st Hok Hc Hp).
  repeat split.
Qed.

(** X15.  What the model is sent.  [sendMessage] on an input that is not
    blank, on a store that is not processing, empties the input field and
    sends one request first: to the URL of the store, with its key, model,
    tool schemas and documents, and with the messages made of the system
    prompt, the messages the store held before (role and content, in
    order) and the trimmed input as the user message.  The assistant
    message that is added for the answer is not sent. *)
Theorem message_sent_to_the_model {W : Type}
    (syntax_error_message toLowerCase : jstring -> jstring)
    (net : list response) (inputValue : jstring) (now : Z)
    (st : @store W) :
  trim inputValue <> [] ->
  st_isProcessing st = false ->
  snd (sendMessage syntax_error_message toLowerCase net inputValue now st)
  = []
  /\ exists rest,
       effects (cohereService
                  (fst (sendMessage syntax_error_message toLowerCase net
                          inputValue now st)))
       = effects (stopStream (cohereService st))
         ++ Fetch (st_apiUrl st)
              (str "Bearer " ++ ToString (st_apiKey st))
              {| model := st_modelName st;
                 messages :=
                   VObj [(str "role", VStr (str "system"));
                         (str "content", st_systemPrompt st)]
                   :: List.map to_history (st_messages st)
                   ++ [VObj [(str "role", VStr (str "user"));
                             (str "content", VStr (trim inputValue))]];
                 stream := true;
                 tools := transformTools (st_tools st);
                 documents := Some (st_documents st) |}
              (Some (controllers (cohereService st)))
            :: rest.
Proof.
  intros Hc Hp. unfold sendMessage.
  assert (Ht : truthy (VStr (trim inputValue)) = true)
    by (destruct (trim inputValue); [congruence | reflexivity]).
  rewrite Ht, Hp. cbn [negb orb fst snd]. split; [reflexivity|].
  rewrite processMessage_service by (rewrite ?trim_trim; assumption).
  apply generateResponse_gate.
Qed.

(** X16.  An error that reads like an abort.  When the answer to the
    request is a response that is not ok and the message of the error made
    from it ([Cohere API Error], the status and the text of the response),
    in lower case, contains [abort], the [error] callback of the store
    returns at once: the assistant message stays empty and typing, the
    store stays processing, and every later [processMessage] does nothing
    (until [stopRequest] or [clearChat] is called). *)
Theorem abort_like_error_keeps_processing {W : Type}
    (syntax_error_message toLowerCase : jstring -> jstring)
    (net : list response) (status : value) (text : jstring)
    (body : option (list jstring * stream_end))
    (content : jstring) (now : Z) (st : @store W) :
  store_ok syntax_error_message st ->
  trim content <> [] ->
  st_isProcessing st = false ->
  includes
    (toLowerCase (str "Cohere API Error " ++ ToString status ++ str ": "
                  ++ text))
    (str "abort") = true ->
  let st' :=
    processMessage syntax_error_message toLowerCase
      (Response false status text body :: net) content now st in
  st_isProcessing st' = true
  /\ last (st_messages st')
     = Some {| msg_type := str "assistant"; msg_content := [];
               msg_id := S (uuids st); msg_timestamp := now;
               msg_isTyping := Some true |}
  /\ forall net' content' now',
       processMessage syntax_error_message toLowerCase net' content' now' st'
       = st'.
Proof.
  intros Hok Hc Hp Hab st'.
  assert (Hst : st_isProcessing st' = true
                /\ last (st_messages st')
                   = Some {| msg_type := str "assistant"; msg_content := [];
                             msg_id := S (uuids st); msg_timestamp := now;
                             msg_isTyping := Some true |}).
  { subst st'.
    rewrite (processMessage_run syntax_error_message toLowerCase _ content
               now st Hok Hc Hp).
    assert (Hsub : forall msgs,
               fst (generateResponse syntax_error_message
                      (Response false status text body :: net)
                      (store_config st) msgs (cohereService st))
               = subjects (cohereService st)).
    { intros msgs.
      destruct (stopStream_effects (cohereService st)) as (_ & Hs & _).
      exact Hs. }
    cbn [st_isProcessing st_messages].
    rewrite Hsub, generateResponse_not_ok by apply Hok.
    cbn [settled failed existsb channel_texts flat_map List.map concat app
         orb].
    unfold abort_like. cbn [err_name err_message]. rewrite Hab, orb_true_r.
    cbn [negb]. split; [reflexivity|].
    rewrite last_app. reflexivity. }
  destruct Hst as [H1 H2]. repeat split; [exact H1 | exact H2|].
  intros net' content' now'. unfold processMessage.
  rewrite H1, orb_true_r. reflexivity.
Qed.

Lemma concat_repeat_snoc {A : Type} (x : list A) (n : nat) :
  concat (repeat x n) ++ x = x ++ concat (repeat x n).
Proof.
  induction n as [|n IH]; cbn [repeat concat];
    [rewrite app_nil_r; reflexivity|].
  rewrite <- app_assoc, IH. reflexivity.
Qed.

(** X17.  Every stop leaves its mark.  On a store whose last message is
    an assistant message (with an identifier no other message has),
    [stopRequest] appends the stop line to that message, whether or not a
    request is running, and calling it [n] times appends the line [n]
    times.  After a call the message is not typing, the store is not
    processing, has no subscription, and its service has no controller. *)
Theorem stopRequest_marks_each_time {W : Type} (st : @store W)
    (pre : list message) (a : message) (n : nat) :
  st_messages st = pre ++ [a] ->
  msg_type a = str "assistant" ->
  Forall (fun m => msg_id m <> msg_id a) pre ->
  let st' := Nat.iter (S n) stopRequest st in
  st_messages st' =
    pre ++ [ {| msg_type := msg_type a;
                msg_content :=
                  msg_content a ++ concat (repeat stopped_marker (S n));
                msg_id := msg_id a; msg_timestamp := msg_timestamp a;
                msg_isTyping := Some false |} ]
  /\ st_isProcessing st' = false
  /\ msgSubscription st' = None
  /\ abortController (cohereService st') = None.
Proof.
  intros Hm Ha Hpre. cbv zeta. induction n as [|n IH].
  - cbn [Nat.iter nat_rect]. rewrite (stopRequest_last st pre a Hm Ha Hpre).
    cbn [st_messages st_isProcessing msgSubscription cohereService
         set_isProcessing set_messages set_service set_subscription
         repeat concat].
    rewrite app_nil_r. repeat split.
  - destruct IH as (IHm & _).
    change (Nat.iter (S (S n)) stopRequest st)
      with (stopRequest (Nat.iter (S n) stopRequest st)).
    erewrite stopRequest_last; [|exact IHm | exact Ha | exact Hpre].
    cbn [st_messages st_isProcessing msgSubscription cohereService
         set_isProcessing set_messages set_service set_subscription
         msg_type msg_content msg_id msg_timestamp msg_isTyping].
    repeat split.
    do 3 f_equal. rewrite <- app_assoc. f_equal.
    apply concat_repeat_snoc.
Qed.

(** X18.  The start message is added once.  [initialize] on a store it
    has run on changes nothing, whatever has happened in between to the
    rest of the state: the start message is added only to an empty
    conversation. *)
Theorem initialize_idempotent {W : Type} (now now' : Z) (st : @store W) :
  initialize now' (initialize now st) = initialize now st.
Proof.
  destruct (st_startMessage st) as [|c r] eqn:Hs.
  - assert (E : forall t, initialize t st = st)
      by (intros t; unfold initialize; rewrite Hs; reflexivity).
    rewrite !E. reflexivity.
  - destruct (st_messages st) as [|m ms] eqn:Hm.
    + assert (E : initialize now st =
                  set_uuids (S (uuids st))
                    (set_messages
                       [ {| msg_type := str "assistant";
                            msg_content := st_startMessage st;
                            msg_id := uuids st; msg_timestamp := now;
                            msg_isTyping := None |} ] st))
        by (unfold initialize; rewrite Hs, Hm; reflexivity).
      rewrite E. unfold initialize.
      cbn [st_startMessage st_messages set_uuids set_messages].
      rewrite Hs. reflexivity.
    + assert (E : forall t, initialize t st = st)
        by (intros t; unfold initialize; rewrite Hs, Hm; reflexivity).
      rewrite !E. reflexivity.
Qed.

(* ===================================================================== *)
(** * The formatting of a message *)
(* ===================================================================== *)

(** The replacement of a match goes on after the match. *)
Lemma close_bold_split (s inner rest : jstring) :
  close_bold s = Some (inner, rest) -> s = inner ++ [42; 42] ++ rest.
Proof.
  revert inner. induction s as [|c r IH]; intros inner; [discriminate|].
  cbn [close_bold]. change (str "**") with [42; 42].
  destruct (startsWith (c :: r) [42; 42]) eqn:Es.
  - intros [= <- <-]. destruct r as [|d r]; cbn [startsWith] in Es;
      [rewrite andb_false_r in Es; discriminate|].
    apply andb_true_iff in Es. destruct Es as [E1 E2].
    apply andb_true_iff in E2. destruct E2 as [E2 _].
    apply N.eqb_eq in E1, E2. subst. reflexivity.
  - destruct (is_line_terminator c); [discriminate|].
    destruct (close_bold r) as [[i0 r0]|]; [|discriminate].
    intros [= <- <-]. rewrite (IH i0 eq_refl). reflexivity.
Qed.

Lemma bold_from_skip (x y : jstring) :
  bold_from (length x) (x ++ y) = bold_from 0 y.
Proof. induction x as [|c x IH]; [reflexivity | exact IH]. Qed.

Lemma bold_from_start (c : N) (r : jstring) :
  bold_from 0 (c :: r) =
  if startsWith (c :: r) (str "**") then
    match close_bold (skipn 2 (c :: r)) with
    | Some (inner, _) =>
        str "<strong>" ++ inner ++ str "</strong>"
        ++ bold_from (length inner + 3) r
    | None => c :: bold_from 0 r
    end
  else c :: bold_from 0 r.
Proof. reflexivity. Qed.

Lemma bold_match (s inner rest : jstring) :
  startsWith s (str "**") = true ->
  close_bold (skipn 2 s) = Some (inner, rest) ->
  bold s = str "<strong>" ++ inner ++ str "</strong>" ++ bold rest.
Proof.
  intros Hs Hc. unfold bold.
  destruct s as [|c [|d r]]; try discriminate.
  rewrite bold_from_start, Hs, Hc. do 3 f_equal.
  cbn [skipn] in Hc. pose proof (close_bold_split r inner rest Hc) as Hr.
  rewrite <- (bold_from_skip (d :: inner ++ [42; 42]) rest).
  f_equal.
  - cbn [length]. rewrite length_app. cbn [length]. lia.
  - rewrite Hr. cbn [app]. rewrite <- app_assoc. reflexivity.
Qed.

Lemma bold_no_match (c : N) (r : jstring) :
  startsWith (c :: r) (str "**") = false
  \/ close_bold (skipn 2 (c :: r)) = None ->
  bold (c :: r) = c :: bold r.
Proof.
  unfold bold. rewrite bold_from_start. intros [->| ->]; [reflexivity|].
  destruct (startsWith _ _); reflexivity.
Qed.

Lemma forallb_flat_map {A B : Type} (p : B -> bool) (f : A -> list B)
    (l : list A) :
  (forall a, forallb p (f a) = true) -> forallb p (flat_map f l) = true.
Proof.
  intros H. induction l as [|a l IH]; [reflexivity|]. cbn [flat_map].
  rewrite forallb_app, H, IH. reflexivity.
Qed.

Lemma line_breaks_units (s : jstring) :
  forallb (fun c => negb (c =? 10)) (line_breaks s) = true.
Proof.
  apply forallb_flat_map. intros c.
  destruct (c =? 10) eqn:E; [reflexivity|]. cbn. rewrite E. reflexivity.
Qed.

Lemma bullets_pair (b : bool) (c d : N) (r : jstring) :
  bullets b (c :: d :: r) =
  if b && (c =? 8226) && (d =? 32) then bullet_span ++ bullets false r
  else c :: bullets (is_line_terminator c) (d :: r).
Proof. reflexivity. Qed.

Lemma pictographs_pair (c d : N) (r : jstring) :
  pictographs (c :: d :: r) =
  if is_high_surrogate c && is_low_surrogate d then
    if is_pictograph (code_point c d) then
      str_q "<span class='text-2xl align-middle'>" ++ [c; d]
      ++ str "</span>" ++ pictographs r
    else c :: d :: pictographs r
  else c :: pictographs (d :: r).
Proof. reflexivity. Qed.

(** The passes for the bullets and the pictographs write the code units
    of the text and of their own tags. *)
Lemma bullets_units (p : N -> bool) (s : jstring) :
  forallb p bullet_span = true ->
  forallb p s = true ->
  forall b, forallb p (bullets b s) = true.
Proof.
  intros Hspan. remember (length s) as n eqn:Hn.
  revert s Hn. induction n as [n IH] using lt_wf_ind. intros s Hn Hs b.
  destruct s as [|c [|d r]]; [reflexivity | exact Hs|].
  rewrite bullets_pair. cbn [forallb] in Hs.
  apply andb_true_iff in Hs. destruct Hs as [Hc Hs].
  destruct (b && (c =? 8226) && (d =? 32)).
  - rewrite forallb_app, Hspan. cbn [andb forallb] in Hs |- *.
    apply andb_true_iff in Hs. destruct Hs as [_ Hr].
    apply (IH (length r)); [subst n; cbn [length]; lia | reflexivity
                           | exact Hr].
  - cbn [forallb]. rewrite Hc. cbn [andb].
    apply (IH (length (d :: r))); [subst n; cbn [length]; lia | reflexivity
                                  | exact Hs].
Qed.

Lemma pictographs_units (p : N -> bool) (s : jstring) :
  forallb p (str_q "<span class='text-2xl align-middle'>") = true ->
  forallb p (str "</span>") = true ->
  forallb p s = true ->
  forallb p (pictographs s) = true.
Proof.
  intros Hopen Hclose. remember (length s) as n eqn:Hn.
  revert s Hn. induction n as [n IH] using lt_wf_ind. intros s Hn Hs.
  destruct s as [|c [|d r]]; [reflexivity | exact Hs|].
  rewrite pictographs_pair. cbn [forallb] in Hs.
  apply andb_true_iff in Hs. destruct Hs as [Hc Hs].
  pose proof Hs as Hdr. cbn [forallb] in Hs.
  apply andb_true_iff in Hs. destruct Hs as [Hd Hr].
  assert (IHr : forallb p (pictographs r) = true)
    by (apply (IH (length r)); [subst n; cbn [length]; lia | reflexivity
                               | exact Hr]).
  destruct (is_high_surrogate c && is_low_surrogate d).
  - destruct (is_pictograph (code_point c d)).
    + rewrite !forallb_app, Hopen, Hclose. cbn [forallb andb].
      rewrite Hc, Hd, IHr. reflexivity.
    + cbn [forallb]. rewrite Hc, Hd, IHr. reflexivity.
  - cbn [forallb]. rewrite Hc. cbn [andb].
    apply (IH (length (d :: r))); [subst n; cbn [length]; lia | reflexivity
                                  | exact Hdr].
Qed.

(** X19.  No line feed is left.  The text [formatMessage] gives holds no
    line feed, whatever the message: every line feed has become a [<br>]
    and no replacement writes one. *)
Theorem formatMessage_no_line_feed (content : jstring) :
  forallb (fun c => negb (c =? 10)) (formatMessage content) = true.
Proof.
  unfold formatMessage. apply pictographs_units; [reflexivity..|].
  apply bullets_units; [reflexivity|]. apply line_breaks_units.
Qed.

Lemma bold_plain (s : jstring) :
  forallb (fun c => negb (c =? 42)) s = true -> bold s = s.
Proof.
  unfold bold. induction s as [|c r IH]; [reflexivity|].
  cbn [forallb]. intros H. apply andb_true_iff in H. destruct H as [Hc Hr].
  cbn [bold_from]. change (str "**") with [42; 42]. cbn [startsWith].
  apply negb_true_iff in Hc. rewrite N.eqb_sym, Hc. cbn [andb].
  rewrite (IH Hr). reflexivity.
Qed.

Lemma line_breaks_plain (s : jstring) :
  forallb (fun c => negb (c =? 10)) s = true -> line_breaks s = s.
Proof.
  unfold line_breaks. induction s as [|c r IH]; [reflexivity|].
  cbn [forallb flat_map]. intros H. apply andb_true_iff in H.
  destruct H as [Hc Hr]. apply negb_true_iff in Hc. rewrite Hc, (IH Hr).
  reflexivity.
Qed.

Lemma bullets_plain (s : jstring) (b : bool) :
  forallb (fun c => negb (c =? 8226)) s = true -> bullets b s = s.
Proof.
  revert b. induction s as [|c r IH]; intros b; [reflexivity|].
  cbn [forallb]. intros H. apply andb_true_iff in H. destruct H as [Hc Hr].
  apply negb_true_iff in Hc.
  destruct r as [|d r]; [reflexivity|].
  rewrite bullets_pair, Hc, andb_false_r. cbn [andb].
  rewrite (IH _ Hr). reflexivity.
Qed.

Lemma pictographs_plain (s : jstring) :
  forallb (fun c => negb (is_high_surrogate c)) s = true ->
  pictographs s = s.
Proof.
  induction s as [|c r IH]; [reflexivity|].
  cbn [forallb]. intros H. apply andb_true_iff in H. destruct H as [Hc Hr].
  apply negb_true_iff in Hc.
  destruct r as [|d r]; [reflexivity|].
  rewrite pictographs_pair, Hc. cbn [andb]. rewrite (IH Hr). reflexivity.
Qed.

Lemma forallb_weaken {A : Type} (p q : A -> bool) (l : list A) :
  (forall a, p a = true -> q a = true) ->
  forallb p l = true -> forallb q l = true.
Proof.
  intros H. rewrite !forallb_forall. intros Hp a Ha. apply H, Hp, Ha.
Qed.

(** X20.  Plain text is left as it is.  A message with no star, no line
    feed, no bullet (U+2022) and no high surrogate is its own formatted
    text: nothing is escaped and nothing is added, markup in the message
    included. *)
Theorem formatMessage_plain (content : jstring) :
  forallb plain_unit content = true ->
  formatMessage content = content.
Proof.
  intros H. unfold formatMessage.
  rewrite bold_plain, line_breaks_plain, bullets_plain, pictographs_plain;
    try reflexivity;
    (eapply forallb_weaken; [|exact H]); unfold plain_unit; intros c Hc;
    repeat (apply andb_true_iff in Hc; destruct Hc as [Hc ?]); assumption.
Qed.

Lemma bullets_inside_line (s : jstring) :
  forallb (fun c => negb (is_line_terminator c)) s = true ->
  bullets false s = s.
Proof.
  induction s as [|c r IH]; [reflexivity|].
  cbn [forallb]. intros H. apply andb_true_iff in H. destruct H as [Hc Hr].
  apply negb_true_iff in Hc.
  destruct r as [|d r]; [reflexivity|].
  rewrite bullets_pair. cbn [andb]. rewrite Hc, (IH Hr). reflexivity.
Qed.

Lemma bullets_one_line (s : jstring) :
  forallb (fun c => negb (is_line_terminator c)) s = true ->
  bullets true s =
  if startsWith s [8226; 32] then bullet_span ++ skipn 2 s else s.
Proof.
  destruct s as [|c [|d r]]; [reflexivity|..].
  - intros _. cbn [bullets startsWith]. rewrite andb_false_r. reflexivity.
  - cbn [forallb]. intros H. apply andb_true_iff in H.
    destruct H as [Hc Hr]. apply negb_true_iff in Hc.
    pose proof Hr as Hdr. cbn [forallb] in Hr.
    apply andb_true_iff in Hr. destruct Hr as [_ Hr].
    rewrite bullets_pair. cbn [startsWith andb skipn].
    assert (Hn : startsWith r [] = true) by (destruct r; reflexivity).
    rewrite Hn, andb_true_r, (N.eqb_sym 8226 c), (N.eqb_sym 32 d).
    destruct ((c =? 8226) && (d =? 32)).
    + rewrite (bullets_inside_line r Hr). reflexivity.
    + rewrite Hc, (bullets_inside_line (d :: r) Hdr). reflexivity.
Qed.

Lemma close_bold_units (p : N -> bool) (s inner rest : jstring) :
  close_bold s = Some (inner, rest) ->
  forallb p s = true -> forallb p inner = true.
Proof.
  intros H Hs. rewrite (close_bold_split s inner rest H) in Hs.
  rewrite forallb_app in Hs. apply andb_true_iff in Hs. apply Hs.
Qed.

Lemma bold_from_units (p : N -> bool) (s : jstring) :
  forallb p (str "<strong>") = true ->
  forallb p (str "</strong>") = true ->
  forallb p s = true ->
  forall k, forallb p (bold_from k s) = true.
Proof.
  intros Hopen Hclose. induction s as [|c r IH]; intros Hs k; [reflexivity|].
  cbn [forallb] in Hs. apply andb_true_iff in Hs. destruct Hs as [Hc Hr].
  destruct k as [|k]; [|apply (IH Hr)].
  rewrite bold_from_start.
  assert (Hplain : forallb p (c :: bold_from 0 r) = true)
    by (cbn [forallb]; rewrite Hc; apply (IH Hr)).
  destruct (startsWith (c :: r) (str "**")); [|exact Hplain].
  destruct (close_bold (skipn 2 (c :: r))) as [[inner rest]|] eqn:E;
    [|exact Hplain].
  rewrite !forallb_app, Hopen, Hclose, (IH Hr). cbn [andb].
  rewrite andb_true_r. apply (close_bold_units p _ inner rest E).
  destruct r as [|d r]; [reflexivity|]. cbn [skipn].
  cbn [forallb] in Hr. apply andb_true_iff in Hr. apply Hr.
Qed.

Lemma line_breaks_one_line (s : jstring) :
  forallb (fun c => negb ((c =? 13) || (c =? 8232) || (c =? 8233))) s
  = true ->
  forallb (fun c => negb (is_line_terminator c)) (line_breaks s) = true.
Proof.
  intros H. unfold line_breaks.
  induction s as [|c r IH]; [reflexivity|].
  cbn [forallb] in H. apply andb_true_iff in H. destruct H as [Hc Hr].
  cbn [flat_map]. rewrite forallb_app, (IH Hr), andb_true_r.
  destruct (c =? 10) eqn:E; [reflexivity|].
  cbn [forallb]. unfold is_line_terminator. rewrite E. cbn [orb].
  rewrite Hc. reflexivity.
Qed.

Lemma formatted_step (x : N) (r : jstring) :
  x <> 42 -> x <> 10 ->
  line_breaks (bold (x :: r)) = x :: line_breaks (bold r).
Proof.
  intros H42 H10. rewrite bold_no_match.
  - unfold line_breaks. cbn [flat_map].
    apply N.eqb_neq in H10. rewrite H10. reflexivity.
  - left. change (str "**") with [42; 42]. cbn [startsWith].
    apply N.eqb_neq in H42. rewrite N.eqb_sym, H42. reflexivity.
Qed.

Lemma formatted_head (c : N) (r : jstring) :
  exists h t, line_breaks (bold (c :: r)) = h :: t /\ (h = 60 \/ h = c).
Proof.
  unfold bold. rewrite bold_from_start.
  assert (Hplain : exists h t,
             line_breaks (c :: bold_from 0 r) = h :: t
             /\ (h = 60 \/ h = c)).
  { unfold line_breaks. cbn [flat_map].
    destruct (c =? 10); eexists; eexists; split;
      [reflexivity | left; reflexivity | reflexivity | right; reflexivity]. }
  destruct (startsWith (c :: r) (str "**")); [|exact Hplain].
  destruct (close_bold _) as [[inner rest]|]; [|exact Hplain].
  eexists. eexists. split; [reflexivity | left; reflexivity].
Qed.

Lemma formatted_unit (x : N) (s : jstring) :
  x <> 60 -> x <> 42 -> x <> 10 ->
  startsWith (line_breaks (bold s)) [x] = startsWith s [x].
Proof.
  intros H60 H42 H10. destruct s as [|c r]; [reflexivity|].
  destruct (N.eq_dec c x) as [->|Hc].
  - rewrite (formatted_step x r H42 H10). cbn [startsWith].
    rewrite N.eqb_refl. cbn [andb].
    destruct (line_breaks (bold r)), r; reflexivity.
  - destruct (formatted_head c r) as (h & t & -> & Hh). cbn [startsWith].
    assert (E : (x =? h) = false)
      by (apply N.eqb_neq; destruct Hh; congruence).
    assert (E' : (x =? c) = false) by (apply N.eqb_neq; congruence).
    rewrite E, E'. reflexivity.
Qed.

(** The formatted text starts with a bullet and a space exactly when the
    message does. *)
Lemma formatted_bullet (s : jstring) :
  startsWith (line_breaks (bold s)) [8226; 32] = startsWith s [8226; 32].
Proof.
  destruct s as [|c r]; [reflexivity|].
  destruct (N.eq_dec c 8226) as [->|Hc].
  - rewrite formatted_step by discriminate.
    cbn [startsWith]. rewrite N.eqb_refl. cbn [andb].
    apply formatted_unit; discriminate.
  - destruct (formatted_head c r) as (h & t & -> & Hh). cbn [startsWith].
    assert (E : (8226 =? h) = false)
      by (apply N.eqb_neq; destruct Hh; subst; [discriminate | congruence]).
    assert (E' : (8226 =? c) = false) by (apply N.eqb_neq; congruence).
    rewrite E, E'. reflexivity.
Qed.

(** X21.  Only a leading bullet is styled.  In a message without carriage
    return, line separator and paragraph separator (its lines end with
    line feeds), the bullet pass styles a bullet only when the message
    starts with a bullet and a space, and then only that one: when the
    bullets are looked for the line feeds have already become [<br>], so
    a bullet at the start of a later line stays as it is. *)
Theorem only_a_leading_bullet_is_styled (content : jstring) :
  forallb (fun c => negb ((c =? 13) || (c =? 8232) || (c =? 8233))) content
  = true ->
  formatMessage content =
  pictographs
    (if startsWith content [8226; 32]
     then bullet_span ++ skipn 2 (line_breaks (bold content))
     else line_breaks (bold content)).
Proof.
  intros H. unfold formatMessage. rewrite bullets_one_line.
  - rewrite formatted_bullet. reflexivity.
  - apply line_breaks_one_line. unfold bold.
    apply bold_from_units; [reflexivity | reflexivity | exact H].
Qed.

Lemma startsWith_empty (s : jstring) : startsWith s [] = true.
Proof. destruct s; reflexivity. Qed.

Lemma startsWith_stars (s : jstring) :
  startsWith (42 :: 42 :: s) (str "**") = true.
Proof.
  change (str "**") with [42; 42]. cbn [startsWith].
  rewrite startsWith_empty. reflexivity.
Qed.

Lemma close_bold_found (inner post : jstring) :
  forallb (fun c => negb (c =? 42) && negb (is_line_terminator c)) inner
  = true ->
  close_bold (inner ++ [42; 42] ++ post) = Some (inner, post).
Proof.
  induction inner as [|c inner IH].
  { intros _. cbn [app close_bold]. rewrite startsWith_stars. reflexivity. }
  cbn [forallb]. intros H. apply andb_true_iff in H. destruct H as [Hc Hr].
  apply andb_true_iff in Hc. destruct Hc as [H42 Hlt].
  apply negb_true_iff in H42, Hlt.
  change ((c :: inner) ++ [42; 42] ++ post)
    with (c :: (inner ++ [42; 42] ++ post)).
  set (tail := inner ++ [42; 42] ++ post) in *.
  cbn [close_bold]. change (str "**") with [42; 42]. cbn [startsWith].
  rewrite N.eqb_sym, H42, Hlt. cbn [andb]. rewrite (IH Hr). reflexivity.
Qed.

Lemma bold_pair (pre inner post : jstring) :
  forallb (fun c => negb (c =? 42)) pre = true ->
  forallb (fun c => negb (c =? 42) && negb (is_line_terminator c)) inner
  = true ->
  bold (pre ++ [42; 42] ++ inner ++ [42; 42] ++ post)
  = pre ++ str "<strong>" ++ inner ++ str "</strong>" ++ bold post.
Proof.
  intros Hpre Hin. induction pre as [|c pre IH].
  - cbn [app]. apply bold_match; [apply startsWith_stars|].
    cbn [skipn]. apply close_bold_found, Hin.
  - cbn [forallb] in Hpre. apply andb_true_iff in Hpre.
    destruct Hpre as [Hc Hpre]. apply negb_true_iff in Hc.
    change ((c :: pre) ++ [42; 42] ++ inner ++ [42; 42] ++ post)
      with (c :: (pre ++ [42; 42] ++ inner ++ [42; 42] ++ post)).
    rewrite bold_no_match, (IH Hpre); [reflexivity|].
    left. change (str "**") with [42; 42]. cbn [startsWith].
    rewrite N.eqb_sym, Hc. reflexivity.
Qed.

(** X22.  Bold.  In a message made of plain text, two stars, plain text
    of one line, two stars and plain text, the text between the stars is
    put between [<strong>] and [</strong>], the stars are gone, and the
    rest is as it was. *)
Theorem formatMessage_bold (pre inner post : jstring) :
  forallb plain_unit pre = true ->
  forallb (fun c => plain_unit c && negb (is_line_terminator c)) inner
  = true ->
  forallb plain_unit post = true ->
  formatMessage (pre ++ [42; 42] ++ inner ++ [42; 42] ++ post)
  = pre ++ str "<strong>" ++ inner ++ str "</strong>" ++ post.
Proof.
  intros Hpre Hin Hpost.
  assert (Hin' : forallb plain_unit inner = true)
    by (eapply forallb_weaken; [|exact Hin]; intros c Hc;
        apply andb_true_iff in Hc; apply Hc).
  assert (Hstar : forall l, forallb plain_unit l = true ->
                    forallb (fun c => negb (c =? 42)) l = true).
  { intros l. apply forallb_weaken. unfold plain_unit. intros c Hc.
    repeat (apply andb_true_iff in Hc; destruct Hc as [Hc ?]). exact Hc. }
  unfold formatMessage. rewrite bold_pair, (bold_plain post).
  - assert (Hall : forallb
                     (fun c => negb (c =? 10) && negb (c =? 8226)
                               && negb (is_high_surrogate c))
                     (pre ++ str "<strong>" ++ inner ++ str "</strong>"
                      ++ post) = true).
    { assert (Hw : forall l, forallb plain_unit l = true ->
                forallb (fun c => negb (c =? 10) && negb (c =? 8226)
                                  && negb (is_high_surrogate c)) l = true).
      { intros l. apply forallb_weaken. unfold plain_unit. intros c Hc.
        repeat (apply andb_true_iff in Hc; destruct Hc as [Hc ?]).
        repeat (apply andb_true_iff; split); assumption. }
      rewrite !forallb_app, (Hw pre Hpre), (Hw inner Hin'), (Hw post Hpost).
      reflexivity. }
    rewrite line_breaks_plain, bullets_plain, pictographs_plain;
      try reflexivity;
      (eapply forallb_weaken; [|exact Hall]); intros c Hc;
      repeat (apply andb_true_iff in Hc; destruct Hc as [Hc ?]); assumption.
  - apply Hstar, Hpost.
  - apply Hstar, Hpre.
  - eapply forallb_weaken; [|exact Hin]. unfold plain_unit. intros c Hc.
    apply andb_true_iff in Hc. destruct Hc as [Hc Hlt].
    repeat (apply andb_true_iff in Hc; destruct Hc as [Hc ?]).
    rewrite Hc, Hlt. reflexivity.
Qed.

(* ===================================================================== *)
(** * The sample session, again *)
(* ===================================================================== *)


Lemma reachable_cache_sound_witness :
  exists call params r,
    cacheKey demo_call
    = ToString (tc_name call) ++ str ":"
      ++ ToString (ensureJsonString (tc_arguments call))
    /\ In (Invoke call params (Returned r)) (effects demo_service)
    /\ VArr [demo_result 1] = as_array r.
Proof.
  apply (reachable_cache_sound demo_syntax_error demo_service
           (cacheKey demo_call) (VArr [demo_result 1])).
  - apply reach_generateResponse, reach_new.
  - vm_compute. reflexivity.
Defined.


Lemma nothing_read_after_the_end_witness :
  readStream demo_handle 0 ([demo_lines] ++ [demo_text_line ++ [10]])
    EndOfData (new_service 0%nat)
  = (emit (Complete 0) (emit (Next 0 (VStr (str "Hel"))) (new_service 0%nat)),
     None).
Proof.
  apply (nothing_read_after_the_end demo_handle 0 [demo_lines]
           [demo_text_line ++ [10]]
           (MkError (str "TypeError") (str "network error")) EndOfData).
  vm_compute. reflexivity.
Defined.

Lemma noise_lines_ignored_witness :
  readStream demo_handle 0 [demo_noisy_lines] EndOfData (new_service 0%nat)
  = readStream demo_handle 0 [demo_lines] EndOfData (new_service 0%nat).
Proof.
  apply (noise_lines_ignored demo_handle 0 [demo_noisy_lines] [demo_lines]).
  vm_compute. reflexivity.
Defined.

Lemma event_type_stays_witness :
  process_lines demo_handle 0
    [str "event: content-delta"; str_q "data: {'text':'a'}";
     str_q "data: {'text':'b'}"]
    {| currentEventType := VNull; toolCallsMap := [] |} (new_service 0%nat)
  = Continue {| currentEventType := VStr (str "content-delta");
                toolCallsMap := [] |}
      (emit (Next 0 (VStr (str "b")))
         (emit (Next 0 (VStr (str "a"))) (new_service 0%nat)))
  /\ currentEventType {| currentEventType := VStr (str "content-delta");
                         toolCallsMap := [] |}
     = VStr (str "content-delta").
Proof.
  assert (H : process_lines demo_handle 0
                [str "event: content-delta"; str_q "data: {'text':'a'}";
                 str_q "data: {'text':'b'}"]
                {| currentEventType := VNull; toolCallsMap := [] |}
                (new_service 0%nat)
              = Continue {| currentEventType := VStr (str "content-delta");
                            toolCallsMap := [] |}
                  (emit (Next 0 (VStr (str "b")))
                     (emit (Next 0 (VStr (str "a"))) (new_service 0%nat))))
    by (vm_compute; reflexivity).
  split; [exact H|].
  apply (event_type_stays demo_handle 0 (str "event: content-delta")
           [str_q "data: {'text':'a'}"; str_q "data: {'text':'b'}"]
           (str "content-delta") _ _ _ _ eq_refl eq_refl H).
Defined.

Lemma string_arguments_reach_handler_witness :
  JSON_parse (ToString (ensureJsonString (tc_arguments demo_text_call)))
  = Some (VStr (str "hello"))
  /\ effects (snd (executeToolCalls demo_syntax_error demo_config
                     [demo_text_call] (new_service 0%nat)))
     = [Invoke demo_text_call (VStr (str "hello"))
          (Returned (VObj [(str "q", VUndef);
                           (str "calls", VNum (Num 1 0))]))].
Proof.
  apply (string_arguments_reach_handler demo_syntax_error demo_config
           demo_text_call (str " hello ") demo_handler (new_service 0%nat)).
  - reflexivity.
  - vm_compute. reflexivity.
  - reflexivity.
Defined.


Lemma stopStream_stops_every_stream_witness :
  let g := {| svc := install_controller
                       (install_controller (new_service tt));
              chains := [InFlight (Some 0%nat); InFlight (Some 1%nat)] |} in
  (live_streams g <= 1)%nat
  /\ live_streams {| svc := stopStream (svc g); chains := chains g |} = 0%nat.
Proof.
  apply (stopStream_stops_every_stream tt
           [CallGenerateResponse; CallGenerateResponse]).
  - reflexivity.
  - reflexivity.
Defined.

Lemma store_ok_initialState {W : Type}
    (syntax_error_message : jstring -> jstring) (w : W) :
  store_ok syntax_error_message (initialState w).
Proof.
  split; [apply reach_new|]. split; [constructor | apply NoDup_nil_2].
Qed.

Lemma answer_in_the_store_witness :
  let st' := processMessage demo_syntax_error ascii_toLowerCase [demo_reply]
               (str "Hi") 7 demo_store in
  st_messages st'
  = [ {| msg_type := str "assistant"; msg_content := default_startMessage;
         msg_id := 0; msg_timestamp := 0; msg_isTyping := None |};
      {| msg_type := str "user"; msg_content := str "Hi";
         msg_id := 1; msg_timestamp := 7; msg_isTyping := None |};
      {| msg_type := str "assistant"; msg_content := str "Hel";
         msg_id := 2; msg_timestamp := 7; msg_isTyping := Some false |} ]
  /\ st_isProcessing st' = false.
Proof.
  destruct (answer_in_the_store demo_syntax_error ascii_toLowerCase
              [demo_reply] (str "Hi") 7 demo_store) as (Hm & Hp & _).
  - apply store_ok_initialize, store_ok_initialState.
  - vm_compute. discriminate.
  - reflexivity.
  - split; [rewrite Hm | rewrite Hp]; vm_compute; reflexivity.
Defined.

Lemma message_sent_to_the_model_witness :
  snd (sendMessage demo_syntax_error ascii_toLowerCase [] (str " Hi ") 7
         demo_store) = []
  /\ exists rest,
       effects (cohereService
                  (fst (sendMessage demo_syntax_error ascii_toLowerCase []
                          (str " Hi ") 7 demo_store)))
       = effects (stopStream (cohereService demo_store))
         ++ Fetch (st_apiUrl demo_store)
              (str "Bearer " ++ ToString (st_apiKey demo_store))
              {| model := st_modelName demo_store;
                 messages :=
                   VObj [(str "role", VStr (str "system"));
                         (str "content", st_systemPrompt demo_store)]
                   :: List.map to_history (st_messages demo_store)
                   ++ [VObj [(str "role", VStr (str "user"));
                             (str "content", VStr (trim (str " Hi ")))]];
                 stream := true;
                 tools := transformTools (st_tools demo_store);
                 documents := Some (st_documents demo_store) |}
              (Some (controllers (cohereService demo_store)))
            :: rest.
Proof.
  apply (message_sent_to_the_model demo_syntax_error ascii_toLowerCase []
           (str " Hi ") 7 demo_store).
  - vm_compute. discriminate.
  - reflexivity.
Defined.

Lemma abort_like_error_keeps_processing_witness :
  let st' :=
    processMessage demo_syntax_error ascii_toLowerCase
      [Response false (VNum (Num 499 0)) (str "Request ABORTED by client")
         None]
      (str "Hi") 7 demo_store in
  st_isProcessing st' = true
  /\ last (st_messages st')
     = Some {| msg_type := str "assistant"; msg_content := [];
               msg_id := 2; msg_timestamp := 7;
               msg_isTyping := Some true |}
  /\ forall net' content' now',
       processMessage demo_syntax_error ascii_toLowerCase net' content' now'
         st' = st'.
Proof.
  apply (abort_like_error_keeps_processing demo_syntax_error
           ascii_toLowerCase [] (VNum (Num 499 0))
           (str "Request ABORTED by client") None (str "Hi") 7 demo_store).
  - apply store_ok_initialize, store_ok_initialState.
  - vm_compute. discriminate.
  - reflexivity.
  - vm_compute. reflexivity.
Defined.

Lemma stopRequest_marks_each_time_witness :
  st_messages (stopRequest (stopRequest demo_store))
  = [ {| msg_type := str "assistant";
         msg_content :=
           default_startMessage ++ stopped_marker ++ stopped_marker;
         msg_id := 0; msg_timestamp := 0; msg_isTyping := Some false |} ].
Proof.
  destruct (stopRequest_marks_each_time demo_store []
              {| msg_type := str "assistant";
                 msg_content := default_startMessage;
                 msg_id := 0; msg_timestamp := 0; msg_isTyping := None |}
              1%nat) as (H & _).
  - reflexivity.
  - reflexivity.
  - constructor.
  - cbn [Nat.iter nat_rect] in H. rewrite H. vm_compute. reflexivity.
Defined.

Lemma formatMessage_plain_witness :
  formatMessage (str "<b>1 < 2</b> & more") = str "<b>1 < 2</b> & more".
Proof.
  apply (formatMessage_plain (str "<b>1 < 2</b> & more")).
  vm_compute. reflexivity.
Defined.

Lemma only_a_leading_bullet_is_styled_witness :
  formatMessage demo_list
  = bullet_span ++ str "one<br>" ++ [8226; 32] ++ str "two".
Proof.
  rewrite (only_a_leading_bullet_is_styled demo_list);
    vm_compute; reflexivity.
Defined.

Lemma formatMessage_bold_witness :
  formatMessage (str "a **b c** d") = str "a <strong>b c</strong> d".
Proof.
  apply (formatMessage_bold (str "a ") (str "b c") (str " d"));
    vm_compute; reflexivity.
Defined.
